(** * Verification of the pip-rs dependency-resolution core

    Shallow embedding of the resolver core of pip-rs:
    - src/src/models/requirement.rs   (Requirement::from_str, parse_version_specs)
    - src/src/models/marker.rs        (Marker::parse, Marker::evaluate, Environment)
    - src/crates/pip-rs-core/src/resolver/resolver.rs
    - src/crates/pip-rs-core/src/resolver/candidate_selector.rs
    - src/crates/pip-rs-core/src/resolver/dependency_cache.rs
    - src/crates/pip-rs-core/src/resolver/lockfile.rs

    Rust strings are modelled as lists of Unicode scalar values ([list Z]);
    byte offsets (what [str::find] returns and what slicing takes) are
    computed from the UTF-8 length of each char, and slicing at a byte
    offset that is not a char boundary panics, as in Rust. *)

From Stdlib Require Import ZArith QArith Lia.
From Stdlib Require Import Strings.String.
From Stdlib Require Strings.Ascii.
From stdpp Require Import base gmap list.

Local Open Scope Z_scope.

(* ------------------------------------------------------------------ *)
(** ** Rust runtime: panics, results, chars and strings *)

(** A computation that returns normally or panics. *)
Inductive Panicking (A : Type) : Type :=
| Normal (a : A)
| Panic.
Arguments Normal {A} a.
Arguments Panic {A}.

Definition pbind {A B} (m : Panicking A) (k : A -> Panicking B) : Panicking B :=
  match m with Normal a => k a | Panic => Panic end.

Notation "'let!' x ':=' m 'in' k" := (pbind m (fun x => k))
  (at level 200, x name, m at level 100, k at level 200).

(** [Result<T, E>]. *)
Inductive Result (T E : Type) : Type :=
| Ok (t : T)
| Err (e : E).
Arguments Ok {T E} t.
Arguments Err {T E} e.

(** A Rust [String]/[&str]: its chars, as code points. *)
Abbreviation rstring := (list Z).

(** ASCII literal to [rstring]. *)
Fixpoint str (s : String.string) : rstring :=
  match s with
  | String.EmptyString => []
  | String.String a t => Z.of_nat (Ascii.nat_of_ascii a) :: str t
  end.

(** The parts of the Unicode character tables used by [char] methods
    above U+00FF; the Latin-1 range is written out below. *)
Class UnicodeTables := {
  wide_alphanumeric : Z -> bool;   (* char::is_alphanumeric, c > U+00FF *)
  wide_lowercase : Z -> rstring    (* char::to_lowercase, c > U+00FF *)
}.

Definition in_range (lo hi c : Z) : bool := (lo <=? c) && (c <=? hi).

(** [char::is_alphanumeric] on U+0000..U+00FF (Alphabetic or Numeric). *)
Definition latin1_alphanumeric (c : Z) : bool :=
  in_range 48 57 c || in_range 65 90 c || in_range 97 122 c
  || (c =? 0xAA) || (c =? 0xB2) || (c =? 0xB3) || (c =? 0xB5)
  || (c =? 0xB9) || (c =? 0xBA) || in_range 0xBC 0xBE c
  || in_range 0xC0 0xD6 c || in_range 0xD8 0xF6 c || in_range 0xF8 0xFF c.

Definition is_alphanumeric `{UnicodeTables} (c : Z) : bool :=
  if c <=? 0xFF then latin1_alphanumeric c else wide_alphanumeric c.

(** [char::is_whitespace] (the White_Space property). *)
Definition is_whitespace (c : Z) : bool :=
  in_range 9 13 c || (c =? 32) || (c =? 0x85) || (c =? 0xA0)
  || (c =? 0x1680) || in_range 0x2000 0x200A c || (c =? 0x2028)
  || (c =? 0x2029) || (c =? 0x202F) || (c =? 0x205F) || (c =? 0x3000).

(** [char::to_lowercase]. *)
Definition char_to_lowercase `{UnicodeTables} (c : Z) : rstring :=
  if c <=? 0xFF then
    if in_range 65 90 c || (in_range 0xC0 0xDE c && negb (c =? 0xD7))
    then [c + 32] else [c]
  else wide_lowercase c.

Definition to_lowercase `{UnicodeTables} (s : rstring) : rstring :=
  flat_map char_to_lowercase s.

(** UTF-8 encoding ([str::as_bytes]) and byte lengths. *)
Definition utf8_len (c : Z) : nat :=
  if c <? 0x80 then 1%nat else if c <? 0x800 then 2%nat
  else if c <? 0x10000 then 3%nat else 4%nat.

Definition utf8_encode (c : Z) : list Z :=
  if c <? 0x80 then [c]
  else if c <? 0x800 then [0xC0 + c / 64; 0x80 + c mod 64]
  else if c <? 0x10000 then
    [0xE0 + c / 4096; 0x80 + (c / 64) mod 64; 0x80 + c mod 64]
  else [0xF0 + c / 262144; 0x80 + (c / 4096) mod 64;
        0x80 + (c / 64) mod 64; 0x80 + c mod 64].

Definition as_bytes (s : rstring) : list Z := flat_map utf8_encode s.

Fixpoint byte_len (s : rstring) : nat :=
  match s with [] => 0%nat | c :: t => (utf8_len c + byte_len t)%nat end.

(** [&s[pos..]]: panics past the end or inside a char. *)
Fixpoint slice_from (s : rstring) (pos : nat) : Panicking rstring :=
  match pos, s with
  | O, _ => Normal s
  | S _, [] => Panic
  | S _, c :: t =>
      if Nat.ltb pos (utf8_len c) then Panic else slice_from t (pos - utf8_len c)
  end.

(** [&s[..pos]]. *)
Fixpoint slice_to (s : rstring) (pos : nat) : Panicking rstring :=
  match pos, s with
  | O, _ => Normal []
  | S _, [] => Panic
  | S _, c :: t =>
      if Nat.ltb pos (utf8_len c) then Panic
      else let! r := slice_to t (pos - utf8_len c) in Normal (c :: r)
  end.

(** [&s[i..j]]. *)
Definition slice_range (s : rstring) (i j : nat) : Panicking rstring :=
  if Nat.ltb j i then Panic else let! p := slice_to s j in slice_from p i.

(** [s.find(pred)]: byte offset of the first char satisfying [p]. *)
Fixpoint find_char (p : Z -> bool) (s : rstring) : option nat :=
  match s with
  | [] => None
  | c :: t =>
      if p c then Some 0%nat
      else match find_char p t with
           | Some i => Some (utf8_len c + i)%nat
           | None => None
           end
  end.

Fixpoint starts_with (pat s : rstring) : bool :=
  match pat, s with
  | [], _ => true
  | p :: pat', c :: s' => (p =? c) && starts_with pat' s'
  | _ :: _, [] => false
  end.

(** [s.find(pat)] for a string pattern: byte offset of the first match. *)
Fixpoint find_str (pat s : rstring) : option nat :=
  if starts_with pat s then Some 0%nat
  else match s with
       | [] => None
       | c :: t =>
           match find_str pat t with
           | Some i => Some (utf8_len c + i)%nat
           | None => None
           end
       end.

Definition contains (pat s : rstring) : bool :=
  match find_str pat s with Some _ => true | None => false end.

Fixpoint trim_start (s : rstring) : rstring :=
  match s with
  | [] => []
  | c :: t => if is_whitespace c then trim_start t else s
  end.

Definition trim_end (s : rstring) : rstring := rev (trim_start (rev s)).

Definition trim (s : rstring) : rstring := trim_end (trim_start s).

(** [s.split(sep)] on a char separator: always at least one piece. *)
Fixpoint split_char (sep : Z) (s : rstring) : list rstring :=
  match s with
  | [] => [[]]
  | c :: t =>
      if c =? sep then [] :: split_char sep t
      else match split_char sep t with
           | [] => [[c]]
           | w :: ws => (c :: w) :: ws
           end
  end.

(** [<u32 as FromStr>::from_str(s).ok()]. *)
Definition digit_value (c : Z) : option Z :=
  if in_range 48 57 c then Some (c - 48) else None.

Fixpoint parse_digits (acc : Z) (s : rstring) : option Z :=
  match s with
  | [] => Some acc
  | c :: t =>
      match digit_value c with
      | Some d => let acc' := acc * 10 + d in
                  if acc' <? 2 ^ 32 then parse_digits acc' t else None
      | None => None
      end
  end.

Definition parse_u32 (s : rstring) : option Z :=
  match s with
  | [] => None
  | [43] | [45] => None
  | 43 :: t => parse_digits 0 t
  | _ => parse_digits 0 s
  end.

(** Rust's [Ord for str]: lexicographic on bytes, which for UTF-8 is
    lexicographic on code points. *)
Fixpoint str_cmp (a b : rstring) : comparison :=
  match a, b with
  | [], [] => Eq
  | [], _ :: _ => Lt
  | _ :: _, [] => Gt
  | x :: a', y :: b' =>
      match Z.compare x y with Eq => str_cmp a' b' | c => c end
  end.

Definition ends_with (pat s : rstring) : bool := starts_with (rev pat) (rev s).

(** [s.trim_matches(c)] for a char [c]. *)
Fixpoint trim_start_char (c : Z) (s : rstring) : rstring :=
  match s with
  | [] => []
  | x :: t => if x =? c then trim_start_char c t else s
  end.

Definition trim_matches (c : Z) (s : rstring) : rstring :=
  rev (trim_start_char c (rev (trim_start_char c s))).

Definition rstring_eqb (a b : rstring) : bool :=
  if decide (a = b) then true else false.

(** [version.split('.').filter_map(|p| p.parse::<u32>().ok()).collect()]. *)
Definition parse_version (v : rstring) : list Z := omap parse_u32 (split_char 46 v).

(** The ordinal comparison loop shared by the resolver and the marker
    evaluator: components compared left to right, a missing one is 0. *)
Fixpoint cmp_zero_parts (b : list Z) : comparison :=
  match b with
  | [] => Eq
  | y :: b' => match Z.compare 0 y with Eq => cmp_zero_parts b' | c => c end
  end.

Fixpoint cmp_parts (a b : list Z) : comparison :=
  match a with
  | [] => cmp_zero_parts b
  | x :: a' =>
      match b with
      | [] => match Z.compare x 0 with Eq => cmp_parts a' [] | c => c end
      | y :: b' => match Z.compare x y with Eq => cmp_parts a' b' | c => c end
      end
  end.

(* ------------------------------------------------------------------ *)
(** ** src/src/models/requirement.rs *)

Module requirement.

Module VersionOp.
Inductive t := Eq | NotEq | Lt | LtEq | Gt | GtEq | Compatible.
End VersionOp.

Record VersionSpec := mkVersionSpec {
  op : VersionOp.t;
  version : rstring
}.

Record Requirement := mkRequirement {
  name : rstring;
  specs : list VersionSpec;
  extras : list rstring;
  marker : option rstring
}.

Section parse.
Context `{UnicodeTables}.

(** The operator table of [parse_version_specs], tried in source order. *)
Definition op_prefix (remaining : rstring) : option (VersionOp.t * nat) :=
  if starts_with (str "=="%string) remaining then Some (VersionOp.Eq, 2%nat)
  else if starts_with (str "!="%string) remaining then Some (VersionOp.NotEq, 2%nat)
  else if starts_with (str "<="%string) remaining then Some (VersionOp.LtEq, 2%nat)
  else if starts_with (str ">="%string) remaining then Some (VersionOp.GtEq, 2%nat)
  else if starts_with (str "<"%string) remaining then Some (VersionOp.Lt, 1%nat)
  else if starts_with (str ">"%string) remaining then Some (VersionOp.Gt, 1%nat)
  else if starts_with (str "~="%string) remaining then Some (VersionOp.Compatible, 2%nat)
  else None.

Definition version_char (ch : Z) : bool :=
  is_alphanumeric ch || (ch =? 46) || (ch =? 42) || (ch =? 43).

(** [for (i, ch) in rest.chars().enumerate() { ... }]: returns
    [(version, version_end)]; [version_end] counts chars. *)
Fixpoint scan_version (rest : rstring) (i : nat) (version : rstring)
    (version_end : nat) : rstring * nat :=
  match rest with
  | [] => (version, version_end)
  | ch :: t =>
      if version_char ch then scan_version t (S i) (version ++ [ch]) (S i)
      else if ch =? 44 then (version, version_end)
      else scan_version t (S i) version (S i)
  end.

(** The [while pos < s.len()] loop of [parse_version_specs]; [pos] is a
    byte offset into [s].  Every round moves [pos] forward by at least the
    operator's length, so [S (byte_len s)] rounds are never exhausted. *)
Fixpoint specs_loop (fuel : nat) (s : rstring) (pos : nat) (specs : list VersionSpec)
    : Panicking (Result (list VersionSpec) rstring) :=
  match fuel with
  | O => Normal (Ok specs)
  | S fuel' =>
      if Nat.ltb pos (byte_len s) then
        let! suffix := slice_from s pos in
        let remaining := trim_start suffix in
        match remaining with
        | [] => Normal (Ok specs)
        | _ :: _ =>
            match op_prefix remaining with
            | None => Normal (Err (str "Invalid version spec: "%string ++ remaining))
            | Some (op, skip) =>
                let! rest0 := slice_from remaining skip in
                let rest := trim_start rest0 in
                let '(version, version_end) := scan_version rest 0 [] 0 in
                match version with
                | [] => Normal (Err (str "Empty version in spec"%string))
                | _ :: _ =>
                    let specs' := specs ++ [mkVersionSpec op version] in
                    let pos' := (pos + (byte_len suffix - byte_len rest) + version_end)%nat in
                    if Nat.ltb pos' (byte_len s) then
                      let! suffix' := slice_from s pos' in
                      if starts_with [44] (trim_start suffix') then
                        let off := match find_char (Z.eqb 44) suffix' with
                                   | Some i => i | None => 0%nat end in
                        specs_loop fuel' s (pos' + off + 1)%nat specs'
                      else specs_loop fuel' s pos' specs'
                    else specs_loop fuel' s pos' specs'
                end
            end
        end
      else Normal (Ok specs)
  end.

Definition parse_version_specs (s0 : rstring) : Panicking (Result (list VersionSpec) rstring) :=
  let s := trim s0 in specs_loop (S (byte_len s)) s 0 [].

(** The package-name loop: over the BYTES of [req_part], each byte read
    as a char ([ch as char]); [pos] is the byte offset after the name. *)
Fixpoint scan_name (bytes : list Z) (i : nat) (name : rstring) (pos : nat) : rstring * nat :=
  match bytes with
  | [] => (name, pos)
  | b :: t =>
      if is_alphanumeric b || (b =? 95) || (b =? 45)
      then scan_name t (S i) (name ++ [b]) (S i)
      else (name, pos)
  end.

Definition replace_underscore (s : rstring) : rstring :=
  map (fun c => if c =? 95 then 45 else c) s.

(** [impl FromStr for Requirement]. *)
Definition from_str (s0 : rstring) : Panicking (Result Requirement rstring) :=
  let s := trim s0 in
  let! split :=
    match find_char (Z.eqb 59) s with
    | Some idx =>
        let! req := slice_to s idx in
        let! mk := slice_from s idx in
        let! m := slice_from mk 1 in
        Normal (trim req, Some (trim m))
    | None => Normal (s, None)
    end in
  let '(req_part, marker) := split in
  let '(name, pos) := scan_name (as_bytes req_part) 0 [] 0 in
  let! remainder := slice_from req_part pos in
  let! ext :=
    if starts_with [91] remainder then
      match find_char (Z.eqb 93) remainder with
      | Some bracket_end =>
          let! extras_str := slice_range remainder 1 bracket_end in
          Normal (map trim (split_char 44 extras_str), S bracket_end)
      | None => Normal ([], 0%nat)
      end
    else Normal ([], 0%nat) in
  let '(extras, spec_start) := ext in
  let! vp := slice_from remainder spec_start in
  let version_part := trim vp in
  let! specs_res :=
    match version_part with
    | [] => Normal (Ok [])
    | _ :: _ => parse_version_specs version_part
    end in
  match specs_res with
  | Err e => Normal (Err e)
  | Ok specs =>
      Normal (Ok (mkRequirement (replace_underscore (to_lowercase name)) specs extras marker))
  end.

End parse.
End requirement.

(* ------------------------------------------------------------------ *)
(** ** src/src/models/marker.rs *)

Module marker.

Record Environment := mkEnvironment {
  python_version : rstring;
  python_full_version : rstring;
  os_name : rstring;
  sys_platform : rstring;
  platform_release : rstring;
  platform_system : rstring;
  platform_version : rstring;
  platform_machine : rstring;
  platform_python_implementation : rstring;
  implementation_name : rstring;
  implementation_version : rstring
}.

(** The [#[cfg(target_os)]] and [#[cfg(target_arch)]] of [current()]. *)
Inductive TargetOs := Macos | Linux | Windows | OtherOs.
Inductive TargetArch := X86_64 | Aarch64 | OtherArch.

Definition current (os : TargetOs) (arch : TargetArch) : Environment :=
  let python_version := str "3.11" in
  mkEnvironment
    python_version
    (python_version ++ str ".0")
    (match os with Windows => str "nt" | _ => str "posix" end)
    (match os with
     | Macos => str "darwin" | Linux => str "linux"
     | Windows => str "win32" | OtherOs => str "unknown" end)
    (str "unknown")
    (str "Darwin")
    (str "unknown")
    (match arch with
     | X86_64 => str "x86_64" | Aarch64 => str "arm64" | OtherArch => str "unknown" end)
    (str "CPython")
    (str "cpython")
    python_version.

Record Marker := mkMarker { expression : rstring }.

Inductive MarkerOp := MEq | MNotEq | MLt | MLtEq | MGt | MGtEq | MIn | MNotIn.

(** [Marker::parse]. *)
Definition parse (s0 : rstring) : Result Marker rstring :=
  let s := trim s0 in
  match s with
  | [] => Err (str "Empty marker")
  | _ :: _ => Ok (mkMarker s)
  end.

Definition get_variable_value (var : rstring) (env : Environment) : rstring :=
  if rstring_eqb var (str "python_version") then python_version env
  else if rstring_eqb var (str "python_full_version") then python_full_version env
  else if rstring_eqb var (str "os_name") then os_name env
  else if rstring_eqb var (str "sys_platform") then sys_platform env
  else if rstring_eqb var (str "platform_release") then platform_release env
  else if rstring_eqb var (str "platform_system") then platform_system env
  else if rstring_eqb var (str "platform_version") then platform_version env
  else if rstring_eqb var (str "platform_machine") then platform_machine env
  else if rstring_eqb var (str "platform_python_implementation")
    then platform_python_implementation env
  else if rstring_eqb var (str "implementation_name") then implementation_name env
  else if rstring_eqb var (str "implementation_version") then implementation_version env
  else [].

Definition compare_versions (v1 v2 : rstring) : Z :=
  match cmp_parts (parse_version v1) (parse_version v2) with
  | Lt => -1 | Eq => 0 | Gt => 1
  end.

(** [cond.splitn(2, op_str)]. *)
Definition splitn2 (pat s : rstring) : Panicking (list rstring) :=
  match find_str pat s with
  | Some i =>
      let! l := slice_to s i in
      let! r := slice_from s (i + byte_len pat) in
      Normal [l; r]
  | None => Normal [s]
  end.

Definition strip_quotes (s : rstring) : rstring :=
  trim_matches 34 (trim_matches 39 (trim s)).

Definition evaluate_condition (cond0 : rstring) (env : Environment) : Panicking bool :=
  let cond1 := trim cond0 in
  let! cond :=
    if starts_with [40] cond1 && ends_with [41] cond1
    then slice_range cond1 1 (byte_len cond1 - 1)
    else Normal cond1 in
  let sel :=
    if contains (str "!=") cond then Some (MNotEq, str "!=")
    else if contains (str "==") cond then Some (MEq, str "==")
    else if contains (str "<=") cond then Some (MLtEq, str "<=")
    else if contains (str ">=") cond then Some (MGtEq, str ">=")
    else if contains (str "<") cond then Some (MLt, str "<")
    else if contains (str ">") cond then Some (MGt, str ">")
    else if contains (str " in ") cond then Some (MIn, str " in ")
    else if contains (str " not in ") cond then Some (MNotIn, str " not in ")
    else None in
  match sel with
  | None => Normal false
  | Some (op, op_str) =>
      let! parts := splitn2 op_str cond in
      match parts with
      | [p0; p1] =>
          let variable := strip_quotes p0 in
          let value := strip_quotes p1 in
          let var_value := get_variable_value variable env in
          Normal (match op with
                  | MEq => rstring_eqb var_value value
                  | MNotEq => negb (rstring_eqb var_value value)
                  | MLt => compare_versions var_value value <? 0
                  | MLtEq => compare_versions var_value value <=? 0
                  | MGt => compare_versions var_value value >? 0
                  | MGtEq => compare_versions var_value value >=? 0
                  | MIn => contains var_value value
                  | MNotIn => negb (contains var_value value)
                  end)
      | _ => Normal false
      end
  end.

(** [evaluate_expression]: split at the first " or ", else the first
    " and ".  Both halves are shorter than [expr], so [S (length expr)]
    rounds of fuel are never exhausted. *)
Fixpoint evaluate_expression_fuel (fuel : nat) (expr : rstring) (env : Environment)
    : Panicking bool :=
  match fuel with
  | O => Normal false
  | S fuel' =>
      match find_str (str " or ") expr with
      | Some idx =>
          let! left := slice_to expr idx in
          let! right := slice_from expr (idx + 4) in
          let! l := evaluate_expression_fuel fuel' left env in
          if l then Normal true else evaluate_expression_fuel fuel' right env
      | None =>
          match find_str (str " and ") expr with
          | Some idx =>
              let! left := slice_to expr idx in
              let! right := slice_from expr (idx + 5) in
              let! l := evaluate_expression_fuel fuel' left env in
              if l then evaluate_expression_fuel fuel' right env else Normal false
          | None => evaluate_condition (trim expr) env
          end
      end
  end.

Definition evaluate (m : Marker) (env : Environment) : Panicking bool :=
  evaluate_expression_fuel (S (length (expression m))) (expression m) env.

End marker.

(* ------------------------------------------------------------------ *)
(** ** src/src/models/package.rs *)

Module package.

Record Package := mkPackage {
  name : rstring;
  version : rstring;
  summary : option rstring;
  home_page : option rstring;
  author : option rstring;
  license : option rstring;
  requires_python : option rstring;
  requires_dist : list rstring;
  classifiers : list rstring
}.

(** [Package::new]. *)
Definition new (n v : rstring) : Package :=
  mkPackage n v None None None None None [] [].

End package.

(* ------------------------------------------------------------------ *)
(** ** src/crates/pip-rs-core/src/resolver/resolver.rs *)

Module resolver.
Import requirement package marker.

Record Resolver := mkResolver {
  cache : gmap rstring Package;
  visited : gset rstring;
  environment : Environment;
  constraints : gmap rstring (list Requirement);
  version_cache : gmap rstring (list Z)
}.

Definition set_cache (r : Resolver) c :=
  mkResolver c (visited r) (environment r) (constraints r) (version_cache r).
Definition set_visited (r : Resolver) v :=
  mkResolver (cache r) v (environment r) (constraints r) (version_cache r).
Definition set_constraints_map (r : Resolver) cs :=
  mkResolver (cache r) (visited r) (environment r) cs (version_cache r).
Definition set_version_cache (r : Resolver) vc :=
  mkResolver (cache r) (visited r) (environment r) (constraints r) vc.

Definition with_environment (environment : Environment) : Resolver :=
  mkResolver ∅ ∅ environment ∅ ∅.

Definition new (os : TargetOs) (arch : TargetArch) : Resolver :=
  with_environment (current os arch).

(** [set_constraints]: [entry(req.name).or_insert_with(Vec::new).push(req)]. *)
Definition set_constraints (r : Resolver) (cs : list Requirement) : Resolver :=
  set_constraints_map r
    (fold_left (fun m req =>
       let prev := match m !! requirement.name req with Some l => l | None => [] end in
       <[requirement.name req := prev ++ [req]]> m) cs (constraints r)).

(** [parse_version_cached]. *)
Definition parse_version_cached (r : Resolver) (v : rstring) : list Z * Resolver :=
  match version_cache r !! v with
  | Some cached => (cached, r)
  | None => let parts := parse_version v in
            (parts, set_version_cache r (<[v := parts]> (version_cache r)))
  end.

Definition nth0 (l : list Z) (i : nat) : Z :=
  match l !! i with Some x => x | None => 0 end.

(** [check_version_spec]. *)
Definition check_version_spec (r : Resolver) (v : rstring) (spec : VersionSpec)
    : bool * Resolver :=
  let '(v1_parts, r1) := parse_version_cached r v in
  let '(v2_parts, r2) := parse_version_cached r1 (requirement.version spec) in
  let cmp := cmp_parts v1_parts v2_parts in
  let b :=
    match op spec with
    | VersionOp.Eq => match cmp with Eq => true | _ => false end
    | VersionOp.NotEq => match cmp with Eq => false | _ => true end
    | VersionOp.Lt => match cmp with Lt => true | _ => false end
    | VersionOp.LtEq => match cmp with Gt => false | _ => true end
    | VersionOp.Gt => match cmp with Gt => true | _ => false end
    | VersionOp.GtEq => match cmp with Lt => false | _ => true end
    | VersionOp.Compatible =>
        (nth0 v1_parts 0 =? nth0 v2_parts 0) && (nth0 v1_parts 1 =? nth0 v2_parts 1)
        && match cmp with Lt => false | _ => true end
    end in
  (b, r2).

(** [satisfies_version]: every spec, stopping at the first failure. *)
Fixpoint satisfies_version (r : Resolver) (v : rstring) (specs : list VersionSpec)
    : bool * Resolver :=
  match specs with
  | [] => (true, r)
  | spec :: rest =>
      let '(b, r1) := check_version_spec r v spec in
      if b then satisfies_version r1 v rest else (false, r1)
  end.

(** The constraints-file loop with its [break]. *)
Fixpoint satisfies_constraints (r : Resolver) (v : rstring) (cs : list Requirement)
    : bool * Resolver :=
  match cs with
  | [] => (true, r)
  | c :: rest =>
      let '(b, r1) := satisfies_version r v (requirement.specs c) in
      if b then satisfies_constraints r1 v rest else (false, r1)
  end.

(** [clear_cache]. *)
Definition clear_cache (r : Resolver) : Resolver :=
  set_visited (set_cache r ∅) ∅.

(** The outcome of one spawned fetch task: the metadata source's answer
    ([get_package_metadata(&name, "latest")]) or a [JoinError]. *)
Inductive Fetched :=
| FetchOk (p : Package)
| FetchErr
| TaskErr.

(** [tokio::sync::Semaphore::MAX_PERMITS]: [usize::MAX >> 3], for a
    64-bit [usize]. *)
Definition MAX_PERMITS : Z := Z.shiftr (2 ^ 64 - 1) 3.

Section resolve.
Context `{UnicodeTables}.
(** The metadata source, as seen by the resolver: name -> outcome. *)
Variable fetch : rstring -> Fetched.
Variable max_concurrent : nat.

(** The local state of [resolve_concurrent]; [fetch_log] records the
    names handed to the metadata source, in order. *)
Record LoopState := mkLoop {
  rv : Resolver;
  queue : list Requirement;
  resolved : list Package;
  fetch_log : list rstring
}.

(** Batch collection: pop until [max_concurrent] un-visited requirements
    are collected, marking each visited as it is taken. *)
Fixpoint take_batch (vis : gset rstring) (q batch : list Requirement)
    : gset rstring * list Requirement * list Requirement :=
  match q with
  | [] => (vis, batch, [])
  | req :: q' =>
      if Nat.ltb (length batch) max_concurrent then
        if bool_decide (requirement.name req ∈ vis) then take_batch vis q' batch
        else take_batch ({[requirement.name req]} ∪ vis) q' (batch ++ [req])
      else (vis, batch, q)
  end.

(** The [for dep_str in &package.requires_dist] loop. *)
Fixpoint expand_deps (env : Environment) (vis : gset rstring) (deps : list rstring)
    (q : list Requirement) : Panicking (list Requirement) :=
  match deps with
  | [] => Normal q
  | dep_str :: rest =>
      let! parsed := from_str dep_str in
      match parsed with
      | Err _ => expand_deps env vis rest q
      | Ok dep_req =>
          let! applies :=
            match requirement.marker dep_req with
            | Some marker_str =>
                match marker.parse marker_str with
                | Ok m => evaluate m env
                | Err _ => Normal true
                end
            | None => Normal true
            end in
          if applies then
            if bool_decide (requirement.name dep_req ∈ vis)
            then expand_deps env vis rest q
            else expand_deps env vis rest (q ++ [dep_req])
          else expand_deps env vis rest q
      end
  end.

Definition FetchResult : Type :=
  rstring * Fetched * list VersionSpec * option (list Requirement).

(** Processing of one joined task result. *)
Definition process_result (st : LoopState) (res : FetchResult) : Panicking LoopState :=
  let '(req_name, fetched, specs, constraint_reqs) := res in
  match fetched with
  | FetchOk pkg =>
      let '(ok, r1) := satisfies_version (rv st) (package.version pkg) specs in
      if negb ok then Normal (mkLoop r1 (queue st) (resolved st) (fetch_log st))
      else
        let '(okc, r2) :=
          match constraint_reqs with
          | Some cs => satisfies_constraints r1 (package.version pkg) cs
          | None => (true, r1)
          end in
        if negb okc then Normal (mkLoop r2 (queue st) (resolved st) (fetch_log st))
        else
          let r3 := set_cache r2 (<[package.name pkg := pkg]> (cache r2)) in
          let! q := expand_deps (environment r3) (visited r3) (requires_dist pkg) (queue st) in
          Normal (mkLoop r3 q (resolved st ++ [pkg]) (fetch_log st))
  | FetchErr | TaskErr => Normal st
  end.

Fixpoint process_results (st : LoopState) (results : list FetchResult) : Panicking LoopState :=
  match results with
  | [] => Normal st
  | res :: rest => let! st' := process_result st res in process_results st' rest
  end.

Inductive Step := Done (st : LoopState) | Continue (st : LoopState).

(** One round of [while !queue.is_empty()]. *)
Definition iteration (st : LoopState) : Panicking Step :=
  match queue st with
  | [] => Normal (Done st)
  | _ :: _ =>
      let '(vis, batch, q) := take_batch (visited (rv st)) (queue st) [] in
      let r1 := set_visited (rv st) vis in
      match batch with
      | [] => Normal (Done (mkLoop r1 q (resolved st) (fetch_log st)))
      | _ :: _ =>
          let results := map (fun req =>
              (requirement.name req, fetch (requirement.name req),
               requirement.specs req, constraints r1 !! requirement.name req)) batch in
          let st1 := mkLoop r1 q (resolved st)
                       (fetch_log st ++ map requirement.name batch) in
          let! st2 := process_results st1 results in
          Normal (Continue st2)
      end
  end.

(** Runs the loop for at most [fuel] rounds; [None]: still running. *)
Fixpoint run (fuel : nat) (st : LoopState) : option (Panicking LoopState) :=
  match fuel with
  | O => None
  | S fuel' =>
      match iteration st with
      | Panic => Some Panic
      | Normal (Done st') => Some (Normal st')
      | Normal (Continue st') => run fuel' st'
      end
  end.

Definition start (r : Resolver) (requirements : list Requirement) : LoopState :=
  mkLoop r requirements [] [].

(** [resolve_concurrent]: [Semaphore::new(max_concurrent)] asserts
    [permits <= Semaphore::MAX_PERMITS] before the loop; the only return
    is [Ok(resolved)]. *)
Definition resolve_concurrent (fuel : nat) (r : Resolver) (requirements : list Requirement)
    : option (Panicking (Result (list Package) rstring * Resolver)) :=
  if Z.of_nat max_concurrent >? MAX_PERMITS then Some Panic else
  match run fuel (start r requirements) with
  | None => None
  | Some Panic => Some Panic
  | Some (Normal st) => Some (Normal (Ok (resolved st), rv st))
  end.

End resolve.

(** [resolve]: [resolve_concurrent(requirements, 10)]. *)
Definition resolve `{UnicodeTables} (fetch : rstring -> Fetched) (fuel : nat)
    (r : Resolver) (requirements : list Requirement) :=
  resolve_concurrent fetch 10 fuel r requirements.

Section sequential.
Context `{UnicodeTables}.
Variable fetch : rstring -> Fetched.

(** [get_package]: the package cache first, then the metadata source,
    whose answer is cached under the requested name.  The third component
    is [log] extended with the name when the metadata source is asked. *)
Definition get_package (r : Resolver) (name : rstring) (log : list rstring)
    : option Package * Resolver * list rstring :=
  match cache r !! name with
  | Some pkg => (Some pkg, r, log)
  | None =>
      match fetch name with
      | FetchOk package => (Some package, set_cache r (<[name := package]> (cache r)), log ++ [name])
      | FetchErr | TaskErr => (None, r, log ++ [name])
      end
  end.

(** One round of [while let Some(req) = queue.pop_front()] in
    [resolve_sequential]. *)
Definition seq_step (st : LoopState) : Panicking Step :=
  match queue st with
  | [] => Normal (Done st)
  | req :: q =>
      if bool_decide (requirement.name req ∈ visited (rv st))
      then Normal (Continue (mkLoop (rv st) q (resolved st) (fetch_log st)))
      else
        let r0 := set_visited (rv st) ({[requirement.name req]} ∪ visited (rv st)) in
        let '(res, r1, log) := get_package r0 (requirement.name req) (fetch_log st) in
        match res with
        | None => Normal (Continue (mkLoop r1 q (resolved st) log))
        | Some pkg =>
            let '(ok, r2) := satisfies_version r1 (package.version pkg) (requirement.specs req) in
            if negb ok then Normal (Continue (mkLoop r2 q (resolved st) log))
            else
              let '(okc, r3) :=
                match constraints r2 !! requirement.name req with
                | Some cs => satisfies_constraints r2 (package.version pkg) cs
                | None => (true, r2)
                end in
              if negb okc then Normal (Continue (mkLoop r3 q (resolved st) log))
              else
                let! q' := expand_deps (environment r3) (visited r3) (requires_dist pkg) q in
                Normal (Continue (mkLoop r3 q' (resolved st ++ [pkg]) log))
        end
  end.

(** Runs [resolve_sequential]'s loop for at most [fuel] rounds. *)
Fixpoint run_seq (fuel : nat) (st : LoopState) : option (Panicking LoopState) :=
  match fuel with
  | O => None
  | S fuel' =>
      match seq_step st with
      | Panic => Some Panic
      | Normal (Done st') => Some (Normal st')
      | Normal (Continue st') => run_seq fuel' st'
      end
  end.

(** [resolve_sequential]: the only return is [Ok(resolved)]. *)
Definition resolve_sequential (fuel : nat) (r : Resolver) (requirements : list Requirement)
    : option (Panicking (Result (list Package) rstring * Resolver)) :=
  match run_seq fuel (start r requirements) with
  | None => None
  | Some Panic => Some Panic
  | Some (Normal st) => Some (Normal (Ok (resolved st), rv st))
  end.

End sequential.

End resolver.

(* ------------------------------------------------------------------ *)
(** ** src/crates/pip-rs-core/src/resolver/candidate_selector.rs *)

Module candidate_selector.
Import package.

Record Candidate := mkCandidate {
  package : Package;
  is_installed : bool;
  is_editable : bool;
  link_url : option rstring
}.

Inductive SelectionStrategy := PreferInstalled | PreferLatest | PreferCompatible.

Record CandidateSelector := mkCandidateSelector {
  installed_candidates : gmap rstring Candidate;
  strategy : SelectionStrategy
}.

(** [Iterator::max_by] with [a.package.version.cmp(&b.package.version)]:
    the running maximum is replaced unless it compares [Greater], so the
    last of several equal maxima is returned. *)
Fixpoint max_by_version (best : Candidate) (rest : list Candidate) : Candidate :=
  match rest with
  | [] => best
  | c :: t =>
      match str_cmp (version (package best)) (version (package c)) with
      | Gt => max_by_version best t
      | _ => max_by_version c t
      end
  end.

Definition find_installed (cs : list Candidate) : option Candidate :=
  List.find is_installed cs.

(** [select_best]. *)
Definition select_best (sel : CandidateSelector) (candidates : list Candidate)
    : option Candidate :=
  match candidates with
  | [] => None
  | c :: rest =>
      match strategy sel with
      | PreferInstalled =>
          match find_installed candidates with Some i => Some i | None => Some c end
      | PreferLatest => Some (max_by_version c rest)
      | PreferCompatible =>
          match find_installed candidates with
          | Some i => Some i
          | None => Some (max_by_version c rest)
          end
      end
  end.

(** [CandidateSelector::new]. *)
Definition new (strategy : SelectionStrategy) : CandidateSelector :=
  mkCandidateSelector ∅ strategy.

(** [format!("{}=={}", name.to_lowercase(), version)]. *)
Definition candidate_key `{UnicodeTables} (package_name version : rstring) : rstring :=
  to_lowercase package_name ++ str "=="%string ++ version.

(** [register_installed]. *)
Definition register_installed `{UnicodeTables} (sel : CandidateSelector) (p : Package)
    (editable : bool) : CandidateSelector :=
  mkCandidateSelector
    (<[candidate_key (name p) (version p) := mkCandidate p true editable None]>
       (installed_candidates sel))
    (strategy sel).

(** [can_reuse_installed]. *)
Definition can_reuse_installed `{UnicodeTables} (sel : CandidateSelector)
    (package_name version : rstring) (link : option rstring) (editable : bool) : bool :=
  match installed_candidates sel !! candidate_key package_name version with
  | Some installed =>
      let link_matches :=
        match link, link_url installed with
        | None, None => true
        | Some a, Some b => rstring_eqb a b
        | _, _ => false
        end in
      let editable_matches := Bool.eqb editable (is_editable installed) in
      link_matches && editable_matches
  | None => false
  end.

(** [self.installed_candidates.values()], in the map's iteration order. *)
Definition values (sel : CandidateSelector) : list Candidate :=
  map snd (map_to_list (installed_candidates sel)).

(** [get_installed_candidates]. *)
Definition get_installed_candidates (sel : CandidateSelector) : list Candidate :=
  List.filter is_installed (values sel).

(** [clear_installed]. *)
Definition clear_installed (sel : CandidateSelector) : CandidateSelector :=
  mkCandidateSelector ∅ (strategy sel).

Record CandidateStats := mkCandidateStats {
  total : nat;
  installed : nat;
  editable : nat
}.

(** [stats]. *)
Definition stats (sel : CandidateSelector) : CandidateStats :=
  mkCandidateStats (size (installed_candidates sel))
    (length (List.filter is_installed (values sel)))
    (length (List.filter is_editable (values sel))).

(** [impl Default for CandidateSelector]. *)
Definition default : CandidateSelector := new PreferCompatible.

End candidate_selector.

(* ------------------------------------------------------------------ *)
(** ** src/crates/pip-rs-core/src/resolver/dependency_cache.rs *)

Module dependency_cache.
Import requirement.

Record CachedDependencies := mkCachedDependencies {
  package_name : rstring;
  version : rstring;
  dependencies : list Requirement;
  extras : list rstring
}.

(** [hits] and [misses] are [u32]; [+=] and [+] wrap at 2^32 as in a
    release build (a debug build panics there instead). *)
Record DependencyCache := mkDependencyCache {
  cache : gmap rstring CachedDependencies;
  hits : Z;
  misses : Z
}.

Record CacheStats := mkCacheStats {
  stat_hits : Z;
  stat_misses : Z;
  total : Z;
  hit_rate : Q;   (* [f64] in the source; computed exactly here *)
  size : nat
}.

Definition u32_add (a b : Z) : Z := (a + b) mod 2 ^ 32.

Definition new : DependencyCache := mkDependencyCache ∅ 0 0.

Section ops.
Context `{UnicodeTables}.

Definition cache_key (package_name version : rstring) : rstring :=
  to_lowercase package_name ++ str "=="%string ++ version.

(** [get]. *)
Definition get (dc : DependencyCache) (package_name version : rstring)
    : option CachedDependencies * DependencyCache :=
  let key := cache_key package_name version in
  match cache dc !! key with
  | Some deps => (Some deps, mkDependencyCache (cache dc) (u32_add (hits dc) 1) (misses dc))
  | None => (None, mkDependencyCache (cache dc) (hits dc) (u32_add (misses dc) 1))
  end.

(** [set]. *)
Definition set (dc : DependencyCache) (package_name version : rstring)
    (dependencies : list Requirement) (extras : list rstring) : DependencyCache :=
  let key := cache_key package_name version in
  mkDependencyCache
    (<[key := mkCachedDependencies package_name version dependencies extras]> (cache dc))
    (hits dc) (misses dc).

End ops.

(** [stats]. *)
Definition stats (dc : DependencyCache) : CacheStats :=
  let total := u32_add (hits dc) (misses dc) in
  let hit_rate := if 0 <? total then (inject_Z (hits dc) / inject_Z total * 100)%Q else 0%Q in
  mkCacheStats (hits dc) (misses dc) total hit_rate (stdpp.base.size (cache dc)).

(** [clear]. *)
Definition clear (dc : DependencyCache) : DependencyCache := mkDependencyCache ∅ 0 0.

End dependency_cache.

(* ------------------------------------------------------------------ *)
(** ** src/crates/pip-rs-core/src/resolver/lockfile.rs *)

Module lockfile.
Import package.

Module locked.
Record LockedPackage := mkLockedPackage {
  name : rstring;
  version : rstring;
  summary : option rstring;
  dependencies : list rstring;
  hash : option rstring;
  url : option rstring
}.
End locked.
Import locked.

Record LockFile := mkLockFile {
  version : rstring;
  generated_at : rstring;
  python_version : rstring;
  packages : gmap rstring LockedPackage
}.

(** [from_packages]; [generated_at] is the clock reading
    [chrono::Local::now().to_rfc3339()]. *)
Definition from_packages (pkgs : list Package) (python_version : rstring)
    (generated_at : rstring) : LockFile :=
  let locked_packages :=
    fold_left (fun m (pkg : Package) =>
      <[package.name pkg ++ str "-"%string ++ package.version pkg :=
          mkLockedPackage (package.name pkg) (package.version pkg) (package.summary pkg)
                          (package.requires_dist pkg) None None]> m) pkgs ∅ in
  mkLockFile (str "1.0"%string) generated_at python_version locked_packages.

(** [validate]. *)
Definition validate (lf : LockFile) : Result unit rstring :=
  if negb (rstring_eqb (version lf) (str "1.0"%string)) then
    Err (str "Unsupported lock file version: "%string ++ version lf)
  else if Nat.eqb (size (packages lf)) 0 then
    Err (str "Lock file contains no packages"%string)
  else Ok tt.

(** [self.packages.values()], in the map's iteration order. *)
Definition values (lf : LockFile) : list LockedPackage := map snd (map_to_list (packages lf)).

(** [to_packages]. *)
Definition to_packages (lf : LockFile) : list Package :=
  map (fun locked =>
         mkPackage (locked.name locked) (locked.version locked) (locked.summary locked)
           None None None None (locked.dependencies locked) [])
    (values lf).

(** [get_package]: the key [format!("{}-{}", name, version)]. *)
Definition get_package (lf : LockFile) (name version : rstring) : option LockedPackage :=
  packages lf !! (name ++ str "-"%string ++ version).

(** [has_package]. *)
Definition has_package (lf : LockFile) (name : rstring) : bool :=
  existsb (fun pkg => rstring_eqb (locked.name pkg) name) (values lf).

(** [package_names]. *)
Definition package_names (lf : LockFile) : list rstring := map locked.name (values lf).

End lockfile.

(* ------------------------------------------------------------------ *)
(** ** Fixed inputs for the concrete runs below *)

(** A table for the chars above U+00FF; the concrete runs below only use
    chars up to U+00FF, where the tables are written out above. *)
#[local] Instance narrow_tables : UnicodeTables := {
  wide_alphanumeric := fun _ => false;
  wide_lowercase := fun c => [c]
}.

Definition linux_env : marker.Environment := marker.current marker.Linux marker.X86_64.

Definition compat_spec (v : String.string) : requirement.VersionSpec :=
  requirement.mkVersionSpec requirement.VersionOp.Compatible (str v).

(** A dependency gated on Windows, and what [from_str] makes of it. *)
Definition pkgX_dep : rstring := str "pkgX; sys_platform == 'win32'"%string.
Definition pkgX_marker : rstring := str "sys_platform == 'win32'"%string.
Definition pkgX_req : requirement.Requirement :=
  requirement.mkRequirement (str "pkgx"%string) [] [] (Some pkgX_marker).

(** A metadata source whose package [a] declares the one-char dependency
    U+00E9 (e acute, two bytes C3 A9 in UTF-8); every other name fails to
    fetch. *)
Definition pkg_a_nonascii_dep : package.Package :=
  package.mkPackage (str "a"%string) (str "1.0"%string) None None None None None
    [[0xE9]] [].
Definition nonascii_source (n : rstring) : resolver.Fetched :=
  if rstring_eqb n (str "a"%string) then resolver.FetchOk pkg_a_nonascii_dep
  else resolver.FetchErr.
Definition req_a : requirement.Requirement :=
  requirement.mkRequirement (str "a"%string) [] [] None.
(** A two-package source: [a] depends on [b>=1.0]; [b] has no dependency. *)
Definition pkg_a_dep_b : package.Package :=
  package.mkPackage (str "a"%string) (str "1.0"%string) None None None None None
    [str "b>=1.0"%string] [].
Definition pkg_b : package.Package :=
  package.mkPackage (str "b"%string) (str "2.0"%string) None None None None None [] [].
Definition two_pkg_source (n : rstring) : resolver.Fetched :=
  if rstring_eqb n (str "a"%string) then resolver.FetchOk pkg_a_dep_b
  else if rstring_eqb n (str "b"%string) then resolver.FetchOk pkg_b
  else resolver.FetchErr.
Definition req_a_ge : requirement.Requirement :=
  requirement.mkRequirement (str "a"%string)
    [requirement.mkVersionSpec requirement.VersionOp.GtEq (str "1.0"%string)] [] None.

(* ------------------------------------------------------------------ *)
(** ** Requirement strings composed from their parts

    [compose name extras clauses marker] writes [name[extras]specs;marker]:
    the extras joined by [,] inside brackets, each clause as an operator
    directly followed by its version, clauses joined by [,], and the
    marker after a [;].  The predicates below say which parts are
    well formed. *)

Section composed_requirements.
Import requirement.

Definition is_ascii (s : rstring) : bool := forallb (fun c => (0 <=? c) && (c <? 128)) s.

(** The text of an operator, as [parse_version_specs] reads it. *)
Definition op_str (o : VersionOp.t) : rstring :=
  match o with
  | VersionOp.Eq => str "=="%string
  | VersionOp.NotEq => str "!="%string
  | VersionOp.Lt => str "<"%string
  | VersionOp.LtEq => str "<="%string
  | VersionOp.Gt => str ">"%string
  | VersionOp.GtEq => str ">="%string
  | VersionOp.Compatible => str "~="%string
  end.

Definition render_clause (c : VersionOp.t * rstring) : rstring := op_str (fst c) ++ snd c.

Fixpoint render_clauses (cs : list (VersionOp.t * rstring)) : rstring :=
  match cs with
  | [] => []
  | c :: cs' => render_clause c ++ match cs' with [] => [] | _ => 44 :: render_clauses cs' end
  end.

Fixpoint join_comma (es : list rstring) : rstring :=
  match es with
  | [] => []
  | e :: es' => e ++ match es' with [] => [] | _ => 44 :: join_comma es' end
  end.

Definition render_extras (es : option (list rstring)) : rstring :=
  match es with None => [] | Some l => 91 :: join_comma l ++ [93] end.

Definition render_marker (m : option rstring) : rstring :=
  match m with None => [] | Some t => 59 :: t end.

Definition compose (name : rstring) (es : option (list rstring))
    (cs : list (VersionOp.t * rstring)) (m : option rstring) : rstring :=
  name ++ render_extras es ++ render_clauses cs ++ render_marker m.

Definition name_char (c : Z) : bool :=
  in_range 48 57 c || in_range 65 90 c || in_range 97 122 c || (c =? 95) || (c =? 45).

Definition ascii_version_char (c : Z) : bool :=
  in_range 48 57 c || in_range 65 90 c || in_range 97 122 c
  || (c =? 46) || (c =? 42) || (c =? 43).

Definition extra_item_ok (e : rstring) : bool :=
  forallb (fun c => negb ((c =? 44) || (c =? 93) || (c =? 59))) e.

Definition extras_ok (es : option (list rstring)) : bool :=
  match es with None => true | Some [] => false | Some l => forallb extra_item_ok l end.

Definition clause_ok (c : VersionOp.t * rstring) : bool :=
  match snd c with [] => false | _ => forallb ascii_version_char (snd c) end.

(** The normalised name: ASCII lowercase, [_] replaced by [-]. *)
Definition normalize_name (n : rstring) : rstring :=
  map (fun c => if in_range 65 90 c then c + 32 else if c =? 95 then 45 else c) n.

Definition clause_spec (c : VersionOp.t * rstring) : VersionSpec :=
  mkVersionSpec (fst c) (snd c).

(** The unmarked part [name[extras]specs] of a composed string. *)
Definition body (name : rstring) (es : option (list rstring))
    (cs : list (VersionOp.t * rstring)) : rstring :=
  name ++ render_extras es ++ render_clauses cs.

(** What may follow the name: nothing, [[] or an operator's first char. *)
Definition after_name (s : rstring) : Prop :=
  match s with [] => True | c :: _ => c = 91 \/ c = 61 \/ c = 33 \/ c = 60 \/ c = 62 \/ c = 126 end.

End composed_requirements.

(* ------------------------------------------------------------------ *)
(** ** Auxiliary definitions for the properties of the remaining code *)

Section selector_sequences.
Import candidate_selector.
Context `{UnicodeTables}.

(** The selector's mutating calls: [register_installed] and [clear_installed]. *)
Inductive SelectorOp :=
| OpRegister (p : package.Package) (editable : bool)
| OpClear.

Fixpoint apply_ops (sel : CandidateSelector) (ops : list SelectorOp) : CandidateSelector :=
  match ops with
  | [] => sel
  | OpRegister p e :: ops' => apply_ops (register_installed sel p e) ops'
  | OpClear :: ops' => apply_ops (clear_installed sel) ops'
  end.

Definition all_installed (sel : CandidateSelector) : Prop :=
  map_Forall (fun _ c => is_installed c = true) (installed_candidates sel).

End selector_sequences.

Section lockfile_entries.
Import lockfile package.

(** The key and the entry [from_packages] stores for a package. *)
Definition lock_key (p : Package) : rstring :=
  package.name p ++ str "-"%string ++ package.version p.

Definition lock (p : Package) : locked.LockedPackage :=
  locked.mkLockedPackage (package.name p) (package.version p) (package.summary p)
    (package.requires_dist p) None None.

(** The body of [from_packages]' loop. *)
Definition lock_insert (m : gmap rstring locked.LockedPackage) (pkg : Package) :=
  <[package.name pkg ++ str "-"%string ++ package.version pkg :=
      locked.mkLockedPackage (package.name pkg) (package.version pkg) (package.summary pkg)
        (package.requires_dist pkg) None None]> m.

End lockfile_entries.

Section resolver_aux.
Import resolver package requirement.

(** The body of [set_constraints]' loop. *)
Definition constraints_step (m : gmap rstring (list Requirement)) (req : Requirement) :=
  let prev := match m !! requirement.name req with Some l => l | None => [] end in
  <[requirement.name req := prev ++ [req]]> m.

(** The [match spec.op] of [check_version_spec] on parsed versions. *)
Definition version_op_holds (o : VersionOp.t) (v1_parts v2_parts : list Z) : bool :=
  let cmp := cmp_parts v1_parts v2_parts in
  match o with
  | VersionOp.Eq => match cmp with Eq => true | _ => false end
  | VersionOp.NotEq => match cmp with Eq => false | _ => true end
  | VersionOp.Lt => match cmp with Lt => true | _ => false end
  | VersionOp.LtEq => match cmp with Gt => false | _ => true end
  | VersionOp.Gt => match cmp with Gt => true | _ => false end
  | VersionOp.GtEq => match cmp with Lt => false | _ => true end
  | VersionOp.Compatible =>
      (nth0 v1_parts 0 =? nth0 v2_parts 0) && (nth0 v1_parts 1 =? nth0 v2_parts 1)
      && match cmp with Lt => false | _ => true end
  end.

(** A package whose [requires_dist] strings are all ASCII. *)
Definition ascii_deps (p : Package) : Prop := Forall (fun d => is_ascii d = true) (requires_dist p).

Definition cache_ascii (r : Resolver) : Prop :=
  forall k p, cache r !! k = Some p -> ascii_deps p.

(** What [resolve_sequential]'s loop keeps, relative to its starting resolver. *)
Definition seq_inv (r0 : Resolver) (st : LoopState) : Prop :=
  NoDup (fetch_log st) /\
  (forall n, n ∈ fetch_log st ->
     n ∈ visited (rv st) /\ (n ∉ visited r0) /\ cache r0 !! n = None) /\
  visited r0 ⊆ visited (rv st) /\
  (forall k, is_Some (cache r0 !! k) -> is_Some (cache (rv st) !! k)).

End resolver_aux.

(** The text before the first [,]. *)
Fixpoint before_comma (s : rstring) : rstring :=
  match s with
  | [] => []
  | c :: t => if c =? 44 then [] else c :: before_comma t
  end.


(* ================================================================== *)
(** * Properties *)

Section version_check.
Import resolver.

(** The version-parse cache only ever holds [parse_version] of its key. *)
Definition version_cache_consistent (r : Resolver) : Prop :=
  forall k p, version_cache r !! k = Some p -> p = parse_version k.

Lemma parse_version_cached_spec (r : Resolver) (v : rstring) :
  version_cache_consistent r ->
  fst (parse_version_cached r v) = parse_version v /\
  version_cache_consistent (snd (parse_version_cached r v)).
Proof.
  intros Hc. unfold parse_version_cached.
  destruct (version_cache r !! v) as [p|] eqn:Hl; simpl.
  - split; [eapply Hc; eauto | exact Hc].
  - split; [reflexivity|].
    intros k p Hk. simpl in Hk.
    destruct (decide (v = k)) as [->|Hne].
    + rewrite lookup_insert_eq in Hk. congruence.
    + rewrite lookup_insert_ne in Hk by exact Hne. eapply Hc; eauto.
Qed.

Lemma version_cache_consistent_reset (r : Resolver) :
  version_cache_consistent (set_version_cache r ∅).
Proof. intros k p Hk. simpl in Hk. rewrite lookup_empty in Hk. discriminate. Qed.

(** With a consistent cache the check does not depend on the cache. *)
Lemma check_version_spec_cache_irrelevant (r : Resolver) (v : rstring)
    (spec : requirement.VersionSpec) :
  version_cache_consistent r ->
  fst (check_version_spec r v spec) =
  fst (check_version_spec (set_version_cache r ∅) v spec).
Proof.
  intros Hc. unfold check_version_spec.
  pose proof (parse_version_cached_spec r v Hc) as [E1 C1].
  destruct (parse_version_cached r v) as [p1 r1] eqn:H1. simpl in E1, C1.
  pose proof (parse_version_cached_spec r1 (requirement.version spec) C1) as [E2 _].
  destruct (parse_version_cached r1 (requirement.version spec)) as [p2 r2]. simpl in E2.
  pose proof (version_cache_consistent_reset r) as C0.
  pose proof (parse_version_cached_spec _ v C0) as [E1' C1'].
  destruct (parse_version_cached (set_version_cache r ∅) v) as [q1 s1]. simpl in E1', C1'.
  pose proof (parse_version_cached_spec s1 (requirement.version spec) C1') as [E2' _].
  destruct (parse_version_cached s1 (requirement.version spec)) as [q2 s2]. simpl in E2'.
  subst. reflexivity.
Qed.

(** C3 (counterexample): [check("2.1.0", ~=2.0.0)] is false, not true. *)
Lemma compatible_2_1_0_counterexample :
  fst (check_version_spec (with_environment linux_env) (str "2.1.0") (compat_spec "2.0.0"))
  <> true.
Proof. vm_compute. discriminate. Qed.

(** C3 (amended): for ANY resolver (its version cache only holds parses
    of its keys), [~=2.0.0] rejects 2.1.0 (minor differs), 3.0.0 and 1.9.0. *)
Theorem compatible_operator_vectors (r : Resolver) :
  version_cache_consistent r ->
  fst (check_version_spec r (str "2.1.0") (compat_spec "2.0.0")) = false /\
  fst (check_version_spec r (str "3.0.0") (compat_spec "2.0.0")) = false /\
  fst (check_version_spec r (str "1.9.0") (compat_spec "2.0.0")) = false.
Proof.
  intros Hc.
  rewrite !(check_version_spec_cache_irrelevant r _ _ Hc).
  vm_compute. repeat split.
Qed.

Lemma compatible_operator_vectors_witness :
  version_cache_consistent (with_environment linux_env) /\
  fst (check_version_spec (with_environment linux_env) (str "2.1.0") (compat_spec "2.0.0")) = false.
Proof.
  assert (Hc : version_cache_consistent (with_environment linux_env)).
  { intros k p Hk. simpl in Hk. rewrite lookup_empty in Hk. discriminate. }
  split; [exact Hc | apply (compatible_operator_vectors _ Hc)].
Defined.

End version_check.

Section clear_cache_effect.
Import resolver.

Definition constraint_a : requirement.Requirement :=
  requirement.mkRequirement (str "a") [requirement.mkVersionSpec requirement.VersionOp.Lt (str "2")] [] None.

(** A resolver after one version check and one [set_constraints] call. *)
Definition used_resolver : Resolver :=
  set_constraints
    (snd (check_version_spec (with_environment linux_env) (str "1.0") (compat_spec "1.0")))
    [constraint_a].

(** C5 (counterexample): after [clear_cache] the version-parse cache and
    the constraint set of a used resolver are still non-empty. *)
Lemma clear_cache_keeps_state_counterexample :
  ~ (version_cache (clear_cache used_resolver) = ∅ /\
     constraints (clear_cache used_resolver) = ∅).
Proof.
  intros [Hv _].
  assert (Hl : version_cache (clear_cache used_resolver) !! str "1.0" = Some [1; 0])
    by reflexivity.
  rewrite Hv, lookup_empty in Hl. discriminate.
Qed.

(** C5 (amended): [clear_cache] empties the package cache and the visited
    set and leaves the version-parse cache, the constraint set and the
    environment as they were. *)
Theorem clear_cache_effect (r : Resolver) :
  cache (clear_cache r) = ∅ /\ visited (clear_cache r) = ∅ /\
  version_cache (clear_cache r) = version_cache r /\
  constraints (clear_cache r) = constraints r /\
  environment (clear_cache r) = environment r.
Proof. repeat split. Qed.

End clear_cache_effect.

Section select_latest.
Import package candidate_selector.

Definition str_le (a b : rstring) : Prop := str_cmp a b <> Gt.

Lemma str_cmp_opp (a b : rstring) : str_cmp b a = CompOpp (str_cmp a b).
Proof.
  revert b; induction a as [|x a IH]; intros [|y b]; simpl; try reflexivity.
  rewrite (Z.compare_antisym x y).
  destruct (Z.compare x y); simpl; auto.
Qed.

Lemma str_cmp_eq (a b : rstring) : str_cmp a b = Eq -> a = b.
Proof.
  revert b; induction a as [|x a IH]; intros [|y b]; simpl; try discriminate; auto.
  destruct (Z.compare x y) eqn:E; try discriminate.
  apply Z.compare_eq in E. intros H. subst. f_equal. auto.
Qed.

Lemma str_cmp_lt_trans (a b c : rstring) :
  str_cmp a b = Lt -> str_cmp b c = Lt -> str_cmp a c = Lt.
Proof.
  revert b c; induction a as [|x a IH]; intros [|y b] [|z c]; simpl;
    try discriminate; auto.
  destruct (Z.compare x y) eqn:E1; destruct (Z.compare y z) eqn:E2;
    try discriminate; intros H1 H2.
  - apply Z.compare_eq in E1, E2; subst. rewrite Z.compare_refl. eauto.
  - apply Z.compare_eq in E1; subst. rewrite E2. reflexivity.
  - apply Z.compare_eq in E2; subst. rewrite E1. reflexivity.
  - rewrite Z.compare_lt_iff in E1, E2.
    assert (E : Z.compare x z = Lt) by (apply Z.compare_lt_iff; lia).
    rewrite E. reflexivity.
Qed.

Lemma str_le_trans (a b c : rstring) : str_le a b -> str_le b c -> str_le a c.
Proof.
  unfold str_le. intros H1 H2.
  destruct (str_cmp a b) eqn:E1; [apply str_cmp_eq in E1; subst; exact H2| |congruence].
  destruct (str_cmp b c) eqn:E2; [apply str_cmp_eq in E2; subst; rewrite E1; discriminate| |congruence].
  rewrite (str_cmp_lt_trans a b c E1 E2). discriminate.
Qed.

Lemma str_le_refl (a : rstring) : str_le a a.
Proof.
  unfold str_le. induction a as [|x a IH]; simpl; [discriminate|].
  rewrite Z.compare_refl. exact IH.
Qed.

Lemma max_by_version_spec (best : Candidate) (rest : list Candidate) :
  In (max_by_version best rest) (best :: rest) /\
  forall c, In c (best :: rest) ->
    str_le (version (package c)) (version (package (max_by_version best rest))).
Proof.
  revert best; induction rest as [|c t IH]; intros best; simpl.
  - split; [auto|]. intros c [<-|[]]. apply str_le_refl.
  - destruct (str_cmp (version (package best)) (version (package c))) eqn:E.
    + destruct (IH c) as [Hin Hle]. split; [simpl in Hin; tauto|].
      intros d [<-|[<-|Hd]]; [|apply Hle; simpl; auto|apply Hle; simpl; auto].
      eapply str_le_trans; [|apply Hle; simpl; auto]. unfold str_le. rewrite E. discriminate.
    + destruct (IH c) as [Hin Hle]. split; [simpl in Hin; tauto|].
      intros d [<-|[<-|Hd]]; [|apply Hle; simpl; auto|apply Hle; simpl; auto].
      eapply str_le_trans; [|apply Hle; simpl; auto]. unfold str_le. rewrite E. discriminate.
    + destruct (IH best) as [Hin Hle]. split; [simpl in Hin; simpl; tauto|].
      intros d [<-|[<-|Hd]]; [apply Hle; simpl; auto| |apply Hle; simpl; auto].
      eapply str_le_trans; [|apply (Hle best); simpl; auto].
      unfold str_le. rewrite str_cmp_opp, E. discriminate.
Qed.

Definition candidate_v (v : String.string) : Candidate :=
  mkCandidate (package.new (str "pkg") (str v)) false false None.

Definition latest_selector : CandidateSelector := mkCandidateSelector ∅ PreferLatest.

(** C4 (code bug): among versions 9.0 and 10.0, PreferLatest picks 9.0,
    although 10.0 is greater in the ordinal dotted-numeric comparison of
    §4.1 (the one [check_version_spec] uses): [max_by] compares the
    version strings with [String::cmp]. *)
Lemma prefer_latest_ordinal_counterexample :
  select_best latest_selector [candidate_v "9.0"; candidate_v "10.0"] = Some (candidate_v "9.0") /\
  cmp_parts (parse_version (str "9.0")) (parse_version (str "10.0")) = Lt.
Proof. split; vm_compute; reflexivity. Qed.

(** X18: For every non-empty candidate list, select_best under PreferLatest returns one of the candidates, and its version string is maximal among the candidates' in Rust's lexicographic string order (String::cmp). *)
Theorem prefer_latest_lexicographic_max (sel : CandidateSelector) (cands : list Candidate) :
  strategy sel = PreferLatest -> cands <> [] ->
  exists c, select_best sel cands = Some c /\ In c cands /\
    forall c', In c' cands -> str_le (version (package c')) (version (package c)).
Proof.
  intros Hs Hne. destruct cands as [|c0 rest]; [congruence|].
  unfold select_best. rewrite Hs.
  destruct (max_by_version_spec c0 rest) as [Hin Hle].
  eexists; split; [reflexivity|]. split; assumption.
Qed.

Lemma prefer_latest_lexicographic_max_witness :
  exists c, select_best latest_selector [candidate_v "9.0"; candidate_v "10.0"] = Some c /\
    In c [candidate_v "9.0"; candidate_v "10.0"] /\
    forall c', In c' [candidate_v "9.0"; candidate_v "10.0"] ->
      str_le (version (package c')) (version (package c)).
Proof.
  apply (prefer_latest_lexicographic_max latest_selector); [reflexivity | discriminate].
Defined.

End select_latest.

Section lockfile_roundtrip.
Import package lockfile.

(** [save]/[load] go through serde_json; the derived [Serialize] and
    [Deserialize] of [LockFile] round-trip. *)
Variable Json : Type.
Variable to_json : LockFile -> Json.
Variable from_json : Json -> option LockFile.
Hypothesis serde_roundtrip : forall lf, from_json (to_json lf) = Some lf.

Lemma from_packages_nonempty (pkgs : list Package) (pv ga : rstring) :
  pkgs <> [] -> size (packages (from_packages pkgs pv ga)) <> 0%nat.
Proof.
  intros Hne. unfold from_packages. simpl.
  assert (Hgen : forall (l : list Package) (m : gmap rstring locked.LockedPackage),
    size m <> 0%nat \/ l <> [] ->
    size (fold_left (fun m (pkg : Package) =>
      <[package.name pkg ++ str "-"%string ++ package.version pkg :=
          locked.mkLockedPackage (package.name pkg) (package.version pkg) (package.summary pkg)
                          (package.requires_dist pkg) None None]> m) l m) <> 0%nat).
  { induction l as [|p l IH]; intros m Hm; simpl.
    - destruct Hm as [Hm|Hm]; [exact Hm|congruence].
    - apply IH. left. intros Hs. apply map_size_empty_inv in Hs.
      revert Hs. apply insert_non_empty. }
  apply Hgen. right. exact Hne.
Qed.

Lemma validate_err_iff (lf : LockFile) :
  (exists e, validate lf = Err e) <->
  version lf <> str "1.0"%string \/ packages lf = ∅.
Proof.
  unfold validate, rstring_eqb.
  destruct (decide (version lf = str "1.0"%string)) as [Hv|Hv]; simpl.
  - destruct (Nat.eqb (size (packages lf)) 0) eqn:Hs.
    + apply Nat.eqb_eq in Hs. apply map_size_empty_inv in Hs.
      split; [intros _; right; exact Hs|intros _; eexists; reflexivity].
    + apply Nat.eqb_neq in Hs. split; [intros [e He]; discriminate|].
      intros [H|H]; [exfalso; apply H; exact Hv|]. rewrite H, map_size_empty in Hs. congruence.
  - split; [intros _; left; exact Hv|intros _; eexists; reflexivity].
Qed.

(** C8: a lock file built from a non-empty list has version "1.0" and a
    non-empty package map, so it validates after a save/load round trip;
    [validate] fails exactly when the version is not "1.0" or the map is
    empty. *)
Theorem lockfile_roundtrip_validates (pkgs : list Package) (generated_at : rstring) :
  pkgs <> [] ->
  let lf := from_packages pkgs (str "3.11"%string) generated_at in
  version lf = str "1.0"%string /\ packages lf <> ∅ /\
  (exists lf', from_json (to_json lf) = Some lf' /\ validate lf' = Ok tt) /\
  (forall l : LockFile, (exists e, validate l = Err e) <->
     version l <> str "1.0"%string \/ packages l = ∅).
Proof.
  intros Hne lf.
  pose proof (from_packages_nonempty pkgs (str "3.11"%string) generated_at Hne) as Hs.
  fold lf in Hs.
  assert (Hp : packages lf <> ∅) by (intros E; rewrite E, map_size_empty in Hs; congruence).
  assert (Hv : version lf = str "1.0"%string) by reflexivity.
  split; [exact Hv|]. split; [exact Hp|]. split.
  - exists lf. split; [apply serde_roundtrip|].
    destruct (validate lf) as [[]|e] eqn:E; [reflexivity|].
    exfalso. assert (Hex : exists e, validate lf = Err e) by eauto.
    apply validate_err_iff in Hex. destruct Hex as [H|H]; contradiction.
  - apply validate_err_iff.
Qed.

End lockfile_roundtrip.

Definition requests_pkg : package.Package :=
  package.mkPackage (str "requests") (str "2.28.0") None None None None None
    [str "urllib3>=1.21"] [].

Lemma lockfile_roundtrip_validates_witness :
  let lf := lockfile.from_packages [requests_pkg] (str "3.11") (str "2026-10-15T00:00:00+00:00") in
  lockfile.version lf = str "1.0" /\ lockfile.packages lf <> ∅ /\
  (exists lf', Some lf = Some lf' /\ lockfile.validate lf' = Ok tt) /\
  (forall l : lockfile.LockFile, (exists e, lockfile.validate l = Err e) <->
     lockfile.version l <> str "1.0" \/ lockfile.packages l = ∅).
Proof.
  exact (lockfile_roundtrip_validates lockfile.LockFile (fun lf => lf) Some
           (fun _ => eq_refl) [requests_pkg] (str "2026-10-15T00:00:00+00:00")
           ltac:(discriminate)).
Defined.

Section cache_stats.
Import dependency_cache.
Context `{UnicodeTables}.

(** A sequence of calls on one [DependencyCache]. *)
Inductive CacheOp :=
| OpGet (package_name version : rstring)
| OpSet (package_name version : rstring) (deps : list requirement.Requirement)
        (ex : list rstring).

Fixpoint run_cache (dc : DependencyCache) (ops : list CacheOp) : DependencyCache :=
  match ops with
  | [] => dc
  | OpGet n v :: rest => run_cache (snd (get dc n v)) rest
  | OpSet n v d e :: rest => run_cache (set dc n v d e) rest
  end.

Fixpoint get_calls (ops : list CacheOp) : nat :=
  match ops with
  | [] => 0%nat
  | OpGet _ _ :: rest => S (get_calls rest)
  | OpSet _ _ _ _ :: rest => get_calls rest
  end.

(** The keys written by the [set] calls. *)
Fixpoint set_keys (ops : list CacheOp) : gset rstring :=
  match ops with
  | [] => ∅
  | OpGet _ _ :: rest => set_keys rest
  | OpSet n v _ _ :: rest => {[cache_key n v]} ∪ set_keys rest
  end.

Lemma run_cache_app (dc : DependencyCache) (ops1 ops2 : list CacheOp) :
  run_cache dc (ops1 ++ ops2) = run_cache (run_cache dc ops1) ops2.
Proof.
  revert dc; induction ops1 as [|[n v|n v d e] ops1 IH]; intros dc; simpl; auto.
Qed.

Lemma run_cache_counters (ops : list CacheOp) (dc : DependencyCache) :
  0 <= hits dc -> 0 <= misses dc ->
  hits dc + misses dc + Z.of_nat (get_calls ops) < 2 ^ 32 ->
  hits (run_cache dc ops) + misses (run_cache dc ops) =
    hits dc + misses dc + Z.of_nat (get_calls ops) /\
  0 <= hits (run_cache dc ops) /\ 0 <= misses (run_cache dc ops).
Proof.
  revert dc; induction ops as [|[n v|n v d e] ops IH]; intros dc Hh Hm Hb; simpl in *.
  - lia.
  - unfold get, u32_add. rewrite Nat2Z.inj_succ in Hb |- *.
    destruct (cache dc !! cache_key n v); simpl.
    + rewrite Z.mod_small by lia.
      destruct (IH (mkDependencyCache (cache dc) (hits dc + 1) (misses dc)))
        as [E [P1 P2]]; simpl in *; repeat split; lia.
    + rewrite Z.mod_small by lia.
      destruct (IH (mkDependencyCache (cache dc) (hits dc) (misses dc + 1)))
        as [E [P1 P2]]; simpl in *; repeat split; lia.
  - unfold set. destruct (IH (set dc n v d e)) as [E [P1 P2]];
      unfold set in *; simpl in *; repeat split; lia.
Qed.

Lemma run_cache_dom (ops : list CacheOp) (dc : DependencyCache) :
  dom (cache (run_cache dc ops)) = dom (cache dc) ∪ set_keys ops.
Proof.
  revert dc; induction ops as [|[n v|n v d e] ops IH]; intros dc; simpl.
  - set_solver.
  - rewrite IH. unfold get. destruct (cache dc !! cache_key n v); simpl; set_solver.
  - rewrite IH. unfold set. simpl. rewrite dom_insert_L. set_solver.
Qed.

Lemma run_cache_missing_gets (n : nat) (k v : rstring) (dc : DependencyCache) :
  cache dc !! cache_key k v = None -> 0 <= misses dc < 2 ^ 32 ->
  run_cache dc (repeat (OpGet k v) n) =
    mkDependencyCache (cache dc) (hits dc) ((misses dc + Z.of_nat n) mod 2 ^ 32).
Proof.
  revert dc; induction n as [|n IH]; intros dc Hk Hm; simpl.
  - destruct dc as [c h m]. simpl in *. f_equal. rewrite Z.mod_small; lia.
  - unfold get at 1. rewrite Hk. simpl. rewrite IH; simpl; auto.
    + unfold u32_add. f_equal. rewrite Zplus_mod_idemp_l. f_equal. lia.
    + unfold u32_add. apply Z.mod_pos_bound. lia.
Qed.

Lemma stats_hit_rate (dc : DependencyCache) :
  hit_rate (stats dc) =
    (if (total (stats dc) =? 0)%Z then 0%Q
     else (inject_Z (stat_hits (stats dc)) / inject_Z (total (stats dc)) * 100)%Q).
Proof.
  unfold stats; simpl. set (t := u32_add (hits dc) (misses dc)).
  assert (Hn : 0 <= t) by (unfold t, u32_add; apply Z.mod_pos_bound; lia).
  destruct (Z.eqb_spec t 0) as [Hz|Hz]; [rewrite Hz; reflexivity|].
  replace (0 <? t) with true; [reflexivity|]. symmetry; apply Z.ltb_lt; lia.
Qed.

(** C9 (amended): on a fresh cache, while fewer than 2^32 [get] calls have
    been made, [stats()] has [total = hits + misses], [hit_rate =
    hits/total*100] (0 when [total = 0]) and [size] = the number of
    distinct keys stored; and miss, set, hit gives 1, 1, 2 and 50.0. *)
Theorem cache_stats_consistent (ops : list CacheOp) :
  Z.of_nat (get_calls ops) < 2 ^ 32 ->
  let s := stats (run_cache new ops) in
  total s = stat_hits s + stat_misses s /\
  hit_rate s = (if (total s =? 0)%Z then 0%Q
                else (inject_Z (stat_hits s) / inject_Z (total s) * 100)%Q) /\
  size s = stdpp.base.size (set_keys ops) /\
  forall n v,
    let s1 := stats (run_cache new [OpGet n v; OpSet n v [] []; OpGet n v]) in
    stat_hits s1 = 1 /\ stat_misses s1 = 1 /\ total s1 = 2 /\ (hit_rate s1 == 50)%Q.
Proof.
  intros Hb s.
  destruct (run_cache_counters ops new) as [E [P1 P2]]; simpl; try lia.
  simpl in E.
  assert (Ht : total s = stat_hits s + stat_misses s).
  { unfold s, stats, u32_add. simpl. rewrite Z.mod_small; lia. }
  split; [exact Ht|]. split; [apply stats_hit_rate|].
  split.
  { unfold s, stats. simpl. rewrite <- size_dom, run_cache_dom. simpl.
    rewrite dom_empty_L. f_equal. set_solver. }
  intros n v. unfold stats, get, set, new. simpl.
  rewrite lookup_empty. simpl. rewrite lookup_insert_eq. simpl.
  repeat split; vm_compute; reflexivity.
Qed.

End cache_stats.

Definition overflow_trace : list CacheOp :=
  [OpSet (str "pkg") (str "1.0") [] []; OpGet (str "pkg") (str "1.0")]
  ++ repeat (OpGet (str "other") (str "1.0")) (Z.to_nat (2 ^ 32 - 1)).

(** C9 (counterexample): one hit followed by 2^32 - 1 misses makes the
    [u32] sum [hits + misses] wrap, and [stats()] reports [total = 0]
    while [hits + misses = 2^32]. *)
Lemma cache_stats_overflow_counterexample :
  let s := dependency_cache.stats (run_cache dependency_cache.new overflow_trace) in
  dependency_cache.total s <> dependency_cache.stat_hits s + dependency_cache.stat_misses s.
Proof.
  intros s. unfold s, overflow_trace. rewrite run_cache_app.
  rewrite run_cache_missing_gets; [| vm_compute; reflexivity | vm_compute; split; [intros Hc; discriminate Hc | reflexivity]].
  rewrite Z2Nat.id by lia.
  vm_compute. discriminate.
Qed.

Lemma cache_stats_consistent_witness :
  Z.of_nat (get_calls [OpGet (str "pkg") (str "1.0")]) < 2 ^ 32 /\
  dependency_cache.total (dependency_cache.stats
    (run_cache dependency_cache.new [OpGet (str "pkg") (str "1.0")])) =
  dependency_cache.stat_hits (dependency_cache.stats
    (run_cache dependency_cache.new [OpGet (str "pkg") (str "1.0")])) +
  dependency_cache.stat_misses (dependency_cache.stats
    (run_cache dependency_cache.new [OpGet (str "pkg") (str "1.0")])).
Proof.
  assert (Hb : Z.of_nat (get_calls [OpGet (str "pkg") (str "1.0")]) < 2 ^ 32) by (simpl; lia).
  split; [exact Hb|]. apply (cache_stats_consistent _ Hb).
Defined.

Section dependency_expansion.
Import resolver.
Context `{UnicodeTables}.

(** Processing a fetch result never touches the visited set: only
    [take_batch] inserts into it. *)
Lemma satisfies_version_visited (r : Resolver) v specs :
  visited (snd (satisfies_version r v specs)) = visited r.
Proof.
  revert r; induction specs as [|sp specs IH]; intros r; simpl; [reflexivity|].
  unfold check_version_spec, parse_version_cached.
  destruct (version_cache r !! v); simpl;
    [destruct (version_cache r !! requirement.version sp)
    |destruct (<[v:=parse_version v]> (version_cache r) !! requirement.version sp)];
    simpl; match goal with |- context [if ?b then _ else _] => destruct b end;
    simpl; try rewrite IH; reflexivity.
Qed.

Lemma satisfies_constraints_visited (r : Resolver) v cs :
  visited (snd (satisfies_constraints r v cs)) = visited r.
Proof.
  revert r; induction cs as [|c cs IH]; intros r; simpl; [reflexivity|].
  pose proof (satisfies_version_visited r v (requirement.specs c)) as Hv.
  destruct (satisfies_version r v (requirement.specs c)) as [b r1]; simpl in *.
  destruct b; simpl; [rewrite IH|]; exact Hv.
Qed.

Lemma process_result_visited (st st' : LoopState) (res : FetchResult) :
  process_result st res = Normal st' -> visited (rv st') = visited (rv st).
Proof.
  destruct res as [[[req_name fetched] specs] creqs].
  unfold process_result. destruct fetched as [pkg| |];
    [|intros E; inversion E; reflexivity|intros E; inversion E; reflexivity].
  pose proof (satisfies_version_visited (rv st) (package.version pkg) specs) as Hv.
  destruct (satisfies_version (rv st) (package.version pkg) specs) as [ok r1]; simpl in Hv.
  destruct ok; simpl; [|intros E; inversion E; subst; simpl; exact Hv].
  assert (Hc : visited (snd (match creqs with
                 | Some cs => satisfies_constraints r1 (package.version pkg) cs
                 | None => (true, r1) end)) = visited r1)
    by (destruct creqs; [apply satisfies_constraints_visited|reflexivity]).
  destruct (match creqs with
            | Some cs => satisfies_constraints r1 (package.version pkg) cs
            | None => (true, r1) end) as [okc r2]; simpl in Hc.
  destruct okc; simpl; [|intros E; inversion E; subst; simpl; congruence].
  destruct (expand_deps _ _ _ _); simpl; intros E; inversion E; subst; simpl.
  congruence.
Qed.

(** C6: a dependency whose marker parses and evaluates to [false] is
    skipped: the expansion of the remaining entries proceeds on the same
    queue, and no result processing inserts into the visited set; for
    instance [pkgX; sys_platform == 'win32'] is not enqueued on Linux. *)
Theorem false_marker_dep_not_enqueued (env : marker.Environment) (vis : gset rstring)
    (d : rstring) (rest : list rstring) (q : list requirement.Requirement)
    (req : requirement.Requirement) (ms : rstring) (m : marker.Marker) :
  requirement.from_str d = Normal (Ok req) ->
  requirement.marker req = Some ms ->
  marker.parse ms = Ok m ->
  marker.evaluate m env = Normal false ->
  expand_deps env vis (d :: rest) q = expand_deps env vis rest q /\
  (forall st st' res, process_result st res = Normal st' -> visited (rv st') = visited (rv st)) /\
  expand_deps linux_env vis [str "pkgX; sys_platform == 'win32'"] q = Normal q.
Proof.
  intros Hd Hm Hp He. split; [|split].
  - simpl. rewrite Hd. simpl. rewrite Hm, Hp, He. reflexivity.
  - intros st st' res. apply process_result_visited.
  - vm_compute. reflexivity.
Qed.

(** C10: a [requires_dist] entry that [from_str] rejects with an error is
    skipped silently: expansion continues with the remaining entries on
    the same queue, and no result processing inserts into the visited set. *)
Theorem unparsable_dep_skipped (env : marker.Environment) (vis : gset rstring)
    (d : rstring) (rest : list rstring) (q : list requirement.Requirement) (e : rstring) :
  requirement.from_str d = Normal (Err e) ->
  expand_deps env vis (d :: rest) q = expand_deps env vis rest q /\
  (forall st st' res, process_result st res = Normal st' -> visited (rv st') = visited (rv st)).
Proof.
  intros Hd. split.
  - simpl. rewrite Hd. reflexivity.
  - intros st st' res. apply process_result_visited.
Qed.

End dependency_expansion.

Lemma false_marker_dep_not_enqueued_witness :
  requirement.from_str pkgX_dep = Normal (Ok pkgX_req) /\
  marker.parse pkgX_marker = Ok (marker.mkMarker pkgX_marker) /\
  marker.evaluate (marker.mkMarker pkgX_marker) linux_env = Normal false /\
  resolver.expand_deps linux_env ∅ [pkgX_dep; str "b"%string] [] =
    resolver.expand_deps linux_env ∅ [str "b"%string] [].
Proof.
  assert (H1 : requirement.from_str pkgX_dep = Normal (Ok pkgX_req)) by (vm_compute; reflexivity).
  assert (H2 : marker.parse pkgX_marker = Ok (marker.mkMarker pkgX_marker)) by (vm_compute; reflexivity).
  assert (H3 : marker.evaluate (marker.mkMarker pkgX_marker) linux_env = Normal false)
    by (vm_compute; reflexivity).
  split; [exact H1|]. split; [exact H2|]. split; [exact H3|].
  exact (proj1 (false_marker_dep_not_enqueued linux_env ∅ pkgX_dep [str "b"%string] []
                  pkgX_req pkgX_marker (marker.mkMarker pkgX_marker) H1 eq_refl H2 H3)).
Defined.

Lemma unparsable_dep_skipped_witness :
  requirement.from_str (str "a>="%string) = Normal (Err (str "Empty version in spec"%string)) /\
  resolver.expand_deps linux_env ∅ [str "a>="%string; str "b"%string] [] =
    resolver.expand_deps linux_env ∅ [str "b"%string] [].
Proof.
  assert (H1 : requirement.from_str (str "a>="%string) =
               Normal (Err (str "Empty version in spec"%string))) by (vm_compute; reflexivity).
  split; [exact H1|].
  exact (proj1 (unparsable_dep_skipped linux_env ∅ (str "a>="%string) [str "b"%string] []
                  (str "Empty version in spec"%string) H1)).
Defined.

Section resolve_loop.
Import resolver.
Context `{UnicodeTables}.

Ltac destruct_pbind :=
  match goal with
  | |- context [pbind ?m _] => let E := fresh "E" in destruct m eqn:E
  end.

(** [expand_deps] only appends, and only parsed dependencies whose name
    is not visited. *)
Lemma expand_deps_appends (env : marker.Environment) (vis : gset rstring)
    (deps : list rstring) (q q' : list requirement.Requirement) :
  expand_deps env vis deps q = Normal q' ->
  exists new, q' = q ++ new /\
    forall req, req ∈ new -> (requirement.name req ∉ vis) /\
      (exists d, d ∈ deps /\ requirement.from_str d = Normal (Ok req)).
Proof.
  revert q q'; induction deps as [|d deps IH]; intros q q' E; simpl in E.
  - inversion E; subst. exists []. rewrite app_nil_r. split; [reflexivity|set_solver].
  - destruct (requirement.from_str d) as [[req|e]|] eqn:Ed; simpl in E; [|
      destruct (IH _ _ E) as (new & -> & Hn); exists new; split; [reflexivity|];
      intros r Hr; destruct (Hn r Hr) as (Hv & d' & Hd' & Hp); split; [exact Hv|];
      exists d'; split; [set_solver|exact Hp]
    | discriminate].
    revert E. destruct_pbind; simpl; [|discriminate]. intros Ex.
    assert (Hrest : forall q0 q1, expand_deps env vis deps q0 = Normal q1 ->
              exists new, q1 = q0 ++ new /\ forall r, r ∈ new ->
                (requirement.name r ∉ vis) /\ (exists d', d' ∈ d :: deps /\
                  requirement.from_str d' = Normal (Ok r))).
    { intros q0 q1 E1. destruct (IH _ _ E1) as (new & -> & Hn). exists new.
      split; [reflexivity|]. intros r Hr. destruct (Hn r Hr) as (Hv & d' & Hd' & Hp).
      split; [exact Hv|]. exists d'. split; [set_solver|exact Hp]. }
    destruct a; [|exact (Hrest _ _ Ex)].
    case_bool_decide as Hin; [exact (Hrest _ _ Ex)|].
    destruct (Hrest _ _ Ex) as (new & -> & Hn). exists (req :: new).
    rewrite <- app_assoc. split; [reflexivity|]. intros r Hr.
    apply elem_of_cons in Hr as [->|Hr]; [|exact (Hn r Hr)].
    split; [exact Hin|]. exists d. split; [set_solver|exact Ed].
Qed.

(** What processing one fetch result can change: the queue grows by
    dependencies of the fetched package; the fetch log and the visited set
    are left alone. *)
Lemma process_result_frame (st st' : LoopState) (res : FetchResult) :
  process_result st res = Normal st' ->
  fetch_log st' = fetch_log st /\ visited (rv st') = visited (rv st) /\
  forall req, req ∈ queue st' -> req ∈ queue st \/
    exists p d, snd (fst (fst res)) = FetchOk p /\ d ∈ package.requires_dist p /\
      requirement.from_str d = Normal (Ok req).
Proof.
  intros E. split; [|split]; [| exact (process_result_visited st st' res E) |].
  - revert E. destruct res as [[[req_name fetched] specs] creqs].
    unfold process_result. destruct fetched as [pkg| |]; [|intros E; inversion E; reflexivity
      |intros E; inversion E; reflexivity].
    destruct (satisfies_version (rv st) (package.version pkg) specs) as [ok r1].
    destruct ok; simpl; [|intros E; inversion E; reflexivity].
    destruct (match creqs with
              | Some cs => satisfies_constraints r1 (package.version pkg) cs
              | None => (true, r1) end) as [okc r2].
    destruct okc; simpl; [|intros E; inversion E; reflexivity].
    destruct (expand_deps _ _ _ _); simpl; intros E; inversion E; reflexivity.
  - revert E. destruct res as [[[req_name fetched] specs] creqs].
    unfold process_result. destruct fetched as [pkg| |];
      [|intros E; inversion E; subst; auto|intros E; inversion E; subst; auto].
    destruct (satisfies_version (rv st) (package.version pkg) specs) as [ok r1].
    destruct ok; simpl; [|intros E; inversion E; subst; auto].
    destruct (match creqs with
              | Some cs => satisfies_constraints r1 (package.version pkg) cs
              | None => (true, r1) end) as [okc r2].
    destruct okc; simpl; [|intros E; inversion E; subst; auto].
    destruct (expand_deps _ _ _ _) as [q|] eqn:Ex; simpl; intros E; inversion E; subst.
    simpl. apply expand_deps_appends in Ex as (new & -> & Hn).
    intros req Hr. apply elem_of_app in Hr as [Hr|Hr]; [left; exact Hr|right].
    destruct (Hn req Hr) as (_ & d & Hd & Hp). exists pkg, d. auto.
Qed.

Lemma process_results_frame (P : requirement.Requirement -> Prop)
    (st st' : LoopState) (results : list FetchResult) :
  (forall req, req ∈ queue st -> P req) ->
  (forall res p d req, res ∈ results -> snd (fst (fst res)) = FetchOk p ->
     d ∈ package.requires_dist p -> requirement.from_str d = Normal (Ok req) -> P req) ->
  process_results st results = Normal st' ->
  fetch_log st' = fetch_log st /\ visited (rv st') = visited (rv st) /\
  forall req, req ∈ queue st' -> P req.
Proof.
  revert st; induction results as [|res results IH]; intros st Hq Hr E; simpl in E.
  - inversion E; subst. auto.
  - destruct (process_result st res) as [st1|] eqn:E1; simpl in E; [|discriminate].
    destruct (process_result_frame _ _ _ E1) as (L1 & V1 & Q1).
    destruct (IH st1) as (L2 & V2 & Q2); auto.
    + intros req Hreq. destruct (Q1 req Hreq) as [Hin|(p & d & Hf & Hd & Hp)]; [auto|].
      apply (Hr res p d req); auto. set_solver.
    + intros r p d req Hin. apply (Hr r p d req). set_solver.
    + split; [congruence|]. split; [congruence|exact Q2].
Qed.

Variable fetch : rstring -> Fetched.
Variable max_concurrent : nat.

Lemma take_batch_spec (vis : gset rstring) (q batch : list requirement.Requirement)
    vis' batch' q' :
  take_batch max_concurrent vis q batch = (vis', batch', q') ->
  exists new,
    batch' = batch ++ new /\
    vis' = list_to_set (map requirement.name new) ∪ vis /\
    NoDup (map requirement.name new) /\
    (forall x, x ∈ map requirement.name new -> x ∉ vis) /\
    (forall req, req ∈ new -> req ∈ q) /\
    (forall req, req ∈ q' -> req ∈ q).
Proof.
  revert vis batch; induction q as [|req q IH]; intros vis batch E; simpl in E.
  - inversion E; subst. exists []. rewrite app_nil_r. simpl.
    repeat split; [set_solver|constructor|set_solver|set_solver|set_solver].
  - destruct (Nat.ltb (length batch) max_concurrent).
    + case_bool_decide as Hin.
      * destruct (IH _ _ E) as (new & Hb & Hv & Hd & Hn & Hq & Hq').
        exists new. repeat split; auto; set_solver.
      * destruct (IH _ _ E) as (new & Hb & Hv & Hd & Hn & Hq & Hq').
        exists (req :: new). rewrite Hb, <- app_assoc. simpl.
        split; [reflexivity|]. split; [rewrite Hv; set_solver|]. split.
        { constructor; [|exact Hd]. intros Hx. apply (Hn _ Hx). set_solver. }
        split; [|split]; set_solver.
    + inversion E; subst. exists []. rewrite app_nil_r. simpl.
      repeat split; [set_solver|constructor|set_solver|set_solver|set_solver].
Qed.

(** A set of names closed under the dependencies that the metadata source
    reports for its members. *)
Definition deps_closed (N : gset rstring) : Prop :=
  forall n p d req, n ∈ N -> fetch n = FetchOk p -> d ∈ package.requires_dist p ->
    requirement.from_str d = Normal (Ok req) -> requirement.name req ∈ N.

Lemma iteration_spec (st : LoopState) (s : Step) :
  iteration fetch max_concurrent st = Normal s ->
  match s with
  | Done st' =>
      fetch_log st' = fetch_log st /\ visited (rv st') = visited (rv st) /\
      forall N, deps_closed N -> (forall req, req ∈ queue st -> requirement.name req ∈ N) ->
        forall req, req ∈ queue st' -> requirement.name req ∈ N
  | Continue st' =>
      exists new, new <> [] /\
      fetch_log st' = fetch_log st ++ map requirement.name new /\
      visited (rv st') = list_to_set (map requirement.name new) ∪ visited (rv st) /\
      NoDup (map requirement.name new) /\
      (forall x, x ∈ map requirement.name new -> x ∉ visited (rv st)) /\
      (forall req, req ∈ new -> req ∈ queue st) /\
      forall N, deps_closed N -> (forall req, req ∈ queue st -> requirement.name req ∈ N) ->
        forall req, req ∈ queue st' -> requirement.name req ∈ N
  end.
Proof.
  unfold iteration. destruct (queue st) as [|r0 q0] eqn:Hq.
  { intros E; inversion E; subst. split; [reflexivity|]. split; [reflexivity|].
    intros N _ HN req Hr. apply HN. rewrite <- Hq. exact Hr. }
  destruct (take_batch max_concurrent (visited (rv st)) (r0 :: q0) []) as [[vis batch] q] eqn:Ht.
  destruct (take_batch_spec _ _ _ _ _ _ Ht) as (new & Hb & Hv & Hd & Hn & Hnq & Hq').
  simpl in Hb; subst batch.
  destruct new as [|b new'] eqn:Hnew.
  { intros E; inversion E; subst. simpl. split; [reflexivity|]. split; [set_solver|].
    intros N _ HN req Hr. apply HN. auto. }
  rewrite <- Hnew. rewrite <- Hnew in Hv, Hd, Hn, Hnq.
  destruct (process_results _ _) as [st2|] eqn:Hp; simpl; [|discriminate].
  intros E; inversion E; subst s.
  exists new. split; [rewrite Hnew; discriminate|].
  destruct (process_results_frame (fun _ => True) _ _ _ (fun _ _ => I)
              (fun _ _ _ _ _ _ _ _ => I) Hp) as (L & V & _).
  simpl in L, V. split; [exact L|]. split; [rewrite V, Hv; reflexivity|].
  split; [exact Hd|]. split; [exact Hn|]. split; [exact Hnq|].
  intros N HN Hqn.
  assert (HnN : forall req, req ∈ new -> requirement.name req ∈ N)
    by (intros req Hr; apply Hqn; auto).
  refine (proj2 (proj2 (process_results_frame (fun req => requirement.name req ∈ N)
            _ _ _ _ _ Hp))).
  - simpl. intros req Hr. apply Hqn. auto.
  - intros res p d req Hres Hf Hdp Hpd.
    apply list_elem_of_In, in_map_iff in Hres as (b' & <- & Hb'). simpl in Hf.
    apply (HN (requirement.name b') p d req); auto.
    apply HnN, list_elem_of_In, Hb'.
Qed.

(** The loop invariant relative to the resolver [r0] the call started
    from: each name is fetched once, never one visited before the call, and
    the visited set is the initial one plus the fetched names. *)
Definition fetched_once (r0 : Resolver) (st : LoopState) : Prop :=
  NoDup (fetch_log st) /\ (forall n, n ∈ fetch_log st -> n ∉ visited r0) /\
  visited (rv st) = visited r0 ∪ list_to_set (fetch_log st).

Lemma run_fetched_once (r0 : Resolver) (fuel : nat) (st st' : LoopState) :
  fetched_once r0 st -> run fetch max_concurrent fuel st = Some (Normal st') ->
  fetched_once r0 st' /\ exists ext, fetch_log st' = fetch_log st ++ ext.
Proof.
  revert st; induction fuel as [|fuel IH]; intros st Hinv E; simpl in E; [discriminate|].
  destruct (iteration fetch max_concurrent st) as [[st1|st1]|] eqn:Hi; [| |discriminate].
  - inversion E; subst st1. apply iteration_spec in Hi as (L & V & _).
    destruct Hinv as (Hd & Hn & Hv).
    split; [split; [|split]; rewrite ?L, ?V; auto|exists []; rewrite L, app_nil_r; reflexivity].
  - apply iteration_spec in Hi as (new & _ & L & V & Hd & Hn & _).
    destruct Hinv as (Hd0 & Hn0 & Hv0).
    assert (Hinv1 : fetched_once r0 st1).
    { unfold fetched_once. rewrite L, V, Hv0. split; [|split].
      - apply NoDup_app. split; [exact Hd0|]. split; [|exact Hd].
        intros x Hx1 Hx2. apply (Hn x Hx2). rewrite Hv0. set_solver.
      - intros x Hx. apply elem_of_app in Hx as [Hx|Hx]; [auto|].
        intros Hx'. apply (Hn x Hx). rewrite Hv0. set_solver.
      - rewrite list_to_set_app_L. set_solver. }
    destruct (IH st1 Hinv1 E) as (Hinv' & ext & Hext).
    split; [exact Hinv'|]. exists (map requirement.name new ++ ext).
    rewrite Hext, L, app_assoc. reflexivity.
Qed.

Lemma run_terminates (N : gset rstring) (fuel : nat) (st : LoopState) :
  deps_closed N -> (forall req, req ∈ queue st -> requirement.name req ∈ N) ->
  (size (N ∖ visited (rv st)) < fuel)%nat ->
  exists res, run fetch max_concurrent fuel st = Some res.
Proof.
  intros HN. revert st; induction fuel as [|fuel IH]; intros st Hq Hs; [lia|].
  simpl. destruct (iteration fetch max_concurrent st) as [[st1|st1]|] eqn:Hi; eauto.
  apply iteration_spec in Hi as (new & Hne & _ & V & _ & Hn & Hnq & Hq1).
  apply IH; [exact (Hq1 N HN Hq)|].
  destruct new as [|b new']; [congruence|].
  assert (Hlt : N ∖ visited (rv st1) ⊂ N ∖ visited (rv st)).
  { rewrite V. assert (HbN : requirement.name b ∈ N) by (apply Hq, Hnq; set_solver).
    assert (Hbv : requirement.name b ∉ visited (rv st)) by (apply Hn; set_solver).
    set_solver. }
  apply subset_size in Hlt. lia.
Qed.

Lemma run_S_unfold (fuel : nat) (st : LoopState) :
  run fetch max_concurrent (S fuel) st =
    match iteration fetch max_concurrent st with
    | Panic => Some Panic
    | Normal (Done st') => Some (Normal st')
    | Normal (Continue st') => run fetch max_concurrent fuel st'
    end.
Proof. reflexivity. Qed.

End resolve_loop.

Section resolve_visited_once.
Import resolver.
Context `{UnicodeTables}.

(** C1: in one [resolve] call ([max_concurrent] = 10) every name is
    fetched at most once and never one already visited, the visited set
    grows by exactly the fetched names, a dependency is enqueued only when
    its name is not visited, the loop terminates once the names it can
    reach form a finite set [N] (within [|N| + 1] rounds), and resolving
    [a, a>=1.0] on a fresh resolver fetches [a] exactly once. *)
Theorem resolve_fetches_each_name_once (fetch : rstring -> Fetched) (r : Resolver)
    (reqs : list requirement.Requirement) :
  (forall fuel st', run fetch 10%nat fuel (start r reqs) = Some (Normal st') ->
     NoDup (fetch_log st') /\
     (forall n, n ∈ fetch_log st' -> n ∉ visited r) /\
     visited (rv st') = visited r ∪ list_to_set (fetch_log st')) /\
  (forall env vis deps q q', expand_deps env vis deps q = Normal q' ->
     exists new, q' = q ++ new /\
       forall req, req ∈ new -> requirement.name req ∉ vis) /\
  (forall N : gset rstring, deps_closed fetch N ->
     (forall req, req ∈ reqs -> requirement.name req ∈ N) ->
     exists res, run fetch 10%nat (S (size N)) (start r reqs) = Some res) /\
  (forall fuel st',
     run fetch 10%nat fuel (start (new marker.Linux marker.X86_64) [req_a; req_a_ge]) =
       Some (Normal st') ->
     exists ext, fetch_log st' = str "a"%string :: ext /\ str "a"%string ∉ ext).
Proof.
  assert (Hinit : forall r0 reqs0, fetched_once r0 (start r0 reqs0)).
  { intros r0 reqs0. unfold fetched_once. simpl.
    split; [constructor|]. split; [set_solver|]. set_solver. }
  split; [|split; [|split]].
  - intros fuel st' E. exact (proj1 (run_fetched_once fetch 10%nat r fuel _ _ (Hinit r reqs) E)).
  - intros env vis deps q q' E. destruct (expand_deps_appends env vis deps q q' E) as (new & -> & Hn).
    exists new. split; [reflexivity|]. intros req Hr. exact (proj1 (Hn req Hr)).
  - intros N HN Hreqs. apply (run_terminates fetch 10%nat N); [exact HN|exact Hreqs|].
    simpl. pose proof (subseteq_size (N ∖ visited r) N ltac:(set_solver)). lia.
  - intros fuel st' E. destruct fuel as [|fuel]; [discriminate|].
    set (r0 := new marker.Linux marker.X86_64) in *.
    assert (Ht : take_batch 10%nat (visited r0) [req_a; req_a_ge] [] =
                 ({[str "a"%string]}, [req_a], [])) by (vm_compute; reflexivity).
    rewrite run_S_unfold in E.
    destruct (iteration fetch 10%nat (start r0 [req_a; req_a_ge])) as [[st1|st1]|] eqn:Hi;
      [| |discriminate];
      unfold iteration in Hi; cbn [queue start rv] in Hi; rewrite Ht in Hi; cbn -[process_results] in Hi;
      destruct (process_results _ _) as [st2|] eqn:Hp; cbn in Hi; try discriminate.
    inversion Hi; subst st2.
    destruct (process_results_frame (fun _ => True) _ _ _ (fun _ _ => I)
                (fun _ _ _ _ _ _ _ _ => I) Hp) as (L & V & _).
    cbn in L, V.
    assert (Hinv1 : fetched_once r0 st1).
    { unfold fetched_once. rewrite L, V. cbn.
      split; [repeat constructor; set_solver|]. split; [set_solver|].
      unfold r0. cbn. set_solver. }
    destruct (run_fetched_once fetch 10%nat r0 fuel st1 st' Hinv1 E) as ((Hnd & _ & _) & ext & Hext).
    rewrite L in Hext. cbn in Hext. exists ext. split; [exact Hext|].
    rewrite Hext in Hnd. apply NoDup_cons in Hnd as [Hnd _]. exact Hnd.
Qed.

End resolve_visited_once.

Section requirement_roundtrip.
Import requirement.
Context `{UnicodeTables}.

Lemma utf8_len_pos (c : Z) : (1 <= utf8_len c)%nat.
Proof. unfold utf8_len. repeat destruct (_ <? _); lia. Qed.

Lemma byte_len_app (a b : rstring) : byte_len (a ++ b) = (byte_len a + byte_len b)%nat.
Proof. induction a as [|c a IH]; simpl; [reflexivity|]. rewrite IH. lia. Qed.

Lemma slice_from_app (a b : rstring) : slice_from (a ++ b) (byte_len a) = Normal b.
Proof.
  induction a as [|c a IH]; [destruct b; reflexivity|].
  simpl. pose proof (utf8_len_pos c).
  destruct (utf8_len c + byte_len a)%nat as [|n] eqn:En; [lia|].
  rewrite <- En. replace (Nat.ltb (utf8_len c + byte_len a) (utf8_len c)) with false
    by (symmetry; apply Nat.ltb_ge; lia).
  replace (utf8_len c + byte_len a - utf8_len c)%nat with (byte_len a) by lia.
  exact IH.
Qed.

Lemma slice_to_app (a b : rstring) : slice_to (a ++ b) (byte_len a) = Normal a.
Proof.
  induction a as [|c a IH]; [destruct b; reflexivity|].
  simpl. pose proof (utf8_len_pos c).
  destruct (utf8_len c + byte_len a)%nat as [|n] eqn:En; [lia|].
  rewrite <- En. replace (Nat.ltb (utf8_len c + byte_len a) (utf8_len c)) with false
    by (symmetry; apply Nat.ltb_ge; lia).
  replace (utf8_len c + byte_len a - utf8_len c)%nat with (byte_len a) by lia.
  rewrite IH. reflexivity.
Qed.

Lemma ascii_app (a b : rstring) : is_ascii (a ++ b) = is_ascii a && is_ascii b.
Proof. apply forallb_app. Qed.

Lemma ascii_byte_len (a : rstring) : is_ascii a = true -> byte_len a = length a.
Proof.
  induction a as [|c a IH]; simpl; [reflexivity|].
  intros Ha. apply andb_true_iff in Ha as [Hc Ha].
  apply andb_true_iff in Hc as [_ Hc]. apply Z.ltb_lt in Hc.
  unfold utf8_len. destruct (Z.ltb_spec c 128); [|lia]. rewrite IH; auto.
Qed.

Lemma ascii_as_bytes (a : rstring) : is_ascii a = true -> as_bytes a = a.
Proof.
  induction a as [|c a IH]; simpl; [reflexivity|].
  intros Ha. apply andb_true_iff in Ha as [Hc Ha].
  apply andb_true_iff in Hc as [_ Hc]. apply Z.ltb_lt in Hc.
  unfold as_bytes in *. simpl. unfold utf8_encode at 1.
  destruct (Z.ltb_spec c 128); [|lia]. simpl. rewrite IH; auto.
Qed.

Lemma as_bytes_app (a b : rstring) : as_bytes (a ++ b) = as_bytes a ++ as_bytes b.
Proof. unfold as_bytes. apply flat_map_app. Qed.

Lemma find_char_app (p : Z -> bool) (a b : rstring) (x : Z) :
  forallb (fun c => negb (p c)) a = true -> p x = true ->
  find_char p (a ++ x :: b) = Some (byte_len a).
Proof.
  intros Ha Hx. induction a as [|c a IH]; simpl in *.
  - rewrite Hx. reflexivity.
  - apply andb_true_iff in Ha as [Hc Ha]. apply negb_true_iff in Hc.
    rewrite Hc, IH by exact Ha. reflexivity.
Qed.

Lemma find_char_none (p : Z -> bool) (a : rstring) :
  forallb (fun c => negb (p c)) a = true -> find_char p a = None.
Proof.
  induction a as [|c a IH]; simpl; intros Ha; [reflexivity|].
  apply andb_true_iff in Ha as [Hc Ha]. apply negb_true_iff in Hc.
  rewrite Hc, IH by exact Ha. reflexivity.
Qed.

Lemma trim_start_app_nonws (a b : rstring) (x : Z) :
  is_whitespace x = false -> trim_start (a ++ x :: b) = trim_start a ++ x :: b.
Proof.
  intros Hx. induction a as [|c a IH]; simpl.
  - rewrite Hx. reflexivity.
  - destruct (is_whitespace c); [exact IH|reflexivity].
Qed.

Lemma trim_end_app_nonws (a b : rstring) (x : Z) :
  is_whitespace x = false -> trim_end (a ++ x :: b) = a ++ x :: trim_end b.
Proof.
  intros Hx. unfold trim_end. rewrite rev_app_distr. simpl.
  rewrite <- app_assoc. simpl. rewrite trim_start_app_nonws by exact Hx.
  rewrite rev_app_distr. simpl. rewrite rev_involutive, <- app_assoc. reflexivity.
Qed.

Lemma trim_start_idem (s : rstring) : trim_start (trim_start s) = trim_start s.
Proof.
  induction s as [|c s IH]; simpl; [reflexivity|].
  destruct (is_whitespace c) eqn:Hc; [exact IH|]. simpl. rewrite Hc. reflexivity.
Qed.

Lemma trim_end_idem (s : rstring) : trim_end (trim_end s) = trim_end s.
Proof. unfold trim_end. rewrite rev_involutive, trim_start_idem. reflexivity. Qed.

Lemma trim_start_app (a b : rstring) :
  trim_start (a ++ b) = match trim_start a with [] => trim_start b | l => l ++ b end.
Proof.
  induction a as [|c a IH]; simpl; [reflexivity|].
  destruct (is_whitespace c); [exact IH|reflexivity].
Qed.

Lemma trim_end_cons (c : Z) (t : rstring) :
  trim_end (c :: t) =
    match trim_end t with [] => if is_whitespace c then [] else [c] | l => c :: l end.
Proof.
  unfold trim_end. simpl. rewrite trim_start_app. simpl.
  destruct (trim_start (rev t)) as [|y l] eqn:E; simpl.
  - destruct (is_whitespace c); reflexivity.
  - rewrite rev_app_distr. simpl. destruct (rev l); reflexivity.
Qed.

Lemma trim_start_trim_end (s : rstring) : trim_start (trim_end s) = trim_end (trim_start s).
Proof.
  induction s as [|c t IH]; [reflexivity|].
  rewrite trim_end_cons.
  destruct (trim_end t) as [|y l] eqn:Et;
    destruct (is_whitespace c) eqn:Hc; cbn [trim_start]; rewrite ?Hc.
  - rewrite <- IH. reflexivity.
  - rewrite trim_end_cons, Et, Hc. reflexivity.
  - rewrite <- IH. reflexivity.
  - rewrite trim_end_cons, Et. reflexivity.
Qed.

Lemma trim_trim_end (s : rstring) : trim (trim_end s) = trim s.
Proof. unfold trim. rewrite trim_start_trim_end, trim_end_idem. reflexivity. Qed.

Lemma split_char_no_sep (sep : Z) (e : rstring) :
  forallb (fun c => negb (c =? sep)) e = true -> split_char sep e = [e].
Proof.
  induction e as [|c e IH]; simpl; intros He; [reflexivity|].
  apply andb_true_iff in He as [Hc He]. apply negb_true_iff in Hc.
  rewrite Hc, IH by exact He. reflexivity.
Qed.

Lemma split_char_app (sep : Z) (e r : rstring) :
  forallb (fun c => negb (c =? sep)) e = true ->
  split_char sep (e ++ sep :: r) = e :: split_char sep r.
Proof.
  induction e as [|c e IH]; simpl; intros He.
  - rewrite Z.eqb_refl. reflexivity.
  - apply andb_true_iff in He as [Hc He]. apply negb_true_iff in Hc.
    rewrite Hc, IH by exact He. reflexivity.
Qed.

Ltac zbool :=
  unfold in_range in *;
  repeat (rewrite ?orb_true_iff, ?andb_true_iff, ?orb_false_iff, ?andb_false_iff,
    ?negb_true_iff, ?negb_false_iff,
    ?Z.leb_le, ?Z.leb_gt, ?Z.eqb_eq, ?Z.eqb_neq, ?Z.ltb_lt, ?Z.ltb_ge in *);
  lia.

Lemma name_char_nonws (c : Z) : name_char c = true -> is_whitespace c = false.
Proof. unfold name_char, is_whitespace. intros Hc. zbool. Qed.

Lemma version_char_nonws (c : Z) : ascii_version_char c = true -> is_whitespace c = false.
Proof. unfold ascii_version_char, is_whitespace. intros Hc. zbool. Qed.

Lemma name_char_ascii (c : Z) : name_char c = true -> (0 <=? c) && (c <? 128) = true.
Proof. unfold name_char. intros Hc. zbool. Qed.

Lemma version_char_ascii (c : Z) : ascii_version_char c = true -> (0 <=? c) && (c <? 128) = true.
Proof. unfold ascii_version_char. intros Hc. zbool. Qed.

Lemma name_char_scan (c : Z) : name_char c = true ->
  is_alphanumeric c || (c =? 95) || (c =? 45) = true.
Proof.
  unfold name_char, is_alphanumeric, latin1_alphanumeric. intros Hc.
  destruct (Z.leb_spec c 0xFF); [|zbool]. zbool.
Qed.

Lemma version_char_scan (c : Z) : ascii_version_char c = true -> version_char c = true.
Proof.
  unfold ascii_version_char, version_char, is_alphanumeric, latin1_alphanumeric. intros Hc.
  destruct (Z.leb_spec c 0xFF); [|zbool]. zbool.
Qed.

Lemma forallb_impl' (P Q : Z -> bool) (l : rstring) :
  (forall c, P c = true -> Q c = true) -> forallb P l = true -> forallb Q l = true.
Proof.
  intros HPQ. induction l as [|c l IH]; simpl; [reflexivity|].
  rewrite !andb_true_iff. intros [Hc Hl]. auto.
Qed.

Lemma normalize_name_spec (n : rstring) :
  forallb name_char n = true -> replace_underscore (to_lowercase n) = normalize_name n.
Proof.
  induction n as [|c n IH]; simpl; [reflexivity|].
  intros Hn. apply andb_true_iff in Hn as [Hc Hn].
  unfold to_lowercase in IH. rewrite <- IH by exact Hn.
  unfold char_to_lowercase, replace_underscore. simpl.
  unfold name_char in Hc.
  destruct (Z.leb_spec c 0xFF); [|zbool].
  destruct (in_range 65 90 c) eqn:Hu.
  - simpl. f_equal. destruct (Z.eqb_spec (c + 32) 95); [zbool|reflexivity].
  - replace (in_range 192 222 c && negb (c =? 215)) with false by (symmetry; zbool).
    simpl. reflexivity.
Qed.

Lemma scan_name_app (n t : rstring) (i : nat) (acc : rstring) (pos : nat) :
  forallb name_char n = true ->
  scan_name (n ++ t) i acc pos =
    scan_name t (i + length n) (acc ++ n) (match n with [] => pos | _ => i + length n end)%nat.
Proof.
  revert i acc pos; induction n as [|c n IH]; intros i acc pos Hn; simpl.
  - rewrite Nat.add_0_r, app_nil_r. reflexivity.
  - apply andb_true_iff in Hn as [Hc Hn]. rewrite (name_char_scan c Hc).
    rewrite IH by exact Hn. rewrite <- app_assoc. simpl.
    destruct n; simpl; f_equal; lia.
Qed.

Lemma scan_version_app (v t : rstring) (i : nat) (acc : rstring) (e : nat) :
  forallb ascii_version_char v = true ->
  scan_version (v ++ t) i acc e =
    scan_version t (i + length v) (acc ++ v) (match v with [] => e | _ => i + length v end)%nat.
Proof.
  revert i acc e; induction v as [|c v IH]; intros i acc e Hv; simpl.
  - rewrite Nat.add_0_r, app_nil_r. reflexivity.
  - apply andb_true_iff in Hv as [Hc Hv]. rewrite (version_char_scan c Hc).
    rewrite IH by exact Hv. rewrite <- app_assoc. simpl.
    destruct v; simpl; f_equal; lia.
Qed.

Lemma op_str_nonws (o : VersionOp.t) (r : rstring) :
  trim_start (op_str o ++ r) = op_str o ++ r.
Proof. destruct o; reflexivity. Qed.

Lemma op_literals :
  str "=="%string = [61; 61] /\ str "!="%string = [33; 61] /\ str "<="%string = [60; 61] /\
  str ">="%string = [62; 61] /\ str "<"%string = [60] /\ str ">"%string = [62] /\
  str "~="%string = [126; 61].
Proof. repeat split. Qed.

Lemma op_prefix_op_str (o : VersionOp.t) (v t : rstring) :
  clause_ok (o, v) = true ->
  op_prefix (op_str o ++ v ++ t) = Some (o, byte_len (op_str o)).
Proof.
  unfold clause_ok. simpl. destruct v as [|v0 v]; [discriminate|].
  intros Hv. simpl in Hv. apply andb_true_iff in Hv as [Hv0 _].
  assert (H61 : (61 =? v0) = false) by (unfold ascii_version_char in Hv0; zbool).
  destruct op_literals as (E1 & E2 & E3 & E4 & E5 & E6 & E7).
  unfold op_prefix, op_str. rewrite E1, E2, E3, E4, E5, E6, E7.
  destruct o; cbn -[Z.eqb]; rewrite ?H61; reflexivity.
Qed.

Lemma byte_len_op_str (o : VersionOp.t) : byte_len (op_str o) = length (op_str o).
Proof. destruct o; reflexivity. Qed.

Lemma length_le_byte_len (s : rstring) : (length s <= byte_len s)%nat.
Proof. induction s as [|c s IH]; simpl; [lia|]. pose proof (utf8_len_pos c). lia. Qed.

Lemma specs_loop_at_end (fuel : nat) (s : rstring) (specs : list VersionSpec) :
  specs_loop fuel s (byte_len s) specs = Normal (Ok specs).
Proof.
  destruct fuel; simpl; [reflexivity|]. rewrite Nat.ltb_irrefl. reflexivity.
Qed.

Lemma clause_ok_ascii (c : VersionOp.t * rstring) :
  clause_ok c = true -> is_ascii (snd c) = true.
Proof.
  unfold clause_ok, is_ascii. destruct (snd c); [discriminate|].
  apply forallb_impl'. apply version_char_ascii.
Qed.

Lemma clause_ok_nonempty (c : VersionOp.t * rstring) :
  clause_ok c = true -> exists v0 v, snd c = v0 :: v /\ ascii_version_char v0 = true /\
    forallb ascii_version_char (v0 :: v) = true.
Proof.
  unfold clause_ok. destruct (snd c) as [|v0 v]; [discriminate|].
  intros Hv. exists v0, v. split; [reflexivity|]. split; [|exact Hv].
  simpl in Hv. apply andb_true_iff in Hv as [Hv0 _]. exact Hv0.
Qed.

(** The [while] loop of [parse_version_specs] reads comma-joined clauses
    back in order. *)
Lemma specs_loop_clauses (cs : list (VersionOp.t * rstring)) (pre : rstring)
    (specs : list VersionSpec) (fuel : nat) :
  cs <> [] -> forallb clause_ok cs = true -> (length cs <= fuel)%nat ->
  specs_loop fuel (pre ++ render_clauses cs) (byte_len pre) specs =
    Normal (Ok (specs ++ map clause_spec cs)).
Proof.
  revert pre specs fuel; induction cs as [|[o v] cs IH]; intros pre specs fuel Hne Hok Hf;
    [congruence|].
  simpl in Hok. apply andb_true_iff in Hok as [Hc Hok].
  destruct fuel as [|fuel]; [simpl in Hf; lia|].
  destruct (clause_ok_nonempty _ Hc) as (v0 & v' & Hv & Hv0 & Hvs). simpl in Hv. subst v.
  pose proof (clause_ok_ascii _ Hc) as Hasc. simpl in Hasc.
  set (tail := match cs with [] => [] | _ => 44 :: render_clauses cs end).
  assert (Es : pre ++ render_clauses ((o, v0 :: v') :: cs) =
               pre ++ (op_str o ++ (v0 :: v') ++ tail)) by (simpl; unfold render_clause; simpl;
                 rewrite <- app_assoc; reflexivity).
  rewrite Es. cbn [specs_loop].
  assert (Hlt : Nat.ltb (byte_len pre) (byte_len (pre ++ op_str o ++ (v0 :: v') ++ tail)) = true).
  { apply Nat.ltb_lt. rewrite !byte_len_app. destruct o; simpl; lia. }
  rewrite Hlt, slice_from_app. cbn [pbind].
  rewrite op_str_nonws.
  destruct (op_str o ++ (v0 :: v') ++ tail) as [|z zs] eqn:Ez;
    [destruct o; discriminate|].
  rewrite <- Ez. rewrite op_prefix_op_str by exact Hc.
  rewrite slice_from_app. cbn [pbind].
  assert (Htv : trim_start ((v0 :: v') ++ tail) = (v0 :: v') ++ tail).
  { simpl. rewrite (version_char_nonws v0 Hv0). reflexivity. }
  rewrite Htv.
  rewrite scan_version_app by exact Hvs.
  assert (Hsc : scan_version tail (0 + length (v0 :: v')) ([] ++ v0 :: v') (0 + length (v0 :: v'))
                = (v0 :: v', length (v0 :: v'))).
  { unfold tail. destruct cs; reflexivity. }
  rewrite Hsc. cbn iota beta.
  assert (Hpos : (byte_len pre + (byte_len (op_str o ++ (v0 :: v') ++ tail) -
                   byte_len ((v0 :: v') ++ tail)) + length (v0 :: v'))%nat =
                 byte_len (pre ++ op_str o ++ (v0 :: v'))).
  { rewrite !byte_len_app, (ascii_byte_len (v0 :: v') Hasc). lia. }
  rewrite Hpos.
  destruct cs as [|c2 cs2] eqn:Ecs.
  - unfold tail. rewrite app_nil_r.
    replace (Nat.ltb _ _) with false by (symmetry; apply Nat.ltb_ge; lia).
    rewrite specs_loop_at_end. simpl. reflexivity.
  - assert (Et : tail = 44 :: render_clauses cs) by (unfold tail; rewrite ?Ecs; reflexivity).
    rewrite Et.
    assert (Es2 : pre ++ op_str o ++ (v0 :: v') ++ 44 :: render_clauses cs =
                  (pre ++ op_str o ++ (v0 :: v')) ++ 44 :: render_clauses cs)
      by (rewrite <- !app_assoc; reflexivity).
    rewrite Es2.
    replace (Nat.ltb _ _) with true
      by (symmetry; apply Nat.ltb_lt; rewrite (byte_len_app (pre ++ op_str o ++ v0 :: v')); cbn [byte_len]; pose proof (utf8_len_pos 44); lia).
    rewrite slice_from_app. cbn [pbind]. simpl trim_start. simpl starts_with.
    simpl find_char.
    assert (Es3 : (pre ++ op_str o ++ (v0 :: v')) ++ 44 :: render_clauses cs =
                  (pre ++ render_clause (o, v0 :: v') ++ [44]) ++ render_clauses cs)
      by (unfold render_clause; simpl; rewrite <- !app_assoc; reflexivity).
    rewrite Es3.
    replace (byte_len (pre ++ op_str o ++ v0 :: v') + 0 + 1)%nat
      with (byte_len (pre ++ render_clause (o, v0 :: v') ++ [44]))
      by (unfold render_clause; simpl; rewrite !byte_len_app; simpl; lia).
    rewrite Ecs, IH; [| discriminate | exact Hok | simpl in Hf |- *; lia].
    rewrite <- app_assoc. reflexivity.
Qed.

Lemma length_render_clauses (cs : list (VersionOp.t * rstring)) :
  (length cs <= length (render_clauses cs))%nat.
Proof.
  induction cs as [|[o v] cs IH]; simpl; [lia|].
  unfold render_clause. simpl. rewrite !length_app.
  destruct cs as [|c2 cs2]; simpl in *; destruct o; simpl; lia.
Qed.

Lemma render_clauses_cons2 (c c2 : VersionOp.t * rstring) (cs : list (VersionOp.t * rstring)) :
  render_clauses (c :: c2 :: cs) = render_clause c ++ 44 :: render_clauses (c2 :: cs).
Proof. reflexivity. Qed.

Lemma join_comma_cons2 (e e2 : rstring) (l : list rstring) :
  join_comma (e :: e2 :: l) = e ++ 44 :: join_comma (e2 :: l).
Proof. reflexivity. Qed.

Lemma trim_end_nonws_last (a : rstring) (x : Z) :
  is_whitespace x = false -> trim_end (a ++ [x]) = a ++ [x].
Proof. intros Hx. rewrite trim_end_app_nonws by exact Hx. reflexivity. Qed.

Lemma trim_end_render_clauses (cs : list (VersionOp.t * rstring)) :
  forallb clause_ok cs = true -> trim_end (render_clauses cs) = render_clauses cs.
Proof.
  induction cs as [|c cs IH]; [reflexivity|].
  simpl. intros Hok. apply andb_true_iff in Hok as [Hc Hok].
  destruct cs as [|c2 cs2].
  - rewrite app_nil_r. unfold render_clause.
    destruct (clause_ok_nonempty c Hc) as (v0 & v & Hv & _ & Hvs). rewrite Hv.
    assert (Hne : v0 :: v <> []) by discriminate.
    destruct (exists_last Hne) as (a & x & Ea). rewrite Ea in Hvs |- *.
    rewrite forallb_app in Hvs. apply andb_true_iff in Hvs as [_ Hx].
    simpl in Hx. rewrite andb_true_r in Hx.
    rewrite app_assoc. apply trim_end_nonws_last. apply version_char_nonws. exact Hx.
  - rewrite trim_end_app_nonws by reflexivity. rewrite IH by exact Hok. reflexivity.
Qed.

Lemma forallb_join_comma (P : Z -> bool) (l : list rstring) :
  P 44 = true -> forallb (forallb P) l = true -> forallb P (join_comma l) = true.
Proof.
  intros H44. induction l as [|e l IH]; simpl; [reflexivity|].
  intros Hl. apply andb_true_iff in Hl as [He Hl].
  destruct l as [|e2 l2]; rewrite forallb_app, He; simpl; [reflexivity|].
  rewrite H44. apply IH. exact Hl.
Qed.

Lemma split_join_comma (l : list rstring) :
  l <> [] -> forallb (forallb (fun c => negb (c =? 44))) l = true ->
  split_char 44 (join_comma l) = l.
Proof.
  induction l as [|e l IH]; [congruence|]. intros _ Hl.
  simpl in Hl. apply andb_true_iff in Hl as [He Hl].
  destruct l as [|e2 l2].
  - simpl. rewrite app_nil_r. apply split_char_no_sep. exact He.
  - rewrite join_comma_cons2, split_char_app by exact He.
    rewrite IH by (discriminate || exact Hl). reflexivity.
Qed.

Lemma forallb_render_clauses (P : Z -> bool) (cs : list (VersionOp.t * rstring)) :
  P 44 = true -> (forall o, forallb P (op_str o) = true) ->
  (forall c, ascii_version_char c = true -> P c = true) ->
  forallb clause_ok cs = true -> forallb P (render_clauses cs) = true.
Proof.
  intros H44 Hop Hv. induction cs as [|c cs IH]; simpl; [reflexivity|].
  intros Hok. apply andb_true_iff in Hok as [Hc Hok].
  destruct (clause_ok_nonempty c Hc) as (v0 & v & Hvv & _ & Hvs).
  rewrite forallb_app. apply andb_true_iff. split.
  - unfold render_clause. rewrite forallb_app, Hop, Hvv. simpl.
    exact (forallb_impl' _ _ (v0 :: v) Hv Hvs).
  - destruct cs; simpl; [reflexivity|]. rewrite H44. apply IH. exact Hok.
Qed.

Lemma extras_items_impl (P : Z -> bool) (l : list rstring) :
  (forall c, negb ((c =? 44) || (c =? 93) || (c =? 59)) = true -> P c = true) ->
  forallb extra_item_ok l = true -> forallb (forallb P) l = true.
Proof.
  intros HP. induction l as [|e l IH]; simpl; [reflexivity|].
  rewrite !andb_true_iff. intros [He Hl]. split; [|exact (IH Hl)].
  exact (forallb_impl' _ _ e HP He).
Qed.

Lemma body_no_semicolon (name : rstring) (es : option (list rstring))
    (cs : list (VersionOp.t * rstring)) :
  forallb name_char name = true -> extras_ok es = true -> forallb clause_ok cs = true ->
  forallb (fun c => negb (59 =? c)) (body name es cs) = true.
Proof.
  intros Hn He Hc. unfold body. rewrite !forallb_app. apply andb_true_iff. split.
  { apply (forallb_impl' name_char); [|exact Hn]. unfold name_char. intros c Hc'. zbool. }
  apply andb_true_iff. split.
  - destruct es as [l|]; [|reflexivity]. simpl. rewrite forallb_app. simpl.
    rewrite andb_true_r. apply forallb_join_comma; [reflexivity|].
    destruct l as [|e l]; [discriminate|]. apply extras_items_impl; [|exact He].
    intros c Hc'. change (negb (59 =? c) = true). zbool.
  - apply forallb_render_clauses;
      [reflexivity | intros o; destruct o; reflexivity
      | unfold ascii_version_char; intros c Hc'; zbool | exact Hc].
Qed.

Lemma op_str_eq (o : VersionOp.t) :
  op_str o = match o with
             | VersionOp.Eq => [61; 61] | VersionOp.NotEq => [33; 61]
             | VersionOp.Lt => [60] | VersionOp.LtEq => [60; 61]
             | VersionOp.Gt => [62] | VersionOp.GtEq => [62; 61]
             | VersionOp.Compatible => [126; 61] end.
Proof. destruct o; reflexivity. Qed.

Lemma after_name_rest (es : option (list rstring)) (cs : list (VersionOp.t * rstring)) :
  after_name (render_extras es ++ render_clauses cs).
Proof.
  destruct es as [l|]; [simpl; left; reflexivity|].
  destruct cs as [|[o v] cs]; [simpl; trivial|].
  simpl. unfold render_clause. simpl. rewrite op_str_eq.
  destruct o; simpl; tauto.
Qed.

Lemma scan_name_stop (rest : rstring) (i : nat) (acc : rstring) (p : nat) :
  after_name rest -> scan_name (as_bytes rest) i acc p = (acc, p).
Proof.
  destruct rest as [|c r]; [reflexivity|]. simpl.
  intros [-> | [-> | [-> | [-> | [-> | ->]]]]]; reflexivity.
Qed.

Lemma starts_with_bracket_clauses (cs : list (VersionOp.t * rstring)) :
  starts_with [91] (render_clauses cs) = false.
Proof.
  destruct cs as [|[o v] cs]; [reflexivity|].
  simpl. unfold render_clause. simpl. rewrite op_str_eq. destruct o; reflexivity.
Qed.

Lemma trim_start_clauses (cs : list (VersionOp.t * rstring)) :
  trim_start (render_clauses cs) = render_clauses cs.
Proof.
  destruct cs as [|[o v] cs]; [reflexivity|].
  simpl. unfold render_clause. simpl. rewrite op_str_eq. destruct o; reflexivity.
Qed.

Lemma name_ascii (name : rstring) : forallb name_char name = true -> is_ascii name = true.
Proof. apply forallb_impl'. apply name_char_ascii. Qed.

Lemma trim_end_body (name : rstring) (es : option (list rstring))
    (cs : list (VersionOp.t * rstring)) :
  name <> [] -> forallb name_char name = true -> forallb clause_ok cs = true ->
  trim_end (body name es cs) = body name es cs.
Proof.
  intros Hne Hn Hc. unfold body.
  destruct (exists_last Hne) as (a & x & Ea). rewrite Ea in Hn |- *.
  rewrite forallb_app in Hn. apply andb_true_iff in Hn as [_ Hx].
  simpl in Hx. rewrite andb_true_r in Hx.
  rewrite <- app_assoc. simpl.
  rewrite trim_end_app_nonws by (apply name_char_nonws; exact Hx). f_equal. f_equal.
  destruct es as [l|]; simpl.
  - rewrite <- app_assoc. simpl.
    change (91 :: join_comma l ++ 93 :: render_clauses cs)
      with ((91 :: join_comma l) ++ 93 :: render_clauses cs).
    rewrite trim_end_app_nonws by reflexivity.
    rewrite trim_end_render_clauses by exact Hc. reflexivity.
  - apply trim_end_render_clauses. exact Hc.
Qed.

Lemma trim_compose (name : rstring) (es : option (list rstring))
    (cs : list (VersionOp.t * rstring)) (m : option rstring) :
  name <> [] -> forallb name_char name = true -> forallb clause_ok cs = true ->
  trim (compose name es cs m) = body name es cs ++ render_marker (option_map trim_end m).
Proof.
  intros Hne Hn Hc. unfold trim, compose.
  assert (Eb : name ++ render_extras es ++ render_clauses cs ++ render_marker m =
               body name es cs ++ render_marker m)
    by (unfold body; rewrite !app_assoc; reflexivity).
  assert (Hts : trim_start (body name es cs ++ render_marker m) =
                body name es cs ++ render_marker m).
  { unfold body. destruct name as [|n0 n]; [congruence|].
    simpl in Hn. apply andb_true_iff in Hn as [Hn0 _].
    cbn [app trim_start]. rewrite (name_char_nonws n0 Hn0). reflexivity. }
  rewrite Eb, Hts. destruct m as [t|]; cbn [render_marker option_map].
  - apply trim_end_app_nonws. reflexivity.
  - rewrite !app_nil_r. apply trim_end_body; assumption.
Qed.

Lemma slice_from_one (c : Z) (t : rstring) :
  utf8_len c = 1%nat -> slice_from (c :: t) 1 = Normal t.
Proof. intros Hc. simpl. rewrite Hc. destruct t; reflexivity. Qed.

Lemma join_no_bracket (l : list rstring) :
  forallb extra_item_ok l = true ->
  forallb (fun c => negb (93 =? c)) (91 :: join_comma l) = true.
Proof.
  intros Hl. change (forallb (fun c => negb (93 =? c)) (join_comma l) = true).
  apply forallb_join_comma; [reflexivity|].
  apply extras_items_impl; [|exact Hl]. intros c Hc. zbool.
Qed.

Lemma join_no_comma (l : list rstring) :
  forallb extra_item_ok l = true -> forallb (forallb (fun c => negb (c =? 44))) l = true.
Proof. apply extras_items_impl. intros c Hc. zbool. Qed.

Lemma trim_body (name : rstring) (es : option (list rstring))
    (cs : list (VersionOp.t * rstring)) :
  name <> [] -> forallb name_char name = true -> forallb clause_ok cs = true ->
  trim (body name es cs) = body name es cs.
Proof.
  intros Hne Hn Hc. unfold trim.
  replace (trim_start (body name es cs)) with (body name es cs).
  - apply trim_end_body; assumption.
  - unfold body. destruct name as [|n0 n]; [congruence|].
    simpl in Hn. apply andb_true_iff in Hn as [Hn0 _].
    cbn [app trim_start]. rewrite (name_char_nonws n0 Hn0). reflexivity.
Qed.

Lemma scan_body (name : rstring) (es : option (list rstring))
    (cs : list (VersionOp.t * rstring)) :
  name <> [] -> forallb name_char name = true ->
  scan_name (as_bytes (body name es cs)) 0 [] 0 = (name, byte_len name).
Proof.
  intros Hne Hn. unfold body.
  rewrite as_bytes_app, (ascii_as_bytes name (name_ascii name Hn)).
  rewrite scan_name_app by exact Hn.
  rewrite scan_name_stop by apply after_name_rest.
  rewrite (ascii_byte_len name (name_ascii name Hn)).
  destruct name; [congruence|]. reflexivity.
Qed.

Lemma slice_from_zero (s : rstring) : slice_from s 0 = Normal s.
Proof. destruct s; reflexivity. Qed.

Lemma trim_clauses (cs : list (VersionOp.t * rstring)) :
  forallb clause_ok cs = true -> trim (render_clauses cs) = render_clauses cs.
Proof.
  intros Hc. unfold trim. rewrite trim_start_clauses. apply trim_end_render_clauses. exact Hc.
Qed.

(** [version_part] of [from_str] when it holds the rendered clauses. *)
Lemma version_part_specs (cs : list (VersionOp.t * rstring)) :
  forallb clause_ok cs = true ->
  match trim (render_clauses cs) with
  | [] => Normal (Ok [])
  | _ :: _ => parse_version_specs (trim (render_clauses cs))
  end = Normal (Ok (map clause_spec cs)).
Proof.
  intros Hc. rewrite trim_clauses by exact Hc.
  destruct cs as [|c cs'] eqn:Ecs; [reflexivity|]. rewrite <- Ecs in *.
  assert (Hne : cs <> []) by (rewrite Ecs; discriminate).
  pose proof (length_render_clauses cs) as Hlen.
  destruct (render_clauses cs) as [|z zs] eqn:Er.
  { rewrite Ecs in Hlen. simpl in Hlen. lia. }
  rewrite <- Er. unfold parse_version_specs. rewrite trim_clauses by exact Hc.
  pose proof (specs_loop_clauses cs [] [] (S (byte_len (render_clauses cs))) Hne Hc) as HL.
  rewrite app_nil_l in HL. cbn [byte_len] in HL. apply HL.
  rewrite <- Er in Hlen. pose proof (length_le_byte_len (render_clauses cs)). lia.
Qed.

(** C7 (amended): [from_str] of [name[extras]specs;marker], for a
    non-empty ASCII name of letters, digits, [_] and [-], clauses with an
    ASCII version of letters, digits, [.], [*] and [+], and extras items
    without [,], []] or [;], gives the name ASCII-lowercased with [_]
    turned into [-], the clauses in their order, the extras each trimmed,
    and the text after the first [;] trimmed as the marker. *)
Theorem from_str_compose (name : rstring) (es : option (list rstring))
    (cs : list (VersionOp.t * rstring)) (m : option rstring) :
  name <> [] -> forallb name_char name = true -> extras_ok es = true ->
  forallb clause_ok cs = true ->
  from_str (compose name es cs m) =
    Normal (Ok (mkRequirement (normalize_name name) (map clause_spec cs)
                  (match es with Some l => map trim l | None => [] end)
                  (option_map trim m))).
Proof.
  intros Hne Hn He Hc.
  pose proof (body_no_semicolon name es cs Hn He Hc) as Hsemi.
  unfold from_str. rewrite (trim_compose name es cs m Hne Hn Hc).
  assert (Hsplit :
    match find_char (Z.eqb 59) (body name es cs ++ render_marker (option_map trim_end m)) with
    | Some idx =>
        let! req := slice_to (body name es cs ++ render_marker (option_map trim_end m)) idx in
        let! mk := slice_from (body name es cs ++ render_marker (option_map trim_end m)) idx in
        let! m := slice_from mk 1 in
        Normal (trim req, Some (trim m))
    | None => Normal (body name es cs ++ render_marker (option_map trim_end m), None)
    end = Normal (body name es cs, option_map trim m)).
  { destruct m as [t|]; cbn [render_marker option_map].
    - rewrite find_char_app by (exact Hsemi || reflexivity).
      rewrite slice_to_app, slice_from_app. cbn [pbind].
      rewrite slice_from_one by reflexivity. cbn [pbind].
      rewrite trim_body, trim_trim_end by assumption. reflexivity.
    - rewrite app_nil_r, find_char_none by exact Hsemi. reflexivity. }
  rewrite Hsplit. cbn [pbind].
  rewrite scan_body by assumption.
  unfold body at 1. rewrite slice_from_app. cbn [pbind].
  destruct es as [l|].
  - assert (Hl : l <> [] /\ forallb extra_item_ok l = true)
      by (destruct l; [discriminate|split; [discriminate|exact He]]).
    destruct Hl as [Hl Hitems].
    assert (Er : render_extras (Some l) ++ render_clauses cs =
                 (91 :: join_comma l) ++ 93 :: render_clauses cs)
      by (simpl; rewrite <- app_assoc; reflexivity).
    rewrite Er.
    replace (starts_with [91] _) with true by reflexivity.
    rewrite find_char_app by (exact (join_no_bracket l Hitems) || reflexivity).
    unfold slice_range.
    replace (Nat.ltb (byte_len (91 :: join_comma l)) 1) with false
      by (symmetry; apply Nat.ltb_ge; cbn [byte_len]; pose proof (utf8_len_pos 91); lia).
    rewrite slice_to_app. cbn [pbind].
    rewrite slice_from_one by reflexivity. cbn [pbind].
    rewrite split_join_comma by (exact Hl || exact (join_no_comma l Hitems)).
    replace ((91 :: join_comma l) ++ 93 :: render_clauses cs)
      with (((91 :: join_comma l) ++ [93]) ++ render_clauses cs)
      by (rewrite <- app_assoc; reflexivity).
    replace (S (byte_len (91 :: join_comma l)))
      with (byte_len ((91 :: join_comma l) ++ [93]))
      by (rewrite byte_len_app; cbn [byte_len]; pose proof (utf8_len_pos 93); simpl; lia).
    rewrite slice_from_app. cbn [pbind].
    rewrite version_part_specs by exact Hc. cbn [pbind].
    rewrite normalize_name_spec by exact Hn. reflexivity.
  - cbn [render_extras app]. rewrite starts_with_bracket_clauses.
    cbn [pbind]. rewrite slice_from_zero. cbn [pbind].
    rewrite version_part_specs by exact Hc. cbn [pbind].
    rewrite normalize_name_spec by exact Hn. reflexivity.
Qed.

End requirement_roundtrip.

(** C2 (code_bug): [resolve] does not always return [Ok]. Resolving [a]
    against a source whose package [a] lists the dependency U+00E9 panics:
    [from_str] scans the bytes of the name as Latin-1 chars, takes byte
    [0xC3] (U+00C3, alphanumeric), stops at [0xA9] (U+00A9, not), and then
    slices [&req_part[1..]] inside the two-byte char. *)
Theorem resolve_panics_on_nonascii_dependency (fuel : nat) :
  resolver.resolve nonascii_source (S fuel)
    (resolver.new marker.Linux marker.X86_64) [req_a] = Some Panic.
Proof.
  assert (Hi : resolver.iteration nonascii_source 10
                 (resolver.start (resolver.new marker.Linux marker.X86_64) [req_a]) = Panic)
    by (vm_compute; reflexivity).
  assert (Hm : (Z.of_nat 10 >? resolver.MAX_PERMITS) = false) by (vm_compute; reflexivity).
  unfold resolver.resolve, resolver.resolve_concurrent. rewrite Hm. simpl resolver.run.
  rewrite Hi. reflexivity.
Qed.

Lemma resolve_fetches_each_name_once_witness :
  deps_closed two_pkg_source {[str "a"%string; str "b"%string]} /\
  (exists res, resolver.run two_pkg_source 10%nat (S (size ({[str "a"%string; str "b"%string]} : gset rstring)))
     (resolver.start (resolver.new marker.Linux marker.X86_64) [req_a; req_a_ge]) = Some res) /\
  exists st',
    resolver.run two_pkg_source 10%nat 3%nat
      (resolver.start (resolver.new marker.Linux marker.X86_64) [req_a; req_a_ge]) =
      Some (Normal st') /\
    resolver.fetch_log st' = [str "a"%string; str "b"%string] /\
    NoDup (resolver.fetch_log st') /\
    exists ext, resolver.fetch_log st' = str "a"%string :: ext /\ str "a"%string ∉ ext.
Proof.
  destruct (resolve_fetches_each_name_once two_pkg_source
              (resolver.new marker.Linux marker.X86_64) [req_a; req_a_ge])
    as (H1 & _ & H3 & H4).
  assert (HN : deps_closed two_pkg_source {[str "a"%string; str "b"%string]}).
  { intros n p d req _ Hf Hd Hp. unfold two_pkg_source in Hf.
    destruct (rstring_eqb n (str "a"%string)).
    - inversion Hf; subst p. apply list_elem_of_singleton in Hd; subst d.
      vm_compute in Hp. inversion Hp; subst req.
      apply (bool_decide_unpack _). vm_compute. exact I.
    - destruct (rstring_eqb n (str "b"%string)); [|discriminate].
      inversion Hf; subst p. apply elem_of_nil in Hd. contradiction. }
  split; [exact HN|]. split.
  { apply H3; [exact HN|]. intros req Hr.
    apply elem_of_cons in Hr as [->|Hr]; [apply (bool_decide_unpack _); vm_compute; exact I|].
    apply list_elem_of_singleton in Hr; subst req.
    apply (bool_decide_unpack _); vm_compute; exact I. }
  destruct (resolver.run two_pkg_source 10%nat 3%nat
              (resolver.start (resolver.new marker.Linux marker.X86_64) [req_a; req_a_ge]))
    as [[st'|]|] eqn:E; [|vm_compute in E; discriminate E|vm_compute in E; discriminate E].
  exists st'. split; [reflexivity|].
  split; [vm_compute in E; inversion E; reflexivity|].
  split; [exact (proj1 (H1 _ _ E))|exact (H4 _ _ E)].
Defined.

(** C7: [from_str] trims the marker (and each extra), so the marker is not
    the text after the [;] verbatim. *)
Lemma requirement_marker_trimmed_counterexample :
  requirement.from_str (str "a; m"%string) =
    Normal (Ok (requirement.mkRequirement (str "a"%string) [] [] (Some (str "m"%string)))) /\
  str "m"%string <> str " m"%string.
Proof. split; [vm_compute; reflexivity | vm_compute; congruence]. Qed.

Lemma from_str_compose_witness :
  compose (str "Foo_Bar"%string) (Some [str "sec"%string; str " x "%string])
    [(requirement.VersionOp.GtEq, str "1.0"%string); (requirement.VersionOp.Lt, str "2"%string)]
    (Some (str " python_version > '3' "%string)) =
    str "Foo_Bar[sec, x ]>=1.0,<2; python_version > '3' "%string /\
  requirement.from_str
    (compose (str "Foo_Bar"%string) (Some [str "sec"%string; str " x "%string])
       [(requirement.VersionOp.GtEq, str "1.0"%string); (requirement.VersionOp.Lt, str "2"%string)]
       (Some (str " python_version > '3' "%string))) =
    Normal (Ok (requirement.mkRequirement (str "foo-bar"%string)
      [requirement.mkVersionSpec requirement.VersionOp.GtEq (str "1.0"%string);
       requirement.mkVersionSpec requirement.VersionOp.Lt (str "2"%string)]
      [str "sec"%string; str "x"%string] (Some (str "python_version > '3'"%string)))).
Proof.
  split; [vm_compute; reflexivity|].
  rewrite (from_str_compose (str "Foo_Bar"%string) (Some [str "sec"%string; str " x "%string])
             [(requirement.VersionOp.GtEq, str "1.0"%string);
              (requirement.VersionOp.Lt, str "2"%string)]
             (Some (str " python_version > '3' "%string))
             ltac:(vm_compute; congruence) ltac:(vm_compute; reflexivity)
             ltac:(vm_compute; reflexivity) ltac:(vm_compute; reflexivity)).
  vm_compute. reflexivity.
Defined.

(* ------------------------------------------------------------------ *)
(** ** Properties of the remaining code *)

Section selector_props.
Import candidate_selector.
Context `{UnicodeTables}.

(** X1: After register_installed(p, editable), can_reuse_installed asked for a name equal to p's name up to lowercase and for p's version returns true exactly when no link URL is asked for and the editable flag equals the registered one. *)
Theorem register_installed_reusable (sel : CandidateSelector) (p : package.Package)
    (editable : bool) (n : rstring) (link : option rstring) (editable' : bool) :
  to_lowercase n = to_lowercase (package.name p) ->
  can_reuse_installed (register_installed sel p editable) n (package.version p) link editable' =
    match link with None => Bool.eqb editable' editable | Some _ => false end.
Proof.
  intros Hn. unfold can_reuse_installed, register_installed. simpl.
  unfold candidate_key at 1. rewrite Hn. rewrite lookup_insert_eq. simpl.
  destruct link; reflexivity.
Qed.

(** X2: register_installed(p) does not change can_reuse_installed for any name and version whose key name.to_lowercase()==version differs from p's key. *)
Theorem register_installed_other (sel : CandidateSelector) (p : package.Package)
    (editable : bool) (n v : rstring) (link : option rstring) (editable' : bool) :
  candidate_key n v <> candidate_key (package.name p) (package.version p) ->
  can_reuse_installed (register_installed sel p editable) n v link editable' =
  can_reuse_installed sel n v link editable'.
Proof.
  intros Hk. unfold can_reuse_installed, register_installed. simpl.
  rewrite lookup_insert_ne by congruence. reflexivity.
Qed.

Lemma apply_ops_all_installed (sel : CandidateSelector) (ops : list SelectorOp) :
  all_installed sel -> all_installed (apply_ops sel ops).
Proof.
  revert sel; induction ops as [|[p e|] ops IH]; intros sel Hs; simpl; [exact Hs| |].
  - apply IH. unfold all_installed, register_installed. simpl.
    apply map_Forall_insert_2; [reflexivity|exact Hs].
  - apply IH. unfold all_installed, clear_installed. simpl. apply map_Forall_empty.
Qed.

Lemma filter_installed_values (sel : CandidateSelector) :
  all_installed sel -> List.filter is_installed (values sel) = values sel.
Proof.
  intros Hs. unfold values.
  assert (Hl : Forall (fun c => is_installed c = true) (map snd (map_to_list (installed_candidates sel)))).
  { apply Forall_forall. intros c Hc. apply list_elem_of_In, in_map_iff in Hc as [[k c'] [<- Hin]].
    apply (Hs k c'). apply elem_of_map_to_list. apply list_elem_of_In. exact Hin. }
  induction Hl as [|c l Hc _ IHl]; simpl; [reflexivity|]. rewrite Hc, IHl. reflexivity.
Qed.

Lemma length_values (sel : CandidateSelector) : length (values sel) = size (installed_candidates sel).
Proof. unfold values. rewrite length_map. apply length_map_to_list. Qed.

Lemma apply_ops_strategy (sel : CandidateSelector) (ops : list SelectorOp) :
  strategy (apply_ops sel ops) = strategy sel.
Proof. revert sel; induction ops as [|[p e|] ops IH]; intros sel; simpl; rewrite ?IH; reflexivity. Qed.

(** X3: For a selector built by new(strategy) followed by any sequence of register_installed and clear_installed calls, stats reports installed = total, get_installed_candidates returns every stored candidate and has total elements, editable <= total, and the strategy is unchanged. *)
Theorem selector_stats_installed (s : SelectionStrategy) (ops : list SelectorOp) :
  let sel := apply_ops (new s) ops in
  installed (stats sel) = total (stats sel) /\
  get_installed_candidates sel = values sel /\
  length (get_installed_candidates sel) = total (stats sel) /\
  (editable (stats sel) <= total (stats sel))%nat /\
  strategy sel = s.
Proof.
  intros sel.
  assert (Hs : all_installed sel).
  { apply apply_ops_all_installed. unfold all_installed, new. simpl. apply map_Forall_empty. }
  unfold stats, get_installed_candidates. simpl.
  rewrite filter_installed_values by exact Hs. rewrite length_values.
  split; [reflexivity|]. split; [reflexivity|]. split; [reflexivity|]. split.
  - rewrite <- length_values. clear. induction (values sel) as [|c l IH]; simpl; [lia|].
    destruct (is_editable c); simpl; lia.
  - unfold sel. apply apply_ops_strategy.
Qed.

Lemma max_by_version_in (best : Candidate) (rest : list Candidate) :
  In (max_by_version best rest) (best :: rest).
Proof.
  revert best; induction rest as [|c t IH]; intros best; simpl; [left; reflexivity|].
  destruct (str_cmp _ _).
  - destruct (IH c) as [E|E]; [right; left; exact E|right; right; exact E].
  - destruct (IH c) as [E|E]; [right; left; exact E|right; right; exact E].
  - destruct (IH best) as [E|E]; [left; exact E|right; right; exact E].
Qed.

Lemma find_installed_spec (cs : list Candidate) (c : Candidate) :
  find_installed cs = Some c -> In c cs /\ is_installed c = true.
Proof.
  unfold find_installed. intros Hf. split.
  - apply (find_some _ _ Hf).
  - apply (find_some _ _ Hf).
Qed.

(** X4: select_best returns None exactly on an empty candidate list, and any candidate it returns is one of the given candidates, whatever the strategy. *)
Theorem select_best_member (sel : CandidateSelector) (cs : list Candidate) :
  (select_best sel cs = None <-> cs = []) /\
  (forall c, select_best sel cs = Some c -> In c cs).
Proof.
  destruct cs as [|c0 cs]; unfold select_best; cbn iota beta.
  - split; [tauto|discriminate].
  - split.
    + split; [|discriminate]. intros Hc.
      destruct (strategy sel);
        [destruct (find_installed (c0 :: cs))| |destruct (find_installed (c0 :: cs))];
        simpl in Hc; discriminate Hc.
    + intros c Hc. destruct (strategy sel).
      * destruct (find_installed (c0 :: cs)) as [i|] eqn:Ei; inversion Hc; subst.
        -- apply (find_installed_spec _ _ Ei).
        -- left; reflexivity.
      * inversion Hc; subst. apply max_by_version_in.
      * destruct (find_installed (c0 :: cs)) as [i|] eqn:Ei; inversion Hc; subst.
        -- apply (find_installed_spec _ _ Ei).
        -- apply max_by_version_in.
Qed.

(** X5: Under PreferInstalled or PreferCompatible, if some candidate is installed then select_best returns the first installed candidate of the list. *)
Theorem select_best_prefers_installed (sel : CandidateSelector) (cs : list Candidate)
    (c : Candidate) :
  strategy sel <> PreferLatest -> In c cs -> is_installed c = true ->
  exists i cs1 cs2, select_best sel cs = Some i /\ cs = cs1 ++ i :: cs2 /\
    is_installed i = true /\ Forall (fun x => is_installed x = false) cs1.
Proof.
  intros Hs Hin Hc.
  assert (Hf : exists i cs1 cs2, find_installed cs = Some i /\ cs = cs1 ++ i :: cs2 /\
             is_installed i = true /\ Forall (fun x => is_installed x = false) cs1).
  { clear Hs. induction cs as [|x cs IH]; [destruct Hin|].
    unfold find_installed. simpl. destruct (is_installed x) eqn:Ex.
    - exists x, [], cs. split; [reflexivity|]. split; [reflexivity|]. split; [exact Ex|constructor].
    - destruct Hin as [->|Hin]; [congruence|].
      destruct (IH Hin) as (i & cs1 & cs2 & Fi & Ecs & Ei & Fa).
      exists i, (x :: cs1), cs2. split; [exact Fi|]. split; [rewrite Ecs; reflexivity|].
      split; [exact Ei|constructor; assumption]. }
  destruct Hf as (i & cs1 & cs2 & Fi & Ecs & Ei & Fa).
  exists i, cs1, cs2. split; [|auto].
  destruct cs as [|c0 cs']; [destruct Hin|]. unfold select_best.
  rewrite Fi. destruct (strategy sel); [reflexivity|congruence|reflexivity].
Qed.

End selector_props.

Section cache_props.
Import dependency_cache.
Context `{UnicodeTables}.

(** X6: After set(name, version, deps, extras), get with a name equal to name up to lowercase and the same version returns exactly those CachedDependencies, counts one hit and leaves misses unchanged. *)
Theorem get_after_set (dc : DependencyCache) (n v : rstring)
    (deps : list requirement.Requirement) (ex : list rstring) (n' : rstring) :
  to_lowercase n' = to_lowercase n ->
  get (set dc n v deps ex) n' v =
    (Some (mkCachedDependencies n v deps ex),
     mkDependencyCache (cache (set dc n v deps ex)) (u32_add (hits dc) 1) (misses dc)).
Proof.
  intros Hn. unfold get, set. simpl. unfold cache_key at 1. rewrite Hn.
  fold (cache_key n v). rewrite lookup_insert_eq. reflexivity.
Qed.

(** X7: set(name, version, ...) does not change what get returns for any name and version whose cache key differs. *)
Theorem get_after_set_other (dc : DependencyCache) (n v : rstring)
    (deps : list requirement.Requirement) (ex : list rstring) (n' v' : rstring) :
  cache_key n' v' <> cache_key n v ->
  fst (get (set dc n v deps ex) n' v') = fst (get dc n' v').
Proof.
  intros Hk. unfold get, set. simpl. rewrite lookup_insert_ne by congruence.
  destruct (cache dc !! cache_key n' v'); reflexivity.
Qed.

End cache_props.

Section lockfile_props.
Import lockfile package.

Lemma from_packages_fold (pkgs : list Package) (py g : rstring) :
  packages (from_packages pkgs py g) = fold_left lock_insert pkgs ∅.
Proof. reflexivity. Qed.

Lemma fold_lock_insert_perm (pkgs : list Package) (m : gmap rstring locked.LockedPackage) :
  NoDup (map lock_key pkgs) -> (forall p, In p pkgs -> m !! lock_key p = None) ->
  map_to_list (fold_left lock_insert pkgs m) ≡ₚ
    map (fun p => (lock_key p, lock p)) pkgs ++ map_to_list m.
Proof.
  revert m; induction pkgs as [|p ps IH]; intros m Hnd Hm; cbn [fold_left]; [reflexivity|].
  change (NoDup (lock_key p :: map lock_key ps)) in Hnd.
  inversion Hnd as [|? ? Hp Hnd']; subst.
  rewrite IH.
  - unfold lock_insert. fold (lock_key p). fold (lock p).
    rewrite map_to_list_insert by (apply Hm; left; reflexivity).
    symmetry. apply Permutation_middle.
  - exact Hnd'.
  - intros q Hq. unfold lock_insert. fold (lock_key p).
    rewrite lookup_insert_ne.
    + apply Hm. right. exact Hq.
    + intros E. apply Hp. rewrite E. apply list_elem_of_In, in_map. exact Hq.
Qed.

Lemma from_packages_perm (pkgs : list Package) (py g : rstring) :
  NoDup (map lock_key pkgs) ->
  map_to_list (packages (from_packages pkgs py g)) ≡ₚ map (fun p => (lock_key p, lock p)) pkgs.
Proof.
  intros Hnd. rewrite from_packages_fold, fold_lock_insert_perm.
  - rewrite map_to_list_empty, app_nil_r. reflexivity.
  - exact Hnd.
  - intros p _. apply lookup_empty.
Qed.

Lemma values_perm (pkgs : list Package) (py g : rstring) :
  NoDup (map lock_key pkgs) -> values (from_packages pkgs py g) ≡ₚ map lock pkgs.
Proof.
  intros Hnd. unfold values. rewrite (from_packages_perm pkgs py g Hnd).
  rewrite map_map. reflexivity.
Qed.

(** X8: For a lock file built by from_packages from packages with pairwise distinct name-version keys, get_package(name, version) of each input package returns its locked entry (name, version, summary, requires_dist as dependencies, no url and no hash). *)
Theorem lockfile_get_package (pkgs : list Package) (py g : rstring) (p : Package) :
  NoDup (map lock_key pkgs) -> In p pkgs ->
  get_package (from_packages pkgs py g) (package.name p) (package.version p) = Some (lock p).
Proof.
  intros Hnd Hp. unfold get_package. apply elem_of_map_to_list.
  rewrite (from_packages_perm pkgs py g Hnd). apply list_elem_of_In.
  apply (in_map (fun p => (lock_key p, lock p))). exact Hp.
Qed.

(** X9: With pairwise distinct name-version keys, to_packages(from_packages(pkgs)) is a permutation of pkgs with each package reduced to name, version, summary and requires_dist (other fields empty). *)
Theorem lockfile_to_packages (pkgs : list Package) (py g : rstring) :
  NoDup (map lock_key pkgs) ->
  to_packages (from_packages pkgs py g) ≡ₚ
    map (fun p => mkPackage (package.name p) (package.version p) (package.summary p)
                    None None None None (package.requires_dist p) []) pkgs.
Proof.
  intros Hnd. unfold to_packages. rewrite (values_perm pkgs py g Hnd), map_map. reflexivity.
Qed.

(** X10: With pairwise distinct name-version keys, package_names of from_packages(pkgs) is a permutation of the packages' names, and has_package(n) holds exactly when n is the name of an input package. *)
Theorem lockfile_package_names (pkgs : list Package) (py g : rstring) :
  NoDup (map lock_key pkgs) ->
  package_names (from_packages pkgs py g) ≡ₚ map package.name pkgs /\
  forall n, has_package (from_packages pkgs py g) n = true <-> In n (map package.name pkgs).
Proof.
  intros Hnd. split.
  - unfold package_names. rewrite (values_perm pkgs py g Hnd), map_map. reflexivity.
  - intros n. unfold has_package. rewrite existsb_exists. split.
    + intros (l & Hl & E). apply list_elem_of_In in Hl. rewrite (values_perm pkgs py g Hnd) in Hl.
      apply list_elem_of_In, in_map_iff in Hl as (p & <- & Hp).
      unfold rstring_eqb in E. destruct (decide _) as [Ed|]; [|discriminate].
      apply in_map_iff. exists p. split; [exact Ed|exact Hp].
    + intros Hn. apply in_map_iff in Hn as (p & <- & Hp). exists (lock p). split.
      * apply list_elem_of_In. rewrite (values_perm pkgs py g Hnd).
        apply list_elem_of_In. apply in_map. exact Hp.
      * unfold rstring_eqb. simpl. destruct (decide _); [reflexivity|congruence].
Qed.

End lockfile_props.

Section constraints_props.
Import resolver.

Lemma set_constraints_fold (m : gmap rstring (list requirement.Requirement))
    (cs : list requirement.Requirement) (n : rstring) :
  default [] (fold_left constraints_step cs m !! n) =
    default [] (m !! n) ++ List.filter (fun q => rstring_eqb (requirement.name q) n) cs /\
  (is_Some (fold_left constraints_step cs m !! n) <->
     is_Some (m !! n) \/ exists q, In q cs /\ requirement.name q = n).
Proof.
  revert m; induction cs as [|q cs IH]; intros m; cbn [fold_left List.filter].
  - rewrite app_nil_r. split; [reflexivity|]. split; [tauto|]. intros [H0|(q & [] & _)]. exact H0.
  - destruct (IH (constraints_step m q)) as [E1 E2].
    split.
    + rewrite E1. unfold constraints_step.
      replace (match m !! requirement.name q with Some l => l | None => [] end)
        with (default [] (m !! requirement.name q)) by (destruct (m !! _); reflexivity).
      unfold rstring_eqb. destruct (decide (requirement.name q = n)) as [<-|Hne].
      * rewrite lookup_insert_eq. simpl. rewrite <- app_assoc. reflexivity.
      * rewrite lookup_insert_ne by exact Hne. reflexivity.
    + rewrite E2. unfold constraints_step.
      destruct (decide (requirement.name q = n)) as [<-|Hne].
      * rewrite lookup_insert_eq. split; [intros _; right; exists q; split; [left|]; reflexivity|].
        intros _. left. eexists. reflexivity.
      * rewrite lookup_insert_ne by exact Hne. split.
        -- intros [H0|(q' & Hq' & E)]; [left; exact H0|right; exists q'; split; [right|]; assumption].
        -- intros [H0|(q' & [<-|Hq'] & E)]; [left; exact H0|congruence|right; exists q'; auto].
Qed.

(** X11: set_constraints appends, for each name, the given constraints with that name in their order to the constraints already stored for it, creates an entry only for names that occur, and leaves the package cache, visited set, environment and version cache unchanged. *)
Theorem set_constraints_lookup (r : Resolver) (cs : list requirement.Requirement) (n : rstring) :
  default [] (constraints (set_constraints r cs) !! n) =
    default [] (constraints r !! n) ++ List.filter (fun q => rstring_eqb (requirement.name q) n) cs /\
  (is_Some (constraints (set_constraints r cs) !! n) <->
     is_Some (constraints r !! n) \/ exists q, In q cs /\ requirement.name q = n) /\
  cache (set_constraints r cs) = cache r /\ visited (set_constraints r cs) = visited r /\
  environment (set_constraints r cs) = environment r /\
  version_cache (set_constraints r cs) = version_cache r.
Proof.
  destruct (set_constraints_fold (constraints r) cs n) as [E1 E2].
  unfold set_constraints. fold constraints_step. simpl. split; [exact E1|]. split; [exact E2|].
  repeat split.
Qed.

End constraints_props.

Section version_props.
Import resolver requirement.

Lemma check_version_spec_holds (r : Resolver) (v : rstring) (sp : VersionSpec) :
  version_cache_consistent r ->
  fst (check_version_spec r v sp) =
    version_op_holds (op sp) (parse_version v) (parse_version (version sp)) /\
  version_cache_consistent (snd (check_version_spec r v sp)).
Proof.
  intros Hc. unfold check_version_spec.
  pose proof (parse_version_cached_spec r v Hc) as [E1 C1].
  destruct (parse_version_cached r v) as [p1 r1]. simpl in E1, C1.
  pose proof (parse_version_cached_spec r1 (version sp) C1) as [E2 C2].
  destruct (parse_version_cached r1 (version sp)) as [p2 r2]. simpl in E2, C2.
  subst. split; [reflexivity|exact C2].
Qed.

Lemma cmp_parts_refl (a : list Z) : cmp_parts a a = Eq.
Proof. induction a as [|x a IH]; simpl; [reflexivity|]. rewrite Z.compare_refl. exact IH. Qed.

Lemma cmp_parts_nil_r (a : list Z) : cmp_parts a [] = CompOpp (cmp_zero_parts a).
Proof.
  induction a as [|x a IH]; cbn [cmp_parts cmp_zero_parts]; [reflexivity|].
  rewrite (Z.compare_antisym x 0). destruct (x ?= 0); simpl; try exact IH; reflexivity.
Qed.

Lemma cmp_parts_antisym (a b : list Z) : cmp_parts b a = CompOpp (cmp_parts a b).
Proof.
  revert b; induction a as [|x a IH]; intros [|y b]; cbn [cmp_parts cmp_zero_parts].
  - reflexivity.
  - exact (cmp_parts_nil_r (y :: b)).
  - rewrite (Z.compare_antisym x 0). specialize (IH []). cbn [cmp_parts] in IH.
    destruct (x ?= 0); simpl; try exact IH; reflexivity.
  - rewrite (Z.compare_antisym x y). destruct (x ?= y); simpl; try exact (IH b); reflexivity.
Qed.

Lemma cmp_parts_trailing_zero (a b : list Z) : cmp_parts (a ++ [0]) b = cmp_parts a b.
Proof.
  revert b; induction a as [|x a IH]; intros [|y b]; simpl.
  - reflexivity.
  - reflexivity.
  - rewrite IH. reflexivity.
  - rewrite IH. reflexivity.
Qed.

Lemma cmp_parts_trailing_zero_r (a b : list Z) : cmp_parts a (b ++ [0]) = cmp_parts a b.
Proof.
  rewrite (cmp_parts_antisym (b ++ [0]) a), cmp_parts_trailing_zero.
  rewrite <- cmp_parts_antisym. reflexivity.
Qed.

Lemma nth0_trailing_zero (l : list Z) (i : nat) : nth0 (l ++ [0]) i = nth0 l i.
Proof.
  unfold nth0. destruct (decide (i < length l)%nat) as [Hi|Hi].
  - rewrite lookup_app_l by exact Hi. reflexivity.
  - rewrite lookup_app_r by lia. rewrite (lookup_ge_None_2 l i) by lia.
    destruct (i - length l)%nat as [|k]; [reflexivity|].
    simpl. destruct k; reflexivity.
Qed.

Lemma split_char_nonempty (sep : Z) (s : rstring) : split_char sep s <> [].
Proof.
  induction s as [|c t IH]; simpl; [discriminate|].
  destruct (c =? sep); [discriminate|]. destruct (split_char sep t); discriminate.
Qed.

Lemma split_char_app_sep (sep : Z) (a b : rstring) :
  split_char sep (a ++ sep :: b) = split_char sep a ++ split_char sep b.
Proof.
  induction a as [|c a IH]; simpl.
  - rewrite Z.eqb_refl. reflexivity.
  - rewrite IH. destruct (c =? sep); [reflexivity|].
    destruct (split_char sep a) as [|w ws] eqn:E.
    + exfalso. exact (split_char_nonempty sep a E).
    + reflexivity.
Qed.

Lemma parse_version_app_dot (a b : rstring) :
  parse_version (a ++ 46 :: b) = parse_version a ++ parse_version b.
Proof. unfold parse_version. rewrite split_char_app_sep. apply omap_app. Qed.

Lemma str_dot_zero : str ".0" = [46; 48].
Proof. reflexivity. Qed.

Lemma parse_version_dot_zero (v : rstring) :
  parse_version (v ++ str ".0") = parse_version v ++ [0].
Proof. rewrite str_dot_zero. apply parse_version_app_dot. Qed.

Lemma version_op_holds_trailing_zero (o : VersionOp.t) (a b : list Z) :
  version_op_holds o (a ++ [0]) b = version_op_holds o a b /\
  version_op_holds o a (b ++ [0]) = version_op_holds o a b.
Proof.
  unfold version_op_holds.
  rewrite cmp_parts_trailing_zero, cmp_parts_trailing_zero_r, !nth0_trailing_zero.
  split; reflexivity.
Qed.

(** X12: With a version cache holding only correct parses, a version satisfies the specs ==v, <=v, >=v and ~=v with itself as v, and fails !=v, <v and >v. *)
Theorem check_version_spec_self (r : Resolver) (v : rstring) (o : VersionOp.t) :
  version_cache_consistent r ->
  fst (check_version_spec r v (mkVersionSpec o v)) =
    match o with VersionOp.NotEq | VersionOp.Lt | VersionOp.Gt => false | _ => true end.
Proof.
  intros Hc. rewrite (proj1 (check_version_spec_holds r v _ Hc)). simpl.
  unfold version_op_holds. rewrite cmp_parts_refl, !Z.eqb_refl.
  destruct o; reflexivity.
Qed.

(** X13: With a consistent version cache, version v satisfies <w exactly when w satisfies >v, <=w exactly when w satisfies >=v, and == and != are symmetric. *)
Theorem check_version_spec_mirror (r : Resolver) (v w : rstring) :
  version_cache_consistent r ->
  fst (check_version_spec r v (mkVersionSpec VersionOp.Lt w)) =
    fst (check_version_spec r w (mkVersionSpec VersionOp.Gt v)) /\
  fst (check_version_spec r v (mkVersionSpec VersionOp.LtEq w)) =
    fst (check_version_spec r w (mkVersionSpec VersionOp.GtEq v)) /\
  fst (check_version_spec r v (mkVersionSpec VersionOp.Eq w)) =
    fst (check_version_spec r w (mkVersionSpec VersionOp.Eq v)) /\
  fst (check_version_spec r v (mkVersionSpec VersionOp.NotEq w)) =
    fst (check_version_spec r w (mkVersionSpec VersionOp.NotEq v)).
Proof.
  intros Hc. rewrite !(fun v sp => proj1 (check_version_spec_holds r v sp Hc)). simpl.
  unfold version_op_holds. rewrite (cmp_parts_antisym (parse_version v)).
  destruct (cmp_parts (parse_version v) (parse_version w)); repeat split.
Qed.

(** X14: With a consistent version cache, appending .0 to the checked version or to the spec's version changes the result of no version check, for every operator. *)
Theorem check_version_spec_trailing_zero (r : Resolver) (v w : rstring) (o : VersionOp.t) :
  version_cache_consistent r ->
  fst (check_version_spec r (v ++ str ".0") (mkVersionSpec o w)) =
    fst (check_version_spec r v (mkVersionSpec o w)) /\
  fst (check_version_spec r v (mkVersionSpec o (w ++ str ".0"))) =
    fst (check_version_spec r v (mkVersionSpec o w)).
Proof.
  intros Hc. rewrite !(fun v sp => proj1 (check_version_spec_holds r v sp Hc)). simpl.
  rewrite !parse_version_dot_zero.
  destruct (version_op_holds_trailing_zero o (parse_version v) (parse_version w)) as [E1 E2].
  split; assumption.
Qed.

Lemma forallb_pointwise {A} (f g : A -> bool) (l : list A) :
  (forall x, f x = g x) -> forallb f l = forallb g l.
Proof. intros E. induction l as [|x l IH]; simpl; [reflexivity|]. rewrite E, IH. reflexivity. Qed.

Lemma satisfies_version_forallb (r : Resolver) (v : rstring) (specs : list VersionSpec) :
  version_cache_consistent r ->
  fst (satisfies_version r v specs) = forallb (fun sp => fst (check_version_spec r v sp)) specs /\
  version_cache_consistent (snd (satisfies_version r v specs)).
Proof.
  revert r; induction specs as [|sp specs IH]; intros r Hc; simpl; [split; [reflexivity|exact Hc]|].
  destruct (check_version_spec_holds r v sp Hc) as [E C].
  destruct (check_version_spec r v sp) as [b r1] eqn:Ech. simpl in E, C |- *.
  destruct b.
  - destruct (IH r1 C) as [E' C']. split; [|exact C'].
    rewrite E'. f_equal. apply forallb_pointwise. intros sp'.
    rewrite (proj1 (check_version_spec_holds r1 v sp' C)), (proj1 (check_version_spec_holds r v sp' Hc)).
    reflexivity.
  - split; [reflexivity|exact C].
Qed.

(** X15: With a consistent version cache, satisfies_version returns whether every spec holds when each is checked on its own from the starting resolver, the constraints loop returns the same over all constraints, and both keep the cache consistent. *)
Theorem satisfies_version_all (r : Resolver) (v : rstring) (specs : list VersionSpec)
    (cs : list Requirement) :
  version_cache_consistent r ->
  fst (satisfies_version r v specs) = forallb (fun sp => fst (check_version_spec r v sp)) specs /\
  version_cache_consistent (snd (satisfies_version r v specs)) /\
  fst (satisfies_constraints r v cs) =
    forallb (fun c => forallb (fun sp => fst (check_version_spec r v sp)) (requirement.specs c)) cs /\
  version_cache_consistent (snd (satisfies_constraints r v cs)).
Proof.
  intros Hc. destruct (satisfies_version_forallb r v specs Hc) as [E C].
  split; [exact E|]. split; [exact C|].
  clear E C. revert r Hc; induction cs as [|c cs IH]; intros r Hc; simpl; [split; [reflexivity|exact Hc]|].
  destruct (satisfies_version_forallb r v (requirement.specs c) Hc) as [E C].
  destruct (satisfies_version r v (requirement.specs c)) as [b r1]. simpl in E, C |- *.
  subst b. destruct (forallb _ (requirement.specs c)) eqn:Eb; simpl; [|split; [reflexivity|exact C]].
  destruct (IH r1 C) as [E' C']. split; [|exact C'].
  rewrite E'. apply forallb_pointwise. intros c'. apply forallb_pointwise. intros sp'.
  rewrite (proj1 (check_version_spec_holds r1 v sp' C)), (proj1 (check_version_spec_holds r v sp' Hc)).
  reflexivity.
Qed.

End version_props.

Section marker_compare.
Import marker.

(** X16: The marker evaluator's compare_versions is antisymmetric (swapping the arguments negates the result), returns 0 on equal strings, and ignores a trailing .0 on its first argument. *)
Theorem compare_versions_antisym (v1 v2 : rstring) :
  compare_versions v2 v1 = - compare_versions v1 v2 /\
  compare_versions v1 v1 = 0 /\
  compare_versions (v1 ++ str ".0") v2 = compare_versions v1 v2.
Proof.
  unfold compare_versions. rewrite (cmp_parts_antisym (parse_version v1)), cmp_parts_refl,
    parse_version_dot_zero, cmp_parts_trailing_zero.
  destruct (cmp_parts (parse_version v1) (parse_version v2)); repeat split.
Qed.

End marker_compare.

Section slicing.

Lemma starts_with_app (pat s : rstring) :
  starts_with pat s = true -> exists b, s = pat ++ b.
Proof.
  revert s; induction pat as [|p pat IH]; intros s Hs; simpl in *.
  - exists s. reflexivity.
  - destruct s as [|c s]; [discriminate|].
    apply andb_true_iff in Hs as [Hp Hs]. apply Z.eqb_eq in Hp. subst c.
    destruct (IH s Hs) as [b ->]. exists b. reflexivity.
Qed.

Lemma starts_with_prefix (pat s x : rstring) :
  starts_with pat s = true -> starts_with pat (s ++ x) = true.
Proof.
  revert s; induction pat as [|p pat IH]; intros s Hs; simpl in *; [reflexivity|].
  destruct s as [|c s]; [discriminate|]. simpl.
  apply andb_true_iff in Hs as [Hp Hs]. rewrite Hp, (IH s Hs). reflexivity.
Qed.

Lemma starts_with_self (pat b : rstring) : starts_with pat (pat ++ b) = true.
Proof. induction pat as [|p pat IH]; simpl; [reflexivity|]. rewrite Z.eqb_refl. exact IH. Qed.

Lemma find_str_some (pat s : rstring) (i : nat) :
  find_str pat s = Some i -> exists a b, s = a ++ pat ++ b /\ i = byte_len a.
Proof.
  revert i; induction s as [|c t IH]; intros i Hf.
  - simpl in Hf. destruct (starts_with pat []) eqn:Es; [|discriminate].
    injection Hf as <-. destruct (starts_with_app _ _ Es) as [b Eb].
    exists [], b. split; [exact Eb|reflexivity].
  - simpl in Hf. destruct (starts_with pat (c :: t)) eqn:Es.
    + injection Hf as <-. destruct (starts_with_app _ _ Es) as [b Eb].
      exists [], b. split; [exact Eb|reflexivity].
    + destruct (find_str pat t) as [j|] eqn:Ej; [|discriminate].
      injection Hf as <-. destruct (IH j eq_refl) as (a & b & -> & ->).
      exists (c :: a), b. split; reflexivity.
Qed.

Lemma starts_with_length (pat s : rstring) :
  starts_with pat s = true -> (length pat <= length s)%nat.
Proof. intros Hs. destruct (starts_with_app _ _ Hs) as [b ->]. rewrite length_app. lia. Qed.

Lemma starts_with_app_short (pat s x : rstring) :
  starts_with pat (s ++ x) = true -> (length pat <= length s)%nat -> starts_with pat s = true.
Proof.
  revert s; induction pat as [|p pat IH]; intros s Hs Hl; simpl in *; [reflexivity|].
  destruct s as [|c s]; simpl in *; [lia|].
  apply andb_true_iff in Hs as [Hp Hs]. rewrite Hp. apply IH; [exact Hs|lia].
Qed.

Lemma find_str_length (pat s : rstring) (j : nat) :
  find_str pat s = Some j -> (length pat <= length s)%nat.
Proof.
  intros Hf. destruct (find_str_some _ _ _ Hf) as (a & b & -> & _).
  rewrite !length_app. lia.
Qed.

Lemma find_str_prefix (pat s x : rstring) (j : nat) :
  find_str pat s = Some j -> find_str pat (s ++ x) = Some j.
Proof.
  revert j; induction s as [|c t IH]; intros j Hf.
  - simpl in Hf. destruct (starts_with pat []) eqn:Es; [|discriminate].
    injection Hf as <-. destruct x as [|y x]; simpl; [rewrite Es; reflexivity|].
    pose proof (starts_with_prefix pat [] (y :: x) Es) as E'. simpl in E'. rewrite E'. reflexivity.
  - change ((c :: t) ++ x) with (c :: (t ++ x)). cbn [find_str] in Hf |- *.
    destruct (starts_with pat (c :: t)) eqn:Es.
    + pose proof (starts_with_prefix pat (c :: t) x Es) as E'. simpl app in E'.
      rewrite E'. exact Hf.
    + destruct (find_str pat t) as [j'|] eqn:Ej; [|discriminate].
      destruct (starts_with pat (c :: t ++ x)) eqn:Es'.
      * exfalso. pose proof (find_str_length _ _ _ Ej).
        change (c :: t ++ x) with ((c :: t) ++ x) in Es'.
        rewrite (starts_with_app_short pat (c :: t) x Es') in Es by (simpl; lia).
        discriminate.
      * rewrite (IH j' eq_refl). exact Hf.
Qed.

Lemma find_str_none_prefix (pat a x : rstring) :
  find_str pat (a ++ x) = None -> find_str pat a = None.
Proof.
  intros Hn. destruct (find_str pat a) as [j|] eqn:Ej; [|reflexivity].
  rewrite (find_str_prefix _ _ x _ Ej) in Hn. discriminate.
Qed.

Lemma find_str_none_suffix (pat x b : rstring) :
  find_str pat (x ++ b) = None -> find_str pat b = None.
Proof.
  induction x as [|c x IH]; intros Hn; [exact Hn|].
  cbn [find_str app] in Hn. destruct (starts_with pat _); [discriminate|].
  destruct (find_str pat (x ++ b)); [discriminate|]. apply IH. reflexivity.
Qed.

Lemma byte_len_pos (s : rstring) : s <> [] -> (0 < byte_len s)%nat.
Proof. destruct s as [|c s]; [congruence|]. intros _. simpl. pose proof (utf8_len_pos c). lia. Qed.

(** [find_str] reports the first occurrence: the text before it has none. *)
Lemma find_str_first (pat e : rstring) (i : nat) :
  pat <> [] -> find_str pat e = Some i ->
  exists a b, e = a ++ pat ++ b /\ i = byte_len a /\ find_str pat a = None.
Proof.
  intros Hp Hf. destruct (find_str_some _ _ _ Hf) as (a & b & -> & ->).
  exists a, b. split; [reflexivity|]. split; [reflexivity|].
  destruct (find_str pat a) as [j|] eqn:Ej; [|reflexivity]. exfalso.
  pose proof (find_str_prefix _ _ (pat ++ b) _ Ej) as Ej'. rewrite Hf in Ej'.
  injection Ej' as Ej'. destruct (find_str_some _ _ _ Ej) as (a1 & b1 & -> & ->).
  rewrite !byte_len_app in Ej'. pose proof (byte_len_pos pat Hp). lia.
Qed.

Lemma slice_from_app_add (a b : rstring) (k : nat) :
  slice_from (a ++ b) (byte_len a + k) = slice_from b k.
Proof.
  induction a as [|c a IH]; [reflexivity|].
  cbn [app byte_len]. pose proof (utf8_len_pos c).
  destruct (utf8_len c + byte_len a + k)%nat as [|n] eqn:En; [lia|].
  cbn [slice_from]. rewrite <- En. replace (Nat.ltb (utf8_len c + byte_len a + k) (utf8_len c)) with false
    by (symmetry; apply Nat.ltb_ge; lia).
  replace (utf8_len c + byte_len a + k - utf8_len c)%nat with (byte_len a + k)%nat by lia.
  exact IH.
Qed.

Lemma slice_at_match (a pat b : rstring) :
  slice_to (a ++ pat ++ b) (byte_len a) = Normal a /\
  slice_from (a ++ pat ++ b) (byte_len a + byte_len pat) = Normal b.
Proof.
  split; [apply slice_to_app|].
  rewrite slice_from_app_add. apply slice_from_app.
Qed.

End slicing.

Section marker_props.
Import marker.

Lemma paren_shape (s : rstring) :
  starts_with [40] s = true -> ends_with [41] s = true -> exists m, s = 40 :: m ++ [41].
Proof.
  intros H1 H2. destruct s as [|c t]; [discriminate|].
  cbn [starts_with] in H1. rewrite andb_true_r in H1. apply Z.eqb_eq in H1. subst c.
  unfold ends_with in H2. cbn [rev] in H2.
  destruct (rev t) as [|x u] eqn:Et.
  - cbn [app starts_with] in H2. discriminate.
  - cbn [app starts_with] in H2. rewrite andb_true_r in H2. apply Z.eqb_eq in H2. subst x.
    exists (rev u). rewrite <- (rev_involutive t), Et. reflexivity.
Qed.

Lemma paren_slice (m : rstring) :
  slice_range (40 :: m ++ [41]) 1 (byte_len (40 :: m ++ [41]) - 1) = Normal m.
Proof.
  assert (E : Nat.sub (byte_len (40 :: m ++ [41])) 1 = byte_len ([40] ++ m)).
  { change (40 :: m ++ [41]) with (([40] ++ m) ++ [41]). rewrite byte_len_app. simpl. lia. }
  rewrite E. unfold slice_range.
  replace (Nat.ltb (byte_len ([40] ++ m)) 1) with false
    by (symmetry; apply Nat.ltb_ge; rewrite byte_len_app; simpl; lia).
  change (40 :: m ++ [41]) with (([40] ++ m) ++ [41]).
  rewrite slice_to_app. simpl pbind. exact (slice_from_app [40] m).
Qed.

Lemma splitn2_normal (pat s : rstring) : splitn2 pat s <> Panic.
Proof.
  unfold splitn2. destruct (find_str pat s) as [i|] eqn:Ef; [|discriminate].
  destruct (find_str_some _ _ _ Ef) as (a & b & -> & ->).
  destruct (slice_at_match a pat b) as [E1 E2]. rewrite E1. simpl. rewrite E2. discriminate.
Qed.

Lemma evaluate_condition_normal (cond : rstring) (env : Environment) :
  evaluate_condition cond env <> Panic.
Proof.
  unfold evaluate_condition.
  assert (Hc : exists c, (if starts_with [40] (trim cond) && ends_with [41] (trim cond)
      then slice_range (trim cond) 1 (byte_len (trim cond) - 1) else Normal (trim cond)) = Normal c).
  { destruct (starts_with [40] (trim cond)) eqn:E1; [|eexists; reflexivity].
    destruct (ends_with [41] (trim cond)) eqn:E2; [|eexists; reflexivity].
    destruct (paren_shape _ E1 E2) as [m Em]. rewrite Em. exists m. apply paren_slice. }
  destruct Hc as [c Hc]. rewrite Hc. cbn [pbind].
  destruct (if contains (str "!=") c then _ else _) as [[o ops]|]; [|discriminate].
  destruct (splitn2 ops c) as [parts|] eqn:Es; [|exfalso; exact (splitn2_normal _ _ Es)].
  cbn [pbind]. destruct parts as [|p0 [|p1 [|]]]; discriminate.
Qed.

Lemma byte_len_or : byte_len (str " or ") = 4%nat.
Proof. reflexivity. Qed.

Lemma byte_len_and : byte_len (str " and ") = 5%nat.
Proof. reflexivity. Qed.

Lemma evaluate_expression_fuel_normal (fuel : nat) (e : rstring) (env : Environment) :
  evaluate_expression_fuel fuel e env <> Panic.
Proof.
  revert e; induction fuel as [|fuel IH]; intros e; cbn [evaluate_expression_fuel]; [discriminate|].
  destruct (find_str (str " or ") e) as [i|] eqn:Ef.
  - destruct (find_str_some _ _ _ Ef) as (a & b & -> & ->).
    destruct (slice_at_match a (str " or ") b) as [E1 E2]. rewrite byte_len_or in E2.
    rewrite E1. cbn [pbind]. rewrite E2. cbn [pbind].
    destruct (evaluate_expression_fuel fuel a env) as [[|]|] eqn:El.
    + discriminate.
    + apply IH.
    + exfalso. exact (IH a El).
  - destruct (find_str (str " and ") e) as [i|] eqn:Ef'.
    + destruct (find_str_some _ _ _ Ef') as (a & b & -> & ->).
      destruct (slice_at_match a (str " and ") b) as [E1 E2]. rewrite byte_len_and in E2.
      rewrite E1. cbn [pbind]. rewrite E2. cbn [pbind].
      destruct (evaluate_expression_fuel fuel a env) as [[|]|] eqn:El.
      * apply IH.
      * discriminate.
      * exfalso. exact (IH a El).
    + apply evaluate_condition_normal.
Qed.

(** X17: Marker::evaluate never panics, for any marker expression and any environment, including non-ASCII text. *)
Theorem evaluate_never_panics (m : Marker) (env : Environment) : evaluate m env <> Panic.
Proof. apply evaluate_expression_fuel_normal. Qed.

End marker_props.

Section ascii_parse.
Import requirement.
Context `{UnicodeTables}.

Lemma ascii_cons (c : Z) (t : rstring) :
  is_ascii (c :: t) = true <-> ((0 <= c < 128) /\ is_ascii t = true).
Proof.
  unfold is_ascii. simpl. rewrite andb_true_iff, andb_true_iff, Z.leb_le, Z.ltb_lt. tauto.
Qed.

Lemma ascii_utf8_len (c : Z) : 0 <= c < 128 -> utf8_len c = 1%nat.
Proof. intros Hc. unfold utf8_len. destruct (Z.ltb_spec c 128); [reflexivity|lia]. Qed.

Lemma ascii_slice_from (s : rstring) (k : nat) :
  is_ascii s = true -> (k <= length s)%nat -> slice_from s k = Normal (drop k s).
Proof.
  revert k; induction s as [|c t IH]; intros [|k] Ha Hk; simpl in Hk; try lia; try reflexivity.
  apply ascii_cons in Ha as [Hc Ha]. cbn [slice_from]. rewrite ascii_utf8_len by exact Hc.
  replace (Nat.ltb (S k) 1) with false by (symmetry; apply Nat.ltb_ge; lia).
  replace (S k - 1)%nat with k by lia. apply IH; [exact Ha|lia].
Qed.

Lemma ascii_slice_to (s : rstring) (k : nat) :
  is_ascii s = true -> (k <= length s)%nat -> slice_to s k = Normal (take k s).
Proof.
  revert k; induction s as [|c t IH]; intros [|k] Ha Hk; simpl in Hk; try lia; try reflexivity.
  apply ascii_cons in Ha as [Hc Ha]. cbn [slice_to]. rewrite ascii_utf8_len by exact Hc.
  replace (Nat.ltb (S k) 1) with false by (symmetry; apply Nat.ltb_ge; lia).
  replace (S k - 1)%nat with k by lia. rewrite IH by (exact Ha || lia). reflexivity.
Qed.

Lemma ascii_drop (s : rstring) (k : nat) : is_ascii s = true -> is_ascii (drop k s) = true.
Proof.
  revert k; induction s as [|c t IH]; intros [|k] Ha; simpl; auto.
  apply ascii_cons in Ha as [_ Ha]. apply IH. exact Ha.
Qed.

Lemma ascii_take (s : rstring) (k : nat) : is_ascii s = true -> is_ascii (take k s) = true.
Proof.
  revert k; induction s as [|c t IH]; intros [|k] Ha; simpl; auto.
  apply ascii_cons in Ha as [Hc Ha]. apply ascii_cons. split; [exact Hc|]. apply IH. exact Ha.
Qed.

Lemma ascii_rev (s : rstring) : is_ascii (rev s) = is_ascii s.
Proof.
  induction s as [|c t IH]; [reflexivity|]. simpl. rewrite ascii_app, IH.
  unfold is_ascii. simpl. rewrite andb_true_r, andb_comm. reflexivity.
Qed.

Lemma ascii_trim_start (s : rstring) : is_ascii s = true -> is_ascii (trim_start s) = true.
Proof.
  induction s as [|c t IH]; intros Ha; [reflexivity|]. simpl.
  destruct (is_whitespace c); [|exact Ha]. apply IH. apply ascii_cons in Ha. tauto.
Qed.

Lemma ascii_trim (s : rstring) : is_ascii s = true -> is_ascii (trim s) = true.
Proof.
  intros Ha. unfold trim, trim_end. rewrite ascii_rev.
  apply ascii_trim_start. rewrite ascii_rev. apply ascii_trim_start. exact Ha.
Qed.

Lemma ascii_find_char (p : Z -> bool) (s : rstring) (i : nat) :
  is_ascii s = true -> find_char p s = Some i ->
  (i < length s)%nat /\ (forall j, (j < i)%nat -> exists c, s !! j = Some c /\ p c = false).
Proof.
  revert i; induction s as [|c t IH]; intros i Ha Hf; [discriminate|].
  apply ascii_cons in Ha as [Hc Ha]. simpl in Hf.
  destruct (p c) eqn:Ep.
  - injection Hf as <-. simpl. split; [lia|]. intros j Hj. lia.
  - destruct (find_char p t) as [i'|] eqn:Ei; [|discriminate].
    injection Hf as <-. rewrite ascii_utf8_len by exact Hc.
    destruct (IH i' Ha eq_refl) as [Hl Hb]. simpl. split; [lia|].
    intros [|j] Hj; [exists c; split; [reflexivity|exact Ep]|].
    apply Hb. lia.
Qed.

Lemma scan_name_pos (bytes : list Z) (i : nat) (acc : rstring) (pos : nat) :
  (pos <= i)%nat -> (snd (scan_name bytes i acc pos) <= i + length bytes)%nat.
Proof.
  revert i acc pos; induction bytes as [|b t IH]; intros i acc pos Hp; simpl; [lia|].
  destruct (_ || _ || _); simpl.
  - specialize (IH (S i) (acc ++ [b]) (S i) ltac:(lia)). lia.
  - lia.
Qed.

Lemma op_prefix_skip (r : rstring) (o : VersionOp.t) (k : nat) :
  op_prefix r = Some (o, k) -> (k <= length r)%nat.
Proof.
  unfold op_prefix.
  repeat match goal with
  | |- context [if starts_with ?p r then _ else _] =>
      let E := fresh "E" in destruct (starts_with p r) eqn:E;
      [intros Ho; injection Ho as <- <-; apply starts_with_length in E; simpl in E; lia|]
  end.
  discriminate.
Qed.

Lemma specs_loop_ascii (fuel : nat) (s : rstring) (pos : nat) (specs : list VersionSpec) :
  is_ascii s = true -> specs_loop fuel s pos specs <> Panic.
Proof.
  intros Ha. revert pos specs; induction fuel as [|fuel IH]; intros pos specs; cbn [specs_loop];
    [discriminate|].
  rewrite (ascii_byte_len s Ha).
  destruct (Nat.ltb_spec pos (length s)) as [Hp|Hp]; [|discriminate].
  rewrite (ascii_slice_from s pos Ha) by lia. cbn [pbind].
  pose proof (ascii_trim_start _ (ascii_drop s pos Ha)) as Hr.
  destruct (trim_start (drop pos s)) as [|c0 t0] eqn:Er; [discriminate|].
  destruct (op_prefix (c0 :: t0)) as [[o skip]|] eqn:Eo; [|discriminate].
  rewrite (ascii_slice_from _ skip Hr) by (exact (op_prefix_skip _ _ _ Eo)). cbn [pbind].
  destruct (scan_version _ 0 [] 0) as [version version_end].
  destruct version as [|v0 vs]; [discriminate|].
  destruct (Nat.ltb_spec (pos + (byte_len (drop pos s) - byte_len (trim_start (drop skip (c0 :: t0))))
                          + version_end) (length s)) as [Hq|Hq]; [|apply IH].
  rewrite (ascii_slice_from s _ Ha) by lia. cbn [pbind].
  destruct (starts_with [44] _); apply IH.
Qed.

Lemma from_str_ascii_normal (s0 : rstring) : is_ascii s0 = true -> from_str s0 <> Panic.
Proof.
  intros Ha. unfold from_str.
  pose proof (ascii_trim s0 Ha) as Hs. set (s := trim s0) in *.
  assert (Hsplit : exists req_part marker, is_ascii req_part = true /\
    (match find_char (Z.eqb 59) s with
     | Some idx =>
         let! req := slice_to s idx in
         let! mk := slice_from s idx in
         let! m := slice_from mk 1 in
         Normal (trim req, Some (trim m))
     | None => Normal (s, None)
     end) = Normal (req_part, marker)).
  { destruct (find_char (Z.eqb 59) s) as [idx|] eqn:Ef; [|exists s, None; split; [exact Hs|reflexivity]].
    destruct (ascii_find_char _ _ _ Hs Ef) as [Hi _].
    rewrite (ascii_slice_to s idx Hs) by lia. cbn [pbind].
    rewrite (ascii_slice_from s idx Hs) by lia. cbn [pbind].
    rewrite (ascii_slice_from (drop idx s) 1 (ascii_drop s idx Hs)) by (rewrite length_drop; lia).
    cbn [pbind]. eexists _, _. split; [|reflexivity]. apply ascii_trim, ascii_take, Hs. }
  destruct Hsplit as (req_part & marker & Hrp & Esplit). rewrite Esplit. cbn [pbind].
  rewrite (ascii_as_bytes req_part Hrp).
  pose proof (scan_name_pos req_part 0 [] 0 ltac:(lia)) as Hpos.
  destruct (scan_name req_part 0 [] 0) as [name pos]. simpl in Hpos.
  rewrite (ascii_slice_from req_part pos Hrp) by lia. cbn [pbind].
  pose proof (ascii_drop req_part pos Hrp) as Hrem. set (rem := drop pos req_part) in *.
  assert (Hext : exists extras spec_start, (spec_start <= length rem)%nat /\
    (if starts_with [91] rem then
       match find_char (Z.eqb 93) rem with
       | Some bracket_end =>
           let! extras_str := slice_range rem 1 bracket_end in
           Normal (map trim (split_char 44 extras_str), S bracket_end)
       | None => Normal ([], 0%nat)
       end
     else Normal ([], 0%nat)) = Normal (extras, spec_start)).
  { destruct (starts_with [91] rem) eqn:Eb; [|exists [], 0%nat; split; [lia|reflexivity]].
    destruct (find_char (Z.eqb 93) rem) as [be|] eqn:Ef; [|exists [], 0%nat; split; [lia|reflexivity]].
    destruct (ascii_find_char _ _ _ Hrem Ef) as [Hbe Hbefore].
    assert (Hbe1 : (1 <= be)%nat).
    { destruct be as [|be]; [|lia]. exfalso.
      destruct rem as [|c rem']; [discriminate|]. cbn [starts_with] in Eb.
      rewrite andb_true_r in Eb. apply Z.eqb_eq in Eb. subst c.
      simpl in Ef. destruct (find_char _ rem'); [injection Ef; lia|discriminate]. }
    unfold slice_range. replace (Nat.ltb be 1) with false by (symmetry; apply Nat.ltb_ge; lia).
    rewrite (ascii_slice_to rem be Hrem) by lia. cbn [pbind].
    rewrite (ascii_slice_from (take be rem) 1 (ascii_take rem be Hrem))
      by (rewrite length_take; lia).
    cbn [pbind]. eexists _, _. split; [|reflexivity]. lia. }
  destruct Hext as (extras & spec_start & Hss & Eext). rewrite Eext. cbn [pbind].
  rewrite (ascii_slice_from rem spec_start Hrem Hss). cbn [pbind].
  destruct (trim (drop spec_start rem)) as [|c1 t1] eqn:Evp.
  - cbn [pbind]. discriminate.
  - unfold parse_version_specs.
    destruct (specs_loop _ _ 0 []) as [res|] eqn:El.
    + cbn [pbind]. destruct res; discriminate.
    + exfalso. refine (specs_loop_ascii _ _ _ _ _ El).
      apply ascii_trim. rewrite <- Evp. apply ascii_trim, ascii_drop, Hrem.
Qed.

(** X19: Requirement::from_str never panics on an ASCII input string. *)
Theorem from_str_ascii_no_panic (s0 : rstring) : is_ascii s0 = true -> from_str s0 <> Panic.
Proof. apply from_str_ascii_normal. Qed.

End ascii_parse.

Section resolve_ascii.
Import resolver package requirement.
Context `{UnicodeTables}.

Lemma expand_deps_ascii (env : marker.Environment) (vis : gset rstring) (deps : list rstring)
    (q : list requirement.Requirement) :
  Forall (fun d => is_ascii d = true) deps -> expand_deps env vis deps q <> Panic.
Proof.
  intros Hd. revert q; induction Hd as [|d deps Hd Hds IH]; intros q; cbn [expand_deps]; [discriminate|].
  destruct (from_str d) as [parsed|] eqn:Ep; [|exfalso; exact (from_str_ascii_normal d Hd Ep)].
  cbn [pbind]. destruct parsed as [dep_req|]; [|apply IH].
  assert (Ha : exists b, (match requirement.marker dep_req with
            | Some marker_str =>
                match marker.parse marker_str with
                | Ok m => marker.evaluate m env
                | Err _ => Normal true
                end
            | None => Normal true
            end) = Normal b).
  { destruct (requirement.marker dep_req) as [ms|]; [|eexists; reflexivity].
    destruct (marker.parse ms) as [m|]; [|eexists; reflexivity].
    destruct (marker.evaluate m env) as [b|] eqn:Ee; [eexists; reflexivity|].
    exfalso. exact (evaluate_expression_fuel_normal _ _ env Ee). }
  destruct Ha as [b Eb]. rewrite Eb. cbn [pbind].
  destruct b; [destruct (bool_decide _)|]; apply IH.
Qed.

Lemma process_result_ascii (st : LoopState) (res : FetchResult) :
  (forall p, (res.1).1.2 = FetchOk p -> ascii_deps p) -> process_result st res <> Panic.
Proof.
  destruct res as [[[n fetched] specs] cr]. simpl. intros Hp.
  unfold process_result.
  destruct fetched as [pkg| |]; try discriminate.
  destruct (satisfies_version (rv st) (package.version pkg) specs) as [ok r1].
  destruct (negb ok); [discriminate|].
  destruct (match cr with Some cs => _ | None => _ end) as [okc r2].
  destruct (negb okc); [discriminate|].
  destruct (expand_deps _ _ _ _) as [q|] eqn:Ee; [discriminate|].
  exfalso. exact (expand_deps_ascii _ _ _ _ (Hp pkg eq_refl) Ee).
Qed.

Section fetcher.
Variable fetch : rstring -> Fetched.
Variable max_concurrent : nat.
Hypothesis fetch_ascii : forall n p, fetch n = FetchOk p -> ascii_deps p.

Lemma process_results_ascii (st : LoopState) (reqs : list requirement.Requirement)
    (r1 : Resolver) :
  process_results st (map (fun req =>
      (requirement.name req, fetch (requirement.name req),
       requirement.specs req, constraints r1 !! requirement.name req)) reqs) <> Panic.
Proof.
  revert st; induction reqs as [|req reqs IH]; intros st; cbn [process_results map]; [discriminate|].
  destruct (process_result st (requirement.name req, fetch (requirement.name req), requirement.specs req, constraints r1 !! requirement.name req)) as [st'|] eqn:Ep.
  - cbn [pbind]. apply IH.
  - exfalso. eapply (process_result_ascii st); [|exact Ep]. simpl. apply fetch_ascii.
Qed.

Lemma iteration_ascii (st : LoopState) : iteration fetch max_concurrent st <> Panic.
Proof.
  unfold iteration. destruct (queue st); [discriminate|].
  destruct (take_batch max_concurrent _ _ _) as [[vis batch] q].
  destruct batch as [|b bs]; [discriminate|].
  destruct (process_results _ _) as [st2|] eqn:Ep; [discriminate|].
  exfalso. exact (process_results_ascii _ (b :: bs) _ Ep).
Qed.

Lemma run_ascii (fuel : nat) (st : LoopState) : run fetch max_concurrent fuel st <> Some Panic.
Proof.
  revert st; induction fuel as [|fuel IH]; intros st; cbn [run]; [discriminate|].
  destruct (iteration fetch max_concurrent st) as [[st'|st']|] eqn:Ei;
    [discriminate|apply IH|exfalso; exact (iteration_ascii st Ei)].
Qed.

(** X20: If every package the metadata source returns has only ASCII requires_dist strings, resolve_concurrent panics exactly when its batch size exceeds Semaphore::MAX_PERMITS (usize::MAX >> 3), for any starting resolver and requirements; so resolve, with batch size 10, never panics. *)
Theorem resolve_concurrent_ascii_no_panic (fuel : nat) (r : Resolver)
    (reqs : list requirement.Requirement) :
  resolve_concurrent fetch max_concurrent fuel r reqs <> Some Panic <->
  (Z.of_nat max_concurrent <= MAX_PERMITS)%Z.
Proof.
  unfold resolve_concurrent. pose proof (run_ascii fuel (start r reqs)) as Hr.
  destruct (Z.of_nat max_concurrent >? MAX_PERMITS) eqn:Em.
  - apply Z.gtb_lt in Em. split; [congruence|lia].
  - rewrite Z.gtb_ltb, Z.ltb_ge in Em. split; [intros _; exact Em|].
    destruct (run fetch max_concurrent fuel (start r reqs)) as [[st|]|]; congruence.
Qed.

End fetcher.

Lemma check_version_spec_cache (r : Resolver) (v : rstring) (sp : requirement.VersionSpec) :
  cache (snd (check_version_spec r v sp)) = cache r.
Proof.
  unfold check_version_spec, parse_version_cached.
  destruct (version_cache r !! v); cbn;
    [destruct (version_cache r !! requirement.version sp)
    |destruct (<[v:=parse_version v]> (version_cache r) !! requirement.version sp)];
    reflexivity.
Qed.

Lemma satisfies_version_cache (r : Resolver) v specs :
  cache (snd (satisfies_version r v specs)) = cache r.
Proof.
  revert r; induction specs as [|sp specs IH]; intros r; cbn [satisfies_version]; [reflexivity|].
  pose proof (check_version_spec_cache r v sp) as E.
  destruct (check_version_spec r v sp) as [b r1]. simpl in E.
  destruct b; simpl; [rewrite IH|]; exact E.
Qed.

Lemma satisfies_constraints_cache (r : Resolver) v cs :
  cache (snd (satisfies_constraints r v cs)) = cache r.
Proof.
  revert r; induction cs as [|c cs IH]; intros r; cbn [satisfies_constraints]; [reflexivity|].
  pose proof (satisfies_version_cache r v (requirement.specs c)) as E.
  destruct (satisfies_version r v (requirement.specs c)) as [b r1]. simpl in E.
  destruct b; simpl; [rewrite IH|]; exact E.
Qed.

Section seq_fetcher.
Variable fetch : rstring -> Fetched.
Hypothesis fetch_ascii : forall n p, fetch n = FetchOk p -> ascii_deps p.

Lemma get_package_ascii (r : Resolver) (n : rstring) (log : list rstring) :
  cache_ascii r ->
  cache_ascii (get_package fetch r n log).1.2 /\
  (forall p, (get_package fetch r n log).1.1 = Some p -> ascii_deps p).
Proof.
  intros Hc. unfold get_package.
  destruct (cache r !! n) as [pkg|] eqn:En.
  - split; [exact Hc|]. intros p Ep. injection Ep as <-. exact (Hc n pkg En).
  - destruct (fetch n) as [pkg| |] eqn:Ef; simpl; [|split; [exact Hc|discriminate]..].
    split.
    + intros k p Hk. simpl in Hk. destruct (decide (n = k)) as [<-|Hne].
      * rewrite lookup_insert_eq in Hk. injection Hk as <-. exact (fetch_ascii n pkg Ef).
      * rewrite lookup_insert_ne in Hk by exact Hne. exact (Hc k p Hk).
    + intros p Ep. injection Ep as <-. exact (fetch_ascii n pkg Ef).
Qed.

Lemma seq_step_ascii (st : LoopState) :
  cache_ascii (rv st) ->
  match seq_step fetch st with
  | Panic => False
  | Normal (Done _) => True
  | Normal (Continue st') => cache_ascii (rv st')
  end.
Proof.
  intros Hc. unfold seq_step.
  destruct (queue st) as [|req q]; [exact I|].
  destruct (bool_decide _); [exact Hc|].
  set (r0 := set_visited (rv st) _).
  assert (Hc0 : cache_ascii r0) by exact Hc.
  pose proof (get_package_ascii r0 (requirement.name req) (fetch_log st) Hc0) as [Hc1 Hp].
  destruct (get_package fetch r0 (requirement.name req) (fetch_log st)) as [[res r1] log].
  simpl in Hc1, Hp.
  destruct res as [pkg|]; [|exact Hc1].
  pose proof (satisfies_version_cache r1 (package.version pkg) (requirement.specs req)) as E2.
  destruct (satisfies_version r1 _ _) as [ok r2]. simpl in E2.
  assert (Hc2 : cache_ascii r2) by (unfold cache_ascii; rewrite E2; exact Hc1).
  destruct (negb ok); [exact Hc2|].
  assert (Hcs : cache_ascii (match constraints r2 !! requirement.name req with
                 | Some cs => satisfies_constraints r2 (package.version pkg) cs
                 | None => (true, r2) end).2).
  { destruct (constraints r2 !! requirement.name req) as [cs|]; [|exact Hc2].
    unfold cache_ascii. rewrite satisfies_constraints_cache. exact Hc2. }
  destruct (match constraints r2 !! requirement.name req with
            | Some cs => satisfies_constraints r2 (package.version pkg) cs
            | None => (true, r2) end) as [okc r3].
  simpl in Hcs. destruct (negb okc); [exact Hcs|].
  destruct (expand_deps _ _ _ _) as [q'|] eqn:Ee; [exact Hcs|].
  exact (expand_deps_ascii _ _ _ _ (Hp pkg eq_refl) Ee).
Qed.

Lemma run_seq_ascii (fuel : nat) (st : LoopState) :
  cache_ascii (rv st) -> run_seq fetch fuel st <> Some Panic.
Proof.
  revert st; induction fuel as [|fuel IH]; intros st Hc; cbn [run_seq]; [discriminate|].
  pose proof (seq_step_ascii st Hc) as Hs.
  destruct (seq_step fetch st) as [[st'|st']|]; [discriminate|apply IH; exact Hs|destruct Hs].
Qed.

(** X21: If every package in the resolver's cache and every package the metadata source returns has only ASCII requires_dist strings, resolve_sequential never panics. *)
Theorem resolve_sequential_ascii_no_panic (fuel : nat) (r : Resolver)
    (reqs : list requirement.Requirement) :
  cache_ascii r -> resolve_sequential fetch fuel r reqs <> Some Panic.
Proof.
  intros Hc. unfold resolve_sequential. pose proof (run_seq_ascii fuel (start r reqs) Hc) as Hr.
  destruct (run_seq fetch fuel (start r reqs)) as [[st|]|]; congruence.
Qed.

End seq_fetcher.
End resolve_ascii.

Section seq_once.
Import resolver package requirement.
Context `{UnicodeTables}.
Variable fetch : rstring -> Fetched.

Lemma get_package_frame (r : Resolver) (n : rstring) (log : list rstring) :
  let '(res, r1, log') := get_package fetch r n log in
  visited r1 = visited r /\
  (forall k, is_Some (cache r !! k) -> is_Some (cache r1 !! k)) /\
  (log' = log /\ is_Some (cache r !! n) \/ log' = log ++ [n] /\ cache r !! n = None).
Proof.
  unfold get_package. destruct (cache r !! n) as [pkg|] eqn:En.
  - split; [reflexivity|]. split; [tauto|]. left. split; [reflexivity|eexists; reflexivity].
  - destruct (fetch n) as [pkg| |].
    + split; [reflexivity|]. split; [|right; split; reflexivity].
      intros k Hk. simpl. destruct (decide (n = k)) as [<-|Hne].
      * rewrite lookup_insert_eq. eexists; reflexivity.
      * rewrite lookup_insert_ne by exact Hne. exact Hk.
    + split; [reflexivity|]. split; [tauto|]. right. split; reflexivity.
    + split; [reflexivity|]. split; [tauto|]. right. split; reflexivity.
Qed.

Lemma seq_step_inv (r0 : Resolver) (st : LoopState) :
  seq_inv r0 st ->
  match seq_step fetch st with
  | Normal (Done st') | Normal (Continue st') => seq_inv r0 st'
  | Panic => True
  end.
Proof.
  intros (Hnd & Hlog & Hvis & Hcache). unfold seq_step.
  destruct (queue st) as [|req q]; [exact (conj Hnd (conj Hlog (conj Hvis Hcache)))|].
  destruct (bool_decide (requirement.name req ∈ visited (rv st))) eqn:Ev;
    [exact (conj Hnd (conj Hlog (conj Hvis Hcache)))|].
  apply bool_decide_eq_false in Ev.
  set (r1 := set_visited (rv st) ({[requirement.name req]} ∪ visited (rv st))).
  pose proof (get_package_frame r1 (requirement.name req) (fetch_log st)) as Hg.
  destruct (get_package fetch r1 (requirement.name req) (fetch_log st)) as [[res r2] log].
  destruct Hg as (Hv2 & Hc2 & Hl).
  assert (Hinv : forall r', visited r' = visited r2 ->
            (forall k, is_Some (cache r2 !! k) -> is_Some (cache r' !! k)) ->
            forall q' res', seq_inv r0 (mkLoop r' q' res' log)).
  { intros r' Ev' Ec' q' res'. unfold seq_inv; cbn [fetch_log rv].
    assert (Hsub : visited (rv st) ⊆ visited r') by (rewrite Ev', Hv2; simpl; set_solver).
    assert (Hin : requirement.name req ∈ visited r') by (rewrite Ev', Hv2; simpl; set_solver).
    assert (Hcs : forall k, is_Some (cache (rv st) !! k) -> is_Some (cache r' !! k))
      by (intros k Hk; apply Ec', Hc2; exact Hk).
    destruct Hl as [[-> _]|[-> Hmiss]].
    - split; [exact Hnd|]. split; [|split; [set_solver|intros k Hk; apply Hcs, Hcache, Hk]].
      intros n Hn. destruct (Hlog n Hn) as (A & B & C). split; [set_solver|split; assumption].
    - split; [|split; [|split; [set_solver|intros k Hk; apply Hcs, Hcache, Hk]]].
      + apply NoDup_app. split; [exact Hnd|]. split; [|apply NoDup_singleton].
        intros n Hn Hn'. apply list_elem_of_singleton in Hn' as ->.
        apply Ev. exact (proj1 (Hlog _ Hn)).
      + intros n Hn. apply elem_of_app in Hn as [Hn|Hn].
        * destruct (Hlog n Hn) as (A & B & C). split; [set_solver|split; assumption].
        * apply list_elem_of_singleton in Hn as ->. split; [exact Hin|]. split.
          -- intros Hn0. apply Ev, Hvis, Hn0.
          -- destruct (cache r0 !! requirement.name req) eqn:E0; [|reflexivity].
             exfalso. destruct (Hcache (requirement.name req) ltac:(rewrite E0; eexists; reflexivity))
               as [p2 Hp2].
             simpl in Hmiss. rewrite Hmiss in Hp2. discriminate. }
  destruct res as [pkg|]; [|apply Hinv; tauto].
  pose proof (satisfies_version_visited r2 (package.version pkg) (requirement.specs req)) as V3.
  pose proof (satisfies_version_cache r2 (package.version pkg) (requirement.specs req)) as C3.
  destruct (satisfies_version r2 _ _) as [ok r3]. simpl in V3, C3.
  destruct (negb ok); [apply Hinv; [exact V3|rewrite C3; tauto]|].
  assert (Hr4 : visited (match constraints r3 !! requirement.name req with
                 | Some cs => satisfies_constraints r3 (package.version pkg) cs
                 | None => (true, r3) end).2 = visited r3 /\
                cache (match constraints r3 !! requirement.name req with
                 | Some cs => satisfies_constraints r3 (package.version pkg) cs
                 | None => (true, r3) end).2 = cache r3).
  { destruct (constraints r3 !! requirement.name req) as [cs|]; [|split; reflexivity].
    split; [apply satisfies_constraints_visited|apply satisfies_constraints_cache]. }
  destruct (match constraints r3 !! requirement.name req with
            | Some cs => satisfies_constraints r3 (package.version pkg) cs
            | None => (true, r3) end) as [okc r4].
  destruct Hr4 as [V4 C4]. simpl in V4, C4.
  destruct (negb okc); [apply Hinv; [congruence|rewrite C4, C3; tauto]|].
  destruct (expand_deps _ _ _ _) as [q'|]; [|exact I].
  apply Hinv; [congruence|rewrite C4, C3; tauto].
Qed.

Lemma run_seq_inv (r0 : Resolver) (fuel : nat) (st st' : LoopState) :
  seq_inv r0 st -> run_seq fetch fuel st = Some (Normal st') -> seq_inv r0 st'.
Proof.
  revert st; induction fuel as [|fuel IH]; intros st Hi Hr; cbn [run_seq] in Hr; [discriminate|].
  pose proof (seq_step_inv r0 st Hi) as Hs.
  destruct (seq_step fetch st) as [[s|s]|]; [injection Hr as <-; exact Hs|exact (IH s Hs Hr)|discriminate].
Qed.

(** X22: A finished run of resolve_sequential asks the metadata source for each name at most once, never for a name that was visited or in the package cache at the start, and every name it asked for ends up visited. *)
Theorem resolve_sequential_fetches_once (fuel : nat) (r : Resolver)
    (reqs : list requirement.Requirement) (st' : LoopState) :
  run_seq fetch fuel (start r reqs) = Some (Normal st') ->
  NoDup (fetch_log st') /\
  forall n, n ∈ fetch_log st' -> n ∈ visited (rv st') /\ (n ∉ visited r) /\ cache r !! n = None.
Proof.
  intros Hr. assert (Hi : seq_inv r (start r reqs)).
  { unfold seq_inv, start; cbn [fetch_log rv]. split; [constructor|]. split; [|split; [set_solver|tauto]].
    intros n Hn. inversion Hn. }
  destruct (run_seq_inv r fuel _ _ Hi Hr) as (Hnd & Hlog & _). split; assumption.
Qed.

End seq_once.

Section memo.
Import resolver package.

(** X23: Once the resolver's get_package has returned a package for a name, asking again for that name returns the same package from the cache without calling the metadata source; the first call logs at most one fetch. *)
Theorem get_package_memo (fetch : rstring -> Fetched) (r : Resolver) (n : rstring)
    (log : list rstring) (p : Package) (r1 : Resolver) (log1 log' : list rstring) :
  get_package fetch r n log = (Some p, r1, log1) ->
  get_package fetch r1 n log' = (Some p, r1, log') /\
  (log1 = log \/ log1 = log ++ [n]).
Proof.
  unfold get_package. destruct (cache r !! n) as [pkg|] eqn:En.
  - intros Hg. injection Hg as <- <- <-. rewrite En. split; [reflexivity|left; reflexivity].
  - destruct (fetch n) as [pkg| |]; intros Hg; try discriminate.
    injection Hg as <- <- <-. simpl. rewrite lookup_insert_eq.
    split; [reflexivity|right; reflexivity].
Qed.

End memo.

Section invalid_spec.
Import requirement.
Context `{UnicodeTables}.

Lemma trim_start_trim (s : rstring) : trim_start (trim s) = trim s.
Proof. unfold trim. rewrite trim_start_trim_end, trim_start_idem. reflexivity. Qed.

(** X24: parse_version_specs on text whose trimmed form is non-empty and starts with none of the operators ==, !=, <=, >=, <, >, ~= returns Err("Invalid version spec: " followed by the trimmed text). *)
Theorem parse_version_specs_invalid (s : rstring) :
  trim s <> [] -> op_prefix (trim s) = None ->
  parse_version_specs s = Normal (Err (str "Invalid version spec: " ++ trim s)).
Proof.
  intros Hne Ho. unfold parse_version_specs.
  pose proof (trim_start_trim s) as Ets.
  destruct (trim s) as [|c t]; [congruence|]. cbn [specs_loop].
  replace (Nat.ltb 0 (byte_len (c :: t))) with true
    by (symmetry; apply Nat.ltb_lt; simpl; pose proof (utf8_len_pos c); lia).
  cbn [slice_from pbind]. rewrite Ets, Ho. reflexivity.
Qed.

Lemma scan_version_general (rest : rstring) (i : nat) (acc : rstring) (e : nat) :
  scan_version rest i acc e =
    (acc ++ List.filter version_char (before_comma rest),
     match before_comma rest with [] => e | _ :: _ => (i + length (before_comma rest))%nat end).
Proof.
  revert i acc e; induction rest as [|ch t IH]; intros i acc e; cbn [scan_version before_comma].
  - rewrite app_nil_r. reflexivity.
  - destruct (version_char ch) eqn:Ev.
    + assert (Hc : (ch =? 44) = false).
      { destruct (Z.eqb_spec ch 44) as [->|]; [|reflexivity]. vm_compute in Ev. discriminate. }
      rewrite Hc, IH. cbn [List.filter length]. rewrite Ev, <- app_assoc.
      f_equal. destruct (before_comma t); simpl; lia.
    + destruct (ch =? 44).
      * rewrite app_nil_r. reflexivity.
      * rewrite IH. cbn [List.filter length]. rewrite Ev.
        f_equal. destruct (before_comma t); simpl; lia.
Qed.

(** X25: In parse_version_specs, the version read after an operator consists of the version characters (alphanumerics, '.', '*', '+') of the text up to the first comma, all other characters being skipped, and version_end is the number of characters of that text; so '>=1.0 rc1' reads version 1.0rc1. *)
Theorem scan_version_spec (rest : rstring) :
  scan_version rest 0 [] 0 =
    (List.filter version_char (before_comma rest), length (before_comma rest)).
Proof.
  rewrite scan_version_general. simpl. f_equal. destruct (before_comma rest); reflexivity.
Qed.

End invalid_spec.

(* ------------------------------------------------------------------ *)
(** ** Concrete instances of the properties of the remaining code *)

Definition pkg_b_upper : package.Package :=
  package.mkPackage (str "B"%string) (str "2.0"%string) None None None None None [] [].

Lemma register_installed_reusable_witness :
  to_lowercase (str "b"%string) = to_lowercase (package.name pkg_b_upper) /\
  candidate_selector.can_reuse_installed
    (candidate_selector.register_installed (candidate_selector.new candidate_selector.PreferInstalled)
       pkg_b_upper true) (str "b"%string) (package.version pkg_b_upper) None true = true.
Proof.
  assert (Hn : to_lowercase (str "b"%string) = to_lowercase (package.name pkg_b_upper))
    by reflexivity.
  split; [exact Hn|].
  rewrite (register_installed_reusable _ pkg_b_upper true (str "b"%string) None true Hn).
  reflexivity.
Defined.

Lemma register_installed_other_witness :
  candidate_selector.candidate_key (str "a"%string) (str "2.0"%string) <>
    candidate_selector.candidate_key (package.name pkg_b) (package.version pkg_b) /\
  candidate_selector.can_reuse_installed
    (candidate_selector.register_installed (candidate_selector.new candidate_selector.PreferInstalled)
       pkg_b true) (str "a"%string) (str "2.0"%string) None true = false.
Proof.
  assert (Hk : candidate_selector.candidate_key (str "a"%string) (str "2.0"%string) <>
    candidate_selector.candidate_key (package.name pkg_b) (package.version pkg_b))
    by (vm_compute; congruence).
  split; [exact Hk|].
  rewrite (register_installed_other _ pkg_b true (str "a"%string) (str "2.0"%string) None true Hk).
  reflexivity.
Defined.

Definition cand_a : candidate_selector.Candidate :=
  candidate_selector.mkCandidate pkg_a_dep_b false false None.
Definition cand_b : candidate_selector.Candidate :=
  candidate_selector.mkCandidate pkg_b true false None.

Lemma select_best_member_witness :
  candidate_selector.select_best candidate_selector.default [cand_a; cand_b] = Some cand_b /\
  In cand_b [cand_a; cand_b].
Proof.
  split; [reflexivity|].
  apply (proj2 (select_best_member candidate_selector.default [cand_a; cand_b]) cand_b).
  reflexivity.
Defined.

Lemma select_best_prefers_installed_witness :
  candidate_selector.strategy candidate_selector.default <> candidate_selector.PreferLatest /\
  exists i cs1 cs2, candidate_selector.select_best candidate_selector.default [cand_a; cand_b] = Some i /\
    [cand_a; cand_b] = cs1 ++ i :: cs2 /\ candidate_selector.is_installed i = true /\
    Forall (fun x => candidate_selector.is_installed x = false) cs1.
Proof.
  assert (Hs : candidate_selector.strategy candidate_selector.default <> candidate_selector.PreferLatest)
    by discriminate.
  split; [exact Hs|].
  apply (select_best_prefers_installed candidate_selector.default [cand_a; cand_b] cand_b Hs).
  - right; left; reflexivity.
  - reflexivity.
Defined.

Lemma get_after_set_witness :
  to_lowercase (str "foo"%string) = to_lowercase (str "Foo"%string) /\
  fst (dependency_cache.get (dependency_cache.set dependency_cache.new (str "Foo"%string)
         (str "1.0"%string) [] []) (str "foo"%string) (str "1.0"%string)) =
    Some (dependency_cache.mkCachedDependencies (str "Foo"%string) (str "1.0"%string) [] []).
Proof.
  assert (Hn : to_lowercase (str "foo"%string) = to_lowercase (str "Foo"%string)) by reflexivity.
  split; [exact Hn|].
  rewrite (get_after_set dependency_cache.new (str "Foo"%string) (str "1.0"%string) [] []
             (str "foo"%string) Hn).
  reflexivity.
Defined.

Lemma get_after_set_other_witness :
  dependency_cache.cache_key (str "bar"%string) (str "1.0"%string) <>
    dependency_cache.cache_key (str "Foo"%string) (str "1.0"%string) /\
  fst (dependency_cache.get (dependency_cache.set dependency_cache.new (str "Foo"%string)
         (str "1.0"%string) [] []) (str "bar"%string) (str "1.0"%string)) = None.
Proof.
  assert (Hk : dependency_cache.cache_key (str "bar"%string) (str "1.0"%string) <>
    dependency_cache.cache_key (str "Foo"%string) (str "1.0"%string)) by (vm_compute; congruence).
  split; [exact Hk|].
  rewrite (get_after_set_other dependency_cache.new (str "Foo"%string) (str "1.0"%string) [] []
             (str "bar"%string) (str "1.0"%string) Hk).
  reflexivity.
Defined.

Lemma two_pkgs_distinct : NoDup (map lock_key [pkg_a_dep_b; pkg_b]).
Proof. apply (bool_decide_unpack _). vm_compute. exact I. Qed.

Lemma lockfile_get_package_witness :
  NoDup (map lock_key [pkg_a_dep_b; pkg_b]) /\
  lockfile.get_package (lockfile.from_packages [pkg_a_dep_b; pkg_b] (str "3.11"%string)
      (str "t"%string)) (str "b"%string) (str "2.0"%string) = Some (lock pkg_b).
Proof.
  split; [exact two_pkgs_distinct|].
  apply (lockfile_get_package [pkg_a_dep_b; pkg_b] _ _ pkg_b two_pkgs_distinct).
  right; left; reflexivity.
Defined.

Lemma lockfile_to_packages_witness :
  NoDup (map lock_key [pkg_a_dep_b; pkg_b]) /\
  lockfile.to_packages (lockfile.from_packages [pkg_a_dep_b; pkg_b] (str "3.11"%string)
      (str "t"%string)) ≡ₚ
    map (fun p => package.mkPackage (package.name p) (package.version p) (package.summary p)
                    None None None None (package.requires_dist p) []) [pkg_a_dep_b; pkg_b].
Proof.
  split; [exact two_pkgs_distinct|].
  apply (lockfile_to_packages [pkg_a_dep_b; pkg_b] _ _ two_pkgs_distinct).
Defined.

Lemma lockfile_package_names_witness :
  NoDup (map lock_key [pkg_a_dep_b; pkg_b]) /\
  lockfile.has_package (lockfile.from_packages [pkg_a_dep_b; pkg_b] (str "3.11"%string)
      (str "t"%string)) (str "a"%string) = true.
Proof.
  split; [exact two_pkgs_distinct|].
  apply (proj2 (lockfile_package_names [pkg_a_dep_b; pkg_b] (str "3.11"%string) (str "t"%string)
                  two_pkgs_distinct)).
  left. reflexivity.
Defined.

Lemma linux_resolver_consistent :
  version_cache_consistent (resolver.with_environment linux_env).
Proof. intros k p Hk. simpl in Hk. rewrite lookup_empty in Hk. discriminate. Qed.

Lemma check_version_spec_self_witness :
  version_cache_consistent (resolver.with_environment linux_env) /\
  fst (resolver.check_version_spec (resolver.with_environment linux_env) (str "1.2"%string)
         (requirement.mkVersionSpec requirement.VersionOp.Compatible (str "1.2"%string))) = true.
Proof.
  split; [exact linux_resolver_consistent|].
  exact (check_version_spec_self _ (str "1.2"%string) requirement.VersionOp.Compatible
           linux_resolver_consistent).
Defined.

Lemma check_version_spec_mirror_witness :
  version_cache_consistent (resolver.with_environment linux_env) /\
  fst (resolver.check_version_spec (resolver.with_environment linux_env) (str "1.0"%string)
         (requirement.mkVersionSpec requirement.VersionOp.Lt (str "1.10"%string))) =
  fst (resolver.check_version_spec (resolver.with_environment linux_env) (str "1.10"%string)
         (requirement.mkVersionSpec requirement.VersionOp.Gt (str "1.0"%string))).
Proof.
  split; [exact linux_resolver_consistent|].
  exact (proj1 (check_version_spec_mirror _ (str "1.0"%string) (str "1.10"%string)
                  linux_resolver_consistent)).
Defined.

Lemma check_version_spec_trailing_zero_witness :
  version_cache_consistent (resolver.with_environment linux_env) /\
  fst (resolver.check_version_spec (resolver.with_environment linux_env) (str "2"%string ++ str ".0"%string)
         (requirement.mkVersionSpec requirement.VersionOp.Eq (str "2"%string))) =
  fst (resolver.check_version_spec (resolver.with_environment linux_env) (str "2"%string)
         (requirement.mkVersionSpec requirement.VersionOp.Eq (str "2"%string))).
Proof.
  split; [exact linux_resolver_consistent|].
  exact (proj1 (check_version_spec_trailing_zero _ (str "2"%string) (str "2"%string)
                  requirement.VersionOp.Eq linux_resolver_consistent)).
Defined.

Lemma satisfies_version_all_witness :
  version_cache_consistent (resolver.with_environment linux_env) /\
  fst (resolver.satisfies_version (resolver.with_environment linux_env) (str "1.5"%string)
         [requirement.mkVersionSpec requirement.VersionOp.GtEq (str "1.0"%string);
          requirement.mkVersionSpec requirement.VersionOp.Lt (str "2.0"%string)]) =
  forallb (fun sp => fst (resolver.check_version_spec (resolver.with_environment linux_env)
                           (str "1.5"%string) sp))
    [requirement.mkVersionSpec requirement.VersionOp.GtEq (str "1.0"%string);
     requirement.mkVersionSpec requirement.VersionOp.Lt (str "2.0"%string)].
Proof.
  split; [exact linux_resolver_consistent|].
  exact (proj1 (satisfies_version_all _ (str "1.5"%string) _ [] linux_resolver_consistent)).
Defined.

Lemma from_str_ascii_no_panic_witness :
  is_ascii (str "a[x]>=1.0; os_name == 'nt'"%string) = true /\
  requirement.from_str (str "a[x]>=1.0; os_name == 'nt'"%string) <> Panic.
Proof.
  assert (Ha : is_ascii (str "a[x]>=1.0; os_name == 'nt'"%string) = true) by reflexivity.
  split; [exact Ha|]. exact (from_str_ascii_no_panic _ Ha).
Defined.

Lemma two_pkg_source_ascii :
  forall n p, two_pkg_source n = resolver.FetchOk p -> ascii_deps p.
Proof.
  intros n p Hf. unfold two_pkg_source in Hf.
  destruct (rstring_eqb n (str "a"%string)).
  - injection Hf as <-. repeat constructor.
  - destruct (rstring_eqb n (str "b"%string)); [|discriminate].
    injection Hf as <-. constructor.
Qed.

Lemma resolve_concurrent_ascii_no_panic_witness :
  (forall n p, two_pkg_source n = resolver.FetchOk p -> ascii_deps p) /\
  (Z.of_nat 10 <= resolver.MAX_PERMITS)%Z /\
  resolver.resolve two_pkg_source 5%nat (resolver.new marker.Linux marker.X86_64) [req_a]
    <> Some Panic.
Proof.
  assert (Hb : (Z.of_nat 10 <= resolver.MAX_PERMITS)%Z) by (vm_compute; discriminate).
  split; [exact two_pkg_source_ascii|]. split; [exact Hb|].
  exact (proj2 (resolve_concurrent_ascii_no_panic two_pkg_source 10%nat two_pkg_source_ascii 5%nat
           (resolver.new marker.Linux marker.X86_64) [req_a]) Hb).
Defined.

Lemma new_resolver_cache_ascii : cache_ascii (resolver.new marker.Linux marker.X86_64).
Proof. intros k p Hk. simpl in Hk. rewrite lookup_empty in Hk. discriminate. Qed.

Lemma resolve_sequential_ascii_no_panic_witness :
  (forall n p, two_pkg_source n = resolver.FetchOk p -> ascii_deps p) /\
  cache_ascii (resolver.new marker.Linux marker.X86_64) /\
  resolver.resolve_sequential two_pkg_source 5%nat (resolver.new marker.Linux marker.X86_64) [req_a]
    <> Some Panic.
Proof.
  split; [exact two_pkg_source_ascii|]. split; [exact new_resolver_cache_ascii|].
  exact (resolve_sequential_ascii_no_panic two_pkg_source two_pkg_source_ascii 5%nat
           (resolver.new marker.Linux marker.X86_64) [req_a] new_resolver_cache_ascii).
Defined.

Lemma resolve_sequential_fetches_once_witness :
  exists st', resolver.run_seq two_pkg_source 5%nat
                (resolver.start (resolver.new marker.Linux marker.X86_64) [req_a; req_a_ge]) =
              Some (Normal st') /\
    resolver.fetch_log st' = [str "a"%string; str "b"%string] /\
    NoDup (resolver.fetch_log st').
Proof.
  destruct (resolver.run_seq two_pkg_source 5%nat
              (resolver.start (resolver.new marker.Linux marker.X86_64) [req_a; req_a_ge]))
    as [[st'|]|] eqn:E; [|vm_compute in E; discriminate E|vm_compute in E; discriminate E].
  exists st'. split; [reflexivity|].
  split; [vm_compute in E; inversion E; reflexivity|].
  exact (proj1 (resolve_sequential_fetches_once two_pkg_source 5%nat _ _ st' E)).
Defined.

Lemma get_package_memo_witness :
  let r0 := resolver.new marker.Linux marker.X86_64 in
  let r1 := resolver.set_cache r0 (<[str "a"%string := pkg_a_dep_b]> (resolver.cache r0)) in
  resolver.get_package two_pkg_source r0 (str "a"%string) [] =
    (Some pkg_a_dep_b, r1, [str "a"%string]) /\
  resolver.get_package two_pkg_source r1 (str "a"%string) [] = (Some pkg_a_dep_b, r1, []).
Proof.
  intros r0 r1.
  assert (Hg : resolver.get_package two_pkg_source r0 (str "a"%string) [] =
                 (Some pkg_a_dep_b, r1, [str "a"%string])) by reflexivity.
  split; [exact Hg|].
  exact (proj1 (get_package_memo two_pkg_source r0 (str "a"%string) [] pkg_a_dep_b r1
                  [str "a"%string] [] Hg)).
Defined.

Lemma parse_version_specs_invalid_witness :
  trim (str " foo"%string) <> [] /\
  requirement.op_prefix (trim (str " foo"%string)) = None /\
  requirement.parse_version_specs (str " foo"%string) =
    Normal (Err (str "Invalid version spec: foo"%string)).
Proof.
  assert (H1 : trim (str " foo"%string) <> []) by (vm_compute; congruence).
  assert (H2 : requirement.op_prefix (trim (str " foo"%string)) = None)
    by (vm_compute; reflexivity).
  split; [exact H1|]. split; [exact H2|].
  rewrite (parse_version_specs_invalid _ H1 H2). vm_compute. reflexivity.
Defined.
